(** * Fixed-step ODE integrators of MultiStep.py and the comparison
      statistics of model.py

    The Python code works on binary64 numbers.  Here every number is a
    rational ([Q]): the development is about the recurrences, the time
    grid and the control flow.  Arithmetic on values is exact.  The one
    place where rounding decides a discrete outcome, the quotient behind
    the number of grid points, goes through a rounding function, which is
    either the identity or that of binary64.  Decimal literals denote
    their decimal value.  A one-dimensional numpy array is a [list Q]; a
    two-dimensional one is the list of its rows.

    Python exceptions are an explicit [result]; evaluations of the
    caller's derivative function [f] and the warnings issued on the way
    are recorded in a trace that the integrators thread through every
    call. *)

From Stdlib Require Import QArith Qround Qabs Qminmax ZArith Lia Lqa String.
From stdpp Require Import base list.

Local Open Scope Q_scope.

(** ** Exceptions and the call trace *)

Inductive exn : Set :=
| ZeroDivisionError
| ValueError
| IndexError
| KeyError
| TypeError
| FloatingPointError.

Inductive result (A : Type) : Type :=
| Ok (a : A)
| Raise (e : exn).
Arguments Ok {A} a.
Arguments Raise {A} e.

Abbreviation vec := (list Q).

(** What a call leaves behind besides its value: the evaluations
    [f(x, t)] it made and the warnings issued through Python's [warnings]
    module, oldest first.  Every call of [warnings.warn] is logged,
    whether or not the active filter would show it. *)
Inductive warning : Set :=
| RuntimeWarning.

Inductive event : Type :=
| Call (x : vec) (t : Q)
| Warn (w : warning).

Abbreviation trace := (list event).

Definition M (A : Type) : Type := trace -> result (A * trace).

Definition ret {A} (a : A) : M A := fun tr => Ok (a, tr).

Definition bind {A B} (m : M A) (k : A -> M B) : M B :=
  fun tr => match m tr with
            | Ok (a, tr') => k a tr'
            | Raise e => Raise e
            end.

Definition lift {A} (r : result A) : M A :=
  fun tr => match r with
            | Ok a => Ok (a, tr)
            | Raise e => Raise e
            end.

Notation "x <- m ;; k" := (bind m (fun x => k))
  (at level 20, m at level 99, k at level 200, format "x  <-  m  ;;  '/' k").

(** [for i in l: s = body(i, s)] *)
Fixpoint for_each {S} (l : list nat) (body : nat -> S -> M S) (s : S) : M S :=
  match l with
  | [] => ret s
  | i :: l' => s' <- body i s ;; for_each l' body s'
  end.

(** [for i in range(lo, hi)] *)
Definition for_range {S} (lo hi : nat) (body : nat -> S -> M S) (s : S) : M S :=
  for_each (seq lo (hi - lo)) body s.

(** ** Python and numpy primitives *)

(** [int(q)]: truncation toward zero. *)
Definition py_int (q : Q) : Z := Z.quot (Qnum q) (Zpos (Qden q)).

(** [a / b] on Python floats. *)
Definition py_div (a b : Q) : result Q :=
  if Qeq_bool b 0 then Raise ZeroDivisionError else Ok (a / b).

(** [l[i]] for [0 <= i]. *)
Definition getitem {A} (l : list A) (i : nat) : result A :=
  match l !! i with
  | Some x => Ok x
  | None => Raise IndexError
  end.

(** numpy's binary elementwise operations: equal lengths combine
    pointwise, a length-one operand is broadcast, anything else raises. *)
Definition broadcast2 {A B C} (op : A -> B -> C) (a : list A) (b : list B)
  : result (list C) :=
  if (length a =? length b)%nat then Ok (zip_with op a b)
  else match a, b with
       | [x], _ => Ok (map (op x) b)
       | _, [y] => Ok (map (fun x => op x y) a)
       | _, _ => Raise ValueError
       end.

Definition vadd : vec -> vec -> vec := zip_with Qplus.
Definition vsub : vec -> vec -> vec := zip_with Qminus.

(** [c * v] and [v / c] for a scalar [c]. *)
Definition vscale (c : Q) (v : vec) : vec := map (Qmult c) v.
Definition vdiv (v : vec) (c : Q) : vec := map (fun x => x / c) v.

Definition np_add : vec -> vec -> result vec := broadcast2 Qplus.
Definition np_sub : vec -> vec -> result vec := broadcast2 Qminus.

(** [np.zeros((n, d))] *)
Definition np_zeros (n d : nat) : list vec := replicate n (replicate d 0).

(** [a[i] = v] for a two-dimensional [a]: the row is overwritten by [v],
    a length-one [v] being broadcast over the row. *)
Definition set_row (a : list vec) (i : nat) (v : vec) : result (list vec) :=
  match a !! i with
  | None => Raise IndexError
  | Some row =>
      if (length v =? length row)%nat then Ok (<[i:=v]> a)
      else match v with
           | [x] => Ok (<[i:=replicate (length row) x]> a)
           | _ => Raise ValueError
           end
  end.

(** [np.linspace(start, stop, num)]: [num] samples [start + i*step] with
    [step = (stop - start)/(num - 1)], the last one set to [stop] itself. *)
Definition linspace (start stop : Q) (num : Z) : result (list Q) :=
  if (num <? 0)%Z then Raise ValueError
  else
    let n := Z.to_nat num in
    let delta := stop - start in
    let div := (num - 1)%Z in
    let y := map (fun i : nat => inject_Z (Z.of_nat i)) (seq 0 n) in
    let y := if (0 <? div)%Z
             then map (fun v => v * (delta / inject_Z div)) y
             else map (fun v => v * delta) y in
    let y := map (fun v => v + start) y in
    Ok (if (1 <? num)%Z then <[(n - 1)%nat:=stop]> y else y).

(** [np.sqrt(3)]: the binary64 number nearest to the square root of 3. *)
Definition np_sqrt_3 : Q := 3900231685776981 # 2251799813685248.

(** ** Floating-point rounding

    [int((tf - t0) / h)] truncates a binary64 quotient, so the rounding
    of that quotient decides a discrete outcome, the number of grid
    points.  [fl] is the rounding of the float format, applied where the
    code computes that quotient; everywhere else the arithmetic is kept
    exact. *)

Class Rounding : Type := { fl : Q -> Q }.

(** Exact arithmetic: nothing is rounded.  Statements that name no
    rounding are about this one. *)
#[global] Instance exact_arithmetic : Rounding := {| fl := fun q => q |}.

(** [2^e] *)
Definition pow2 (e : Z) : Q :=
  if (0 <=? e)%Z then inject_Z (2 ^ e) else 1 / inject_Z (2 ^ (- e)).

(** [floor(log2 q)] for [0 < q]. *)
Definition ilog2 (q : Q) : Z :=
  let k := (Z.log2 (Qnum q) - Z.log2 (Zpos (Qden q)))%Z in
  if Qle_bool (pow2 k) q then k else (k - 1)%Z.

(** The nearest integer, ties to the even one. *)
Definition round_half_even (q : Q) : Z :=
  let n := Qfloor q in
  match Qcompare (q - inject_Z n) (1 # 2) with
  | Lt => n
  | Gt => (n + 1)%Z
  | Eq => if Z.even n then n else (n + 1)%Z
  end.

(** IEEE 754 binary64, round to nearest, ties to even: 53 significant
    bits, the smallest spacing [2^-1074].  Overflow to infinity is left
    out. *)
Definition binary64_round (q : Q) : Q :=
  if Qeq_bool q 0 then 0
  else
    let e := Z.max (ilog2 (Qabs q) - 52) (-1074) in
    inject_Z (round_half_even (q / pow2 e)) * pow2 e.

Definition binary64 : Rounding := {| fl := binary64_round |}.

(** ** The nonlinear solver

    [scipy.optimize.fsolve] is library code.  It is taken as an arbitrary
    deterministic black box: from the initial guess it decides where to
    evaluate the residual, sees only the residual's values, and after
    finitely many evaluations stops with its last iterate and MINPACK's
    status [ier] ([1] means the tolerance was met), or raises. *)

Inductive solver : Type :=
| Return (y : vec) (ier : Z)
| Query (x : vec) (k : vec -> solver)
| Abort (e : exn).

Fixpoint run_solver (s : solver) (func : vec -> M vec) : M (vec * Z) :=
  match s with
  | Return y ier => ret (y, ier)
  | Query x k => r <- func x ;; run_solver (k r) func
  | Abort e => lift (Raise e)
  end.

Section MultiStep.

Context {R : Rounding}.

(** The derivative function, a pure mapping (state, time) to derivative. *)
Variable f : vec -> Q -> vec.

(** The root finder behind [optimize.fsolve]. *)
Variable hybr : vec -> solver.

Definition call_f (x : vec) (t : Q) : M vec :=
  fun tr => Ok (f x t, tr ++ [Call x t]).

(** [warnings.warn(msg, w)] *)
Definition warn (w : warning) : M unit :=
  fun tr => Ok (tt, tr ++ [Warn w]).

(** [optimize.fsolve(func, x0)] with [full_output] left at its default.
    scipy looks at the status itself: 0 and any unknown status raise
    [TypeError], 2 to 5 issue a [RuntimeWarning]; then the iterate alone
    comes back, without the status. *)
Definition fsolve (func : vec -> M vec) (x0 : vec) : M vec :=
  r <- run_solver (hybr x0) func ;;
  let '(x, status) := r in
  if (status =? 0)%Z then lift (Raise TypeError)
  else if (status =? 1)%Z then ret x
  else if ((2 <=? status)%Z && (status <=? 5)%Z)%bool then
    _ <- warn RuntimeWarning ;; ret x
  else lift (Raise TypeError).

(** [num_steps = int((tf - t0) / h) + 1]: the difference and the
    quotient are rounded, the quotient is truncated toward zero. *)
Definition num_steps_of (t0 tf h : Q) : M Z :=
  q <- lift (py_div (fl (tf - t0)) h) ;;
  ret (py_int (fl q) + 1)%Z.

(** *** adams_bashforth_2 *)

Definition ab2_body (time_points : list Q) (h : Q) (i : nat)
  (solution : list vec) : M (list vec) :=
  t <- lift (getitem time_points i) ;;
  s1 <- lift (getitem solution (i - 1)) ;;
  t1 <- lift (getitem time_points (i - 1)) ;;
  k1 <- call_f s1 t1 ;;
  s2 <- lift (getitem solution (i - 2)) ;;
  t2 <- lift (getitem time_points (i - 2)) ;;
  k0 <- call_f s2 t2 ;;
  s1 <- lift (getitem solution (i - 1)) ;;
  d <- lift (np_sub (vscale (3 # 2) k1) (vscale (1 # 2) k0)) ;;
  x_next <- lift (np_add s1 (vscale h d)) ;;
  lift (set_row solution i x_next).

Definition adams_bashforth_2 (x0 : vec) (t0 tf h : Q) : M (list Q * list vec) :=
  num_steps <- num_steps_of t0 tf h ;;
  time_points <- lift (linspace t0 tf num_steps) ;;
  let solution := np_zeros (Z.to_nat num_steps) (length x0) in
  solution <- lift (set_row solution 0 x0) ;;
  solution <-
    (if (1 <? num_steps)%Z then
       k1 <- call_f x0 t0 ;;
       x1 <- lift (np_add x0 (vscale h k1)) ;;
       solution <- lift (set_row solution 1 x1) ;;
       for_range 2 (Z.to_nat num_steps) (ab2_body time_points h) solution
     else ret solution) ;;
  ret (time_points, solution).

(** *** adams_moulton_2 *)

(** The closure [implicit_equation] of step [i]; it reads [solution],
    [time_points], [t] and [h] from the enclosing call. *)
Definition am2_implicit_equation (time_points : list Q) (h : Q) (i : nat)
  (solution : list vec) (t : Q) (x_next : vec) : M vec :=
  s1 <- lift (getitem solution (i - 1)) ;;
  t1 <- lift (getitem time_points (i - 1)) ;;
  k1 <- call_f s1 t1 ;;
  s2 <- lift (getitem solution (i - 2)) ;;
  t2 <- lift (getitem time_points (i - 2)) ;;
  k0 <- call_f s2 t2 ;;
  s1 <- lift (getitem solution (i - 1)) ;;
  d <- lift (np_sub (vscale (3 # 2) k1) (vscale (1 # 2) k0)) ;;
  x_pred <- lift (np_add s1 (vscale h d)) ;;
  k_next <- call_f x_next t ;;
  s1 <- lift (getitem solution (i - 1)) ;;
  t1 <- lift (getitem time_points (i - 1)) ;;
  k1 <- call_f s1 t1 ;;
  s1 <- lift (getitem solution (i - 1)) ;;
  e <- lift (np_add (vscale (1 # 2) k_next) (vscale (1 # 2) k1)) ;;
  r <- lift (np_add s1 (vscale h e)) ;;
  lift (np_sub x_next r).

Definition am2_body (time_points : list Q) (h : Q) (i : nat)
  (solution : list vec) : M (list vec) :=
  t <- lift (getitem time_points i) ;;
  s1 <- lift (getitem solution (i - 1)) ;;
  y <- fsolve (am2_implicit_equation time_points h i solution t) s1 ;;
  lift (set_row solution i y).

Definition adams_moulton_2 (x0 : vec) (t0 tf h : Q) : M (list Q * list vec) :=
  num_steps <- num_steps_of t0 tf h ;;
  time_points <- lift (linspace t0 tf num_steps) ;;
  let solution := np_zeros (Z.to_nat num_steps) (length x0) in
  solution <- lift (set_row solution 0 x0) ;;
  solution <-
    (if (1 <? num_steps)%Z then
       k1 <- call_f x0 t0 ;;
       x1 <- lift (np_add x0 (vscale h k1)) ;;
       solution <- lift (set_row solution 1 x1) ;;
       for_range 2 (Z.to_nat num_steps) (am2_body time_points h) solution
     else ret solution) ;;
  ret (time_points, solution).

(** *** adams_bashforth_4 *)

(** Body of the bootstrap loop: one classical Runge-Kutta step. *)
Definition ab4_rk4_body (time_points : list Q) (h : Q) (i : nat)
  (solution : list vec) : M (list vec) :=
  t <- lift (getitem time_points (i - 1)) ;;
  s1 <- lift (getitem solution (i - 1)) ;;
  k1 <- call_f s1 t ;;
  s1 <- lift (getitem solution (i - 1)) ;;
  a2 <- lift (np_add s1 (vscale ((1 # 2) * h) k1)) ;;
  k2 <- call_f a2 (t + (1 # 2) * h) ;;
  s1 <- lift (getitem solution (i - 1)) ;;
  a3 <- lift (np_add s1 (vscale ((1 # 2) * h) k2)) ;;
  k3 <- call_f a3 (t + (1 # 2) * h) ;;
  s1 <- lift (getitem solution (i - 1)) ;;
  a4 <- lift (np_add s1 (vscale h k3)) ;;
  k4 <- call_f a4 (t + h) ;;
  s1 <- lift (getitem solution (i - 1)) ;;
  w <- lift (np_add k1 (vscale 2 k2)) ;;
  w <- lift (np_add w (vscale 2 k3)) ;;
  w <- lift (np_add w k4) ;;
  x <- lift (np_add s1 (vdiv (vscale h w) 6)) ;;
  lift (set_row solution i x).

(** [f(solution[i - j], time_points[i - j])] *)
Definition ab4_k (time_points : list Q) (i : nat) (solution : list vec)
  (j : nat) : M vec :=
  s <- lift (getitem solution (i - j)) ;;
  t <- lift (getitem time_points (i - j)) ;;
  call_f s t.

(** Body of the main loop: the four-step formula. *)
Definition ab4_body (time_points : list Q) (h : Q) (i : nat)
  (solution : list vec) : M (list vec) :=
  t <- lift (getitem time_points i) ;;
  k0 <- ab4_k time_points i solution 1 ;;
  k1 <- ab4_k time_points i solution 2 ;;
  k2 <- ab4_k time_points i solution 3 ;;
  k3 <- ab4_k time_points i solution 4 ;;
  s1 <- lift (getitem solution (i - 1)) ;;
  w <- lift (np_sub (vscale (55 / 24) k0) (vscale (59 / 24) k1)) ;;
  w <- lift (np_add w (vscale (37 / 24) k2)) ;;
  w <- lift (np_sub w (vscale (9 / 24) k3)) ;;
  x_next <- lift (np_add s1 (vscale h w)) ;;
  lift (set_row solution i x_next).

Definition adams_bashforth_4 (x0 : vec) (t0 tf h : Q) : M (list Q * list vec) :=
  num_steps <- num_steps_of t0 tf h ;;
  time_points <- lift (linspace t0 tf num_steps) ;;
  let solution := np_zeros (Z.to_nat num_steps) (length x0) in
  solution <- lift (set_row solution 0 x0) ;;
  solution <-
    (if (1 <? num_steps)%Z then
       solution <- for_range 1 (Nat.min 4 (Z.to_nat num_steps))
                     (ab4_rk4_body time_points h) solution ;;
       for_range 4 (Z.to_nat num_steps) (ab4_body time_points h) solution
     else ret solution) ;;
  ret (time_points, solution).

(** *** custom_dirk_method *)

Definition gamma : Q := (3 - np_sqrt_3) / 6.

(** The inner closure [stage_equation] of step [i]. *)
Definition dirk_stage_equation (h : Q) (i : nat) (solution : list vec)
  (t_prev : Q) (k1 : vec) : M vec :=
  s1 <- lift (getitem solution (i - 1)) ;;
  stage_arg <- lift (np_add s1 (vscale (h * gamma) k1)) ;;
  fk <- call_f stage_arg (t_prev + h * gamma) ;;
  lift (np_sub fk k1).

(** The outer closure [implicit_equation] of step [i]. *)
Definition dirk_implicit_equation (h : Q) (i : nat) (solution : list vec)
  (t_prev : Q) (x_next : vec) : M vec :=
  s1 <- lift (getitem solution (i - 1)) ;;
  guess <- call_f s1 t_prev ;;
  k1 <- fsolve (dirk_stage_equation h i solution t_prev) guess ;;
  s1 <- lift (getitem solution (i - 1)) ;;
  r <- lift (np_add s1 (vscale h k1)) ;;
  lift (np_sub r x_next).

Definition dirk_body (time_points : list Q) (h : Q) (i : nat)
  (solution : list vec) : M (list vec) :=
  t_prev <- lift (getitem time_points (i - 1)) ;;
  t_curr <- lift (getitem time_points i) ;;
  s1 <- lift (getitem solution (i - 1)) ;;
  y <- fsolve (dirk_implicit_equation h i solution t_prev) s1 ;;
  lift (set_row solution i y).

Definition custom_dirk_method (x0 : vec) (t0 tf h : Q) : M (list Q * list vec) :=
  num_steps <- num_steps_of t0 tf h ;;
  time_points <- lift (linspace t0 tf num_steps) ;;
  let solution := np_zeros (Z.to_nat num_steps) (length x0) in
  solution <- lift (set_row solution 0 x0) ;;
  solution <- for_range 1 (Z.to_nat num_steps) (dirk_body time_points h)
                solution ;;
  ret (time_points, solution).

End MultiStep.

(** ** compute_method_statistics (model.py) *)

Definition rbind {A B} (r : result A) (k : A -> result B) : result B :=
  match r with
  | Ok a => k a
  | Raise e => Raise e
  end.

Notation "x <-- r ;; k" := (rbind r (fun x => k))
  (at level 20, r at level 99, k at level 200, format "x  <--  r  ;;  '/' k").

Fixpoint sequence {A} (l : list (result A)) : result (list A) :=
  match l with
  | [] => Ok []
  | r :: l' => a <-- r ;; t <-- sequence l' ;; Ok (a :: t)
  end.

(** Elementwise operations on two-dimensional arrays broadcast along both
    axes. *)
Definition broadcast2_2d (op : Q -> Q -> result Q) (a b : list vec)
  : result (list vec) :=
  rows <-- broadcast2 (fun ra rb => row <-- broadcast2 op ra rb ;; sequence row)
             a b ;;
  sequence rows.

(** One elementwise true division.  At a zero divisor numpy yields inf or
    nan with a RuntimeWarning; the event is marked as the exception numpy
    raises for it under [np.errstate(divide='raise', invalid='raise')]. *)
Definition np_true_divide (x y : Q) : result Q :=
  if Qeq_bool y 0 then Raise FloatingPointError else Ok (x / y).

(** [np.max(a)] of the flattened array; an empty array raises. *)
Definition np_max (a : list vec) : result Q :=
  match concat a with
  | [] => Raise ValueError
  | x :: l => Ok (fold_left Qmax l x)
  end.

(** [np.mean(a)] of the flattened array, as the exact quotient of the
    exact sum.  In binary64 the rounded mean of equal entries can exceed
    them by one unit in the last place, so that no order between a mean
    and a maximum taken here carries over to every run of the code. *)
Definition np_mean (a : list vec) : result Q :=
  let l := concat a in
  np_true_divide (fold_left Qplus l 0) (inject_Z (Z.of_nat (length l))).

Definition np_abs (a : list vec) : list vec := map (map Qabs) a.

Record method_stats : Type := {
  max_abs_error : Q;
  mean_abs_error : Q;
  max_rel_error : Q;
  mean_rel_error : Q
}.

(** A Python [dict] with string keys, in insertion order. *)
Abbreviation dict V := (list (string * V)).

Fixpoint dict_get {V} (d : dict V) (k : string) : result V :=
  match d with
  | [] => Raise KeyError
  | (k', v) :: d' => if String.eqb k k' then Ok v else dict_get d' k
  end.

Fixpoint dict_set {V} (d : dict V) (k : string) (v : V) : dict V :=
  match d with
  | [] => [(k, v)]
  | (k', v') :: d' =>
      if String.eqb k k' then (k', v) :: d' else (k', v') :: dict_set d' k v
  end.

Definition reference_method : string := "DIRK".

(** [np.abs(ref_sol) + 1e-10], the divisors of the relative error. *)
Definition rel_denominators (ref_sol : list vec) : list vec :=
  map (map (fun v => v + (1 # 10000000000))) (np_abs ref_sol).

(** The statistics of one method against the reference trajectory. *)
Definition stats_body (sol ref_sol : list vec) : result method_stats :=
  diff <-- broadcast2_2d (fun x y => Ok (x - y)) sol ref_sol ;;
  let abs_error := np_abs diff in
  rel_error <-- broadcast2_2d np_true_divide abs_error
                  (rel_denominators ref_sol) ;;
  max_abs <-- np_max abs_error ;;
  mean_abs <-- np_mean abs_error ;;
  max_rel <-- np_max rel_error ;;
  mean_rel <-- np_mean rel_error ;;
  Ok {| max_abs_error := max_abs; mean_abs_error := mean_abs;
        max_rel_error := max_rel; mean_rel_error := mean_rel |}.

(** [for method, (t, sol) in results.items(): ...] *)
Fixpoint stats_loop (items : dict (list Q * list vec)) (ref_sol : list vec)
  (stats : dict method_stats) : result (dict method_stats) :=
  match items with
  | [] => Ok stats
  | (method, (t, sol)) :: items' =>
      if negb (String.eqb method reference_method) then
        st <-- stats_body sol ref_sol ;;
        stats_loop items' ref_sol (dict_set stats method st)
      else stats_loop items' ref_sol stats
  end.

Definition compute_method_statistics (results : dict (list Q * list vec))
  : result (dict method_stats) :=
  ref <-- dict_get results reference_method ;;
  let '(ref_time, ref_sol) := ref in
  stats_loop results ref_sol [].

(** ** RenewableEnergySystemEnhanced (model.py)

    [np.sin] and [np.cos] are library functions and stay parameters;
    [np.pi] is given its binary64 value. *)

Definition np_pi : Q := 884279719003555 # 281474976710656.

(** [self.params] *)
Record params : Type := {
  max_solar_capacity : Q;
  max_wind_capacity : Q;
  battery_capacity : Q;
  grid_connection_limit : Q;
  solar_efficiency : Q;
  wind_efficiency : Q;
  battery_charge_efficiency : Q;
  battery_discharge_efficiency : Q;
  temperature_sensitivity : Q;
  wind_variability : Q
}.

(** The parameters set by [__init__]. *)
Definition init_params : params := {|
  max_solar_capacity := 150;
  max_wind_capacity := 120;
  battery_capacity := 300;
  grid_connection_limit := 100;
  solar_efficiency := 20 # 100;
  wind_efficiency := 38 # 100;
  battery_charge_efficiency := 95 # 100;
  battery_discharge_efficiency := 92 # 100;
  temperature_sensitivity := 3 # 100;
  wind_variability := 15 # 100
|}.

(** [d.get(k, default)] *)
Fixpoint dict_get_default {V} (d : dict V) (k : string) (default : V) : V :=
  match d with
  | [] => default
  | (k', v) :: d' => if String.eqb k k' then v else dict_get_default d' k default
  end.

(** [a < b] on floats. *)
Definition Qlt_bool (a b : Q) : bool := negb (Qle_bool b a).

Section Model.

Context {R : Rounding}.
Variable np_sin : Q -> Q.
Variable np_cos : Q -> Q.
Variable hybr : vec -> solver.

(** [self.generation_models] *)
Definition solar_model (self : params) (t temp : Q) : Q :=
  (np_sin (2 * np_pi * t / 24) * (1 # 2) + (1 # 2)) *
  (1 + temperature_sensitivity self * temp).

Definition wind_model (self : params) (t wind_speed : Q) : Q :=
  (np_cos (2 * np_pi * t / 24) * (1 # 2) + (1 # 2)) *
  (1 + wind_variability self * wind_speed).

(** [self.demand_model] *)
Definition residential (t : Q) : Q := 50 + 20 * np_sin (2 * np_pi * t / 24).
Definition industrial (t : Q) : Q := 80 + 30 * np_cos (2 * np_pi * t / 24).
Definition commercial (t : Q) : Q := 40 + 10 * np_sin (2 * np_pi * t / 12).

Definition total_demand_at (t : Q) : Q :=
  residential t + industrial t + commercial t.

(** [system_dynamics]: unpacking [X] needs exactly four components.  At
    a capacity equal to 0 the two divisions raise on Python numbers, as
    modelled here; where the state is a numpy row they give [nan] or
    [inf] with a [RuntimeWarning] instead.  Every statement below is for
    non-zero capacities. *)
Definition system_dynamics (self : params) (X : vec) (t : Q)
  (environmental_conditions : dict Q) : result vec :=
  match X with
  | [solar_gen; wind_gen; battery_stored; grid_draw] =>
      let temp := dict_get_default environmental_conditions "temperature" 20 in
      let wind_speed :=
        dict_get_default environmental_conditions "wind_speed" 5 in
      let solar_input :=
        max_solar_capacity self * solar_efficiency self *
        solar_model self t temp in
      let wind_input :=
        max_wind_capacity self * wind_efficiency self *
        wind_model self t wind_speed in
      let total_demand := total_demand_at t in
      solar_load <-- py_div solar_gen (max_solar_capacity self) ;;
      wind_load <-- py_div wind_gen (max_wind_capacity self) ;;
      Ok [ solar_input * (1 - solar_load) - solar_gen;
           wind_input * (1 - wind_load) - wind_gen;
           (solar_gen + wind_gen - total_demand) *
           (if Qlt_bool battery_stored (battery_capacity self)
            then 9 # 10 else 0);
           Qmin (Qmax (total_demand - (solar_gen + wind_gen + battery_stored)) 0)
                (grid_connection_limit self) ]
  | _ => Raise ValueError
  end.

(** [env_conditions] of [simulate_with_multiple_methods] *)
Definition env_conditions : dict Q :=
  [("temperature"%string, 20); ("wind_speed"%string, 5)].

(** The closure [system_wrapper].  The integrators above take the
    derivative as a total function; where [system_dynamics] raises (a
    state that is not of dimension 4, a capacity equal to 0) the call of
    the integrator would end there, and the value given here stands for
    no value of the program.  The theorems on the simulation show that
    every evaluation the integrators make is one where [system_dynamics]
    returns. *)
Definition system_wrapper (self : params) (x : vec) (t : Q) : vec :=
  match system_dynamics self x t env_conditions with
  | Ok v => v
  | Raise _ => []
  end.

Definition simulate_with_multiple_methods (self : params) (T dt : Q)
  : M (dict (list Q * list vec)) :=
  let X0 := [10; 10; 50; 0] in
  let results := [] in
  r <- adams_bashforth_2 (system_wrapper self) X0 0 T dt ;;
  let results := dict_set results "Adams-Bashforth 2" r in
  r <- adams_bashforth_4 (system_wrapper self) X0 0 T dt ;;
  let results := dict_set results "Adams-Bashforth 4" r in
  r <- adams_moulton_2 (system_wrapper self) hybr X0 0 T dt ;;
  let results := dict_set results "Adams-Moulton 2" r in
  r <- custom_dirk_method (system_wrapper self) hybr X0 0 T dt ;;
  let results := dict_set results "DIRK" r in
  ret results.

End Model.

(** ** Specification vocabulary

    The formulas below follow the wording of the specification; the
    theorems compare them with what the integrators above compute. *)

(** [floor((tf - t0)/h) + 1] *)
Definition grid_len (t0 tf h : Q) : Z := (Qfloor ((tf - t0) / h) + 1)%Z.

(** The rounding sends no non-negative number below zero. *)
Definition keeps_sign (R : Rounding) : Prop := forall q, 0 <= q -> 0 <= fl q.

(** The number of grid points the code computes:
    [int((tf - t0) / h) + 1] on rounded operations. *)
Definition num_steps {R : Rounding} (t0 tf h : Q) : Z :=
  (py_int (fl (fl (tf - t0) / h)) + 1)%Z.

(** The derivative has the dimension of the state. *)
Definition shape_preserving (d : nat) (f : vec -> Q -> vec) : Prop :=
  forall x t, length x = d -> length (f x t) = d.

Definition rows_len (d : nat) (a : list vec) : Prop :=
  Forall (fun r => length r = d) a.

(** Componentwise equality of rationals. *)
Definition veq : vec -> vec -> Prop := Forall2 Qeq.

(** The grid before its last point is overwritten. *)
Definition linspace_raw (start stop : Q) (num : Z) : list Q :=
  map (fun v => v + start)
    (map (fun v => v * ((stop - start) / inject_Z (num - 1)))
       (map (fun i : nat => inject_Z (Z.of_nat i)) (seq 0 (Z.to_nat num)))).

(** Consecutive grid points differ by [h]. *)
Definition spaced_by (h : Q) (tp : list Q) : Prop :=
  forall i a b, tp !! i = Some a -> tp !! S i = Some b -> b - a == h.

(** The call returned normally and its time grid satisfies [P]. *)
Definition returns_grid {T} (r : result (list Q * list vec * T))
  (P : list Q -> Prop) : Prop :=
  exists tp sol tr, r = Ok (tp, sol, tr) /\ P tp.

(** The call returned normally and its grid and trajectory satisfy [P]. *)
Definition returns_with {T} (r : result (list Q * list vec * T))
  (P : list Q -> list vec -> Prop) : Prop :=
  exists tp sol tr, r = Ok (tp, sol, tr) /\ P tp sol.

(** [x0 + c*(t - t0)], the solution of [x' = c] through [(t0, x0)]. *)
Definition exact_line (x0 c : vec) (t0 t : Q) : vec :=
  vadd x0 (vscale (t - t0) c).

(** [m] is the largest elementwise absolute difference of two
    two-dimensional arrays: no [|a[i][j] - b[i][j]|] exceeds it and one of
    them equals it. *)
Definition largest_abs_difference (m : Q) (a b : list vec) : Prop :=
  (forall i j ra rb x y,
     a !! i = Some ra -> b !! i = Some rb ->
     ra !! j = Some x -> rb !! j = Some y -> Qabs (x - y) <= m) /\
  (exists i j ra rb x y,
     a !! i = Some ra /\ b !! i = Some rb /\
     ra !! j = Some x /\ rb !! j = Some y /\ m = Qabs (x - y)).

(** [x + h*f(x, t)] *)
Definition euler_step (f : vec -> Q -> vec) (h : Q) (x : vec) (t : Q) : vec :=
  vadd x (vscale h (f x t)).

(** [x1 + h*(1.5*f(x1, t1) - 0.5*f(x2, t2))] *)
Definition ab2_formula (f : vec -> Q -> vec) (h : Q) (x1 : vec) (t1 : Q)
  (x2 : vec) (t2 : Q) : vec :=
  vadd x1 (vscale h (vsub (vscale (3 # 2) (f x1 t1)) (vscale (1 # 2) (f x2 t2)))).

(** One classical Runge-Kutta step of size [h] from [(x, t)]. *)
Definition rk4_step (f : vec -> Q -> vec) (h : Q) (x : vec) (t : Q) : vec :=
  let k1 := f x t in
  let k2 := f (vadd x (vscale ((1 # 2) * h) k1)) (t + (1 # 2) * h) in
  let k3 := f (vadd x (vscale ((1 # 2) * h) k2)) (t + (1 # 2) * h) in
  let k4 := f (vadd x (vscale h k3)) (t + h) in
  vadd x (vdiv (vscale h (vadd (vadd (vadd k1 (vscale 2 k2)) (vscale 2 k3)) k4)) 6).

(** [x1 + h*(55/24*k1 - 59/24*k2 + 37/24*k3 - 9/24*k4)] *)
Definition ab4_formula (h : Q) (x1 k1 k2 k3 k4 : vec) : vec :=
  vadd x1 (vscale h
    (vsub (vadd (vsub (vscale (55 / 24) k1) (vscale (59 / 24) k2))
                (vscale (37 / 24) k3))
          (vscale (9 / 24) k4))).

(** The solver neither raises nor changes the dimension, and stops with
    one of the statuses 1 to 5 that [fsolve] lets through, as long as the
    residual it is given keeps the dimension [d]. *)
Inductive well_shaped (d : nat) : solver -> Prop :=
| ws_return y ier :
    length y = d -> (1 <= ier <= 5)%Z -> well_shaped d (Return y ier)
| ws_query x k :
    length x = d ->
    (forall r, length r = d -> well_shaped d (k r)) ->
    well_shaped d (Query x k).

Definition solver_shape (hybr : vec -> solver) : Prop :=
  forall y0, well_shaped (length y0) (hybr y0).

(** What a solver answers to a residual given as a pure function. *)
Fixpoint answer (s : solver) (g : vec -> vec) : result (vec * Z) :=
  match s with
  | Return y ier => Ok (y, ier)
  | Query x k => answer (k (g x)) g
  | Abort e => Raise e
  end.

(** The closure [func] evaluates the pure residual [g] on vectors of
    dimension [d], whatever has been traced before. *)
Definition computes (d : nat) (func : vec -> M vec) (g : vec -> vec) : Prop :=
  forall x tr, length x = d -> exists tr', func x tr = Ok (g x, tr').

(** The iterate the solver stops at, from guess [y0] on residual [g]. *)
Definition iterate_of (hybr : vec -> solver) (g : vec -> vec) (y0 : vec) : vec :=
  match answer (hybr y0) g with
  | Ok (y, _) => y
  | Raise _ => []
  end.

(** [x_next - (x1 + h*(0.5*f(x_next, t) + 0.5*f(x1, t1)))] *)
Definition am2_residual (f : vec -> Q -> vec) (h : Q) (x1 : vec) (t1 t : Q)
  (x_next : vec) : vec :=
  vsub x_next
    (vadd x1 (vscale h (vadd (vscale (1 # 2) (f x_next t))
                             (vscale (1 # 2) (f x1 t1))))).

(** [f(x1 + h*gamma*k1, t1 + h*gamma) - k1] *)
Definition dirk_stage_residual (f : vec -> Q -> vec) (h : Q) (x1 : vec)
  (t1 : Q) (k1 : vec) : vec :=
  vsub (f (vadd x1 (vscale (h * gamma) k1)) (t1 + h * gamma)) k1.

(** The stage derivative: the solver's iterate for the stage equation,
    started from [f(x1, t1)]. *)
Definition dirk_k1 (f : vec -> Q -> vec) (hybr : vec -> solver) (h : Q)
  (x1 : vec) (t1 : Q) : vec :=
  iterate_of hybr (dirk_stage_residual f h x1 t1) (f x1 t1).

(** [x1 + h*k1 - x_next] *)
Definition dirk_outer_residual (f : vec -> Q -> vec) (hybr : vec -> solver)
  (h : Q) (x1 : vec) (t1 : Q) (x_next : vec) : vec :=
  vsub (vadd x1 (vscale h (dirk_k1 f hybr h x1 t1))) x_next.

(** The solver finds the root of a residual of the form [c - x]. *)
Definition exact_on_shifts (hybr : vec -> solver) : Prop :=
  forall (y0 c : vec) (g : vec -> vec),
    length c = length y0 ->
    (forall x, length x = length y0 -> g x = vsub c x) ->
    veq (iterate_of hybr g y0) c.

(** The solver finds the root of a residual of the form [x - c]. *)
Definition exact_on_offsets (hybr : vec -> solver) : Prop :=
  forall (y0 c : vec) (g : vec -> vec),
    length c = length y0 ->
    (forall x, length x = length y0 -> g x = vsub x c) ->
    veq (iterate_of hybr g y0) c.

(** [tf - t0] is [h] times the number of steps: the grid that
    [np.linspace] spreads over [[t0, tf]] then is spaced by [h]. *)
Definition commensurate (t0 tf h : Q) : Prop :=
  tf - t0 == inject_Z (grid_len t0 tf h - 1) * h.

(** Step relations: row [i] of a trajectory is [x], given the rows and
    grid times before it. *)
Definition ab2_step (f : vec -> Q -> vec) (tp : list Q) (h : Q) (i : nat)
  (sol : list vec) (x : vec) : Prop :=
  exists s1 s2 t1 t2,
    sol !! (i - 1)%nat = Some s1 /\ sol !! (i - 2)%nat = Some s2 /\
    tp !! (i - 1)%nat = Some t1 /\ tp !! (i - 2)%nat = Some t2 /\
    x = ab2_formula f h s1 t1 s2 t2.

Definition rk4_row (f : vec -> Q -> vec) (tp : list Q) (h : Q) (i : nat)
  (sol : list vec) (x : vec) : Prop :=
  exists s1 t1,
    sol !! (i - 1)%nat = Some s1 /\ tp !! (i - 1)%nat = Some t1 /\
    x = rk4_step f h s1 t1.

Definition ab4_step (f : vec -> Q -> vec) (tp : list Q) (h : Q) (i : nat)
  (sol : list vec) (x : vec) : Prop :=
  exists s1 s2 s3 s4 t1 t2 t3 t4,
    sol !! (i - 1)%nat = Some s1 /\ sol !! (i - 2)%nat = Some s2 /\
    sol !! (i - 3)%nat = Some s3 /\ sol !! (i - 4)%nat = Some s4 /\
    tp !! (i - 1)%nat = Some t1 /\ tp !! (i - 2)%nat = Some t2 /\
    tp !! (i - 3)%nat = Some t3 /\ tp !! (i - 4)%nat = Some t4 /\
    x = ab4_formula h s1 (f s1 t1) (f s2 t2) (f s3 t3) (f s4 t4).

Definition am2_step (f : vec -> Q -> vec) (hybr : vec -> solver)
  (tp : list Q) (h : Q) (i : nat) (sol : list vec) (x : vec) : Prop :=
  exists s1 t1 t ier,
    sol !! (i - 1)%nat = Some s1 /\ tp !! (i - 1)%nat = Some t1 /\
    tp !! i = Some t /\
    answer (hybr s1) (am2_residual f h s1 t1 t) = Ok (x, ier).

Definition dirk_step (f : vec -> Q -> vec) (hybr : vec -> solver)
  (tp : list Q) (h : Q) (i : nat) (sol : list vec) (x : vec) : Prop :=
  exists s1 t1 ier,
    sol !! (i - 1)%nat = Some s1 /\ tp !! (i - 1)%nat = Some t1 /\
    answer (hybr s1) (dirk_outer_residual f hybr h s1 t1) = Ok (x, ier).

(** ** Evaluation traces *)

(** If the event is an evaluation of [f], it is at a state of dimension
    [d]. *)
Definition at_dimension (d : nat) (e : event) : Prop :=
  match e with
  | Call x _ => length x = d
  | Warn _ => True
  end.

(** An evaluation of [f] at a point of the trajectory and its grid time. *)
Definition at_grid_point (tp : list Q) (sol : list vec) (e : event) : Prop :=
  match e with
  | Call x t => exists j t', sol !! j = Some x /\ tp !! j = Some t' /\ t' == t
  | Warn _ => False
  end.

(** If the event is an evaluation at [(x, t)], the fallible function [g]
    returns normally there. *)
Definition returns_at {A} (g : vec -> Q -> result A) (e : event) : Prop :=
  match e with
  | Call x t => exists v, g x t = Ok v
  | Warn _ => True
  end.

(** An evaluation of [f] at one of the first [i] points of the
    trajectory and its grid time. *)
Definition at_grid_point_before (tp : list Q) (sol : list vec) (i : nat)
  (e : event) : Prop :=
  match e with
  | Call x t => exists j, (j < i)%nat /\ sol !! j = Some x /\ tp !! j = Some t
  | Warn _ => False
  end.

(** The closure [func] computes the pure residual [g] on vectors of
    dimension [d] and evaluates [f] at states of that dimension only. *)
Definition evaluates (d : nat) (func : vec -> M vec) (g : vec -> vec) : Prop :=
  forall x tr, length x = d ->
    exists ev, func x tr = Ok (g x, tr ++ ev) /\ Forall (at_dimension d) ev.

(** What one call of [fsolve] that ends with status [ier] leaves in the
    trace: evaluations at dimension [d], and a [RuntimeWarning] unless
    the status is 1. *)
Definition solve_events (d : nat) (ier : Z) (ev : trace) : Prop :=
  Forall (at_dimension d) ev /\
  (ier <> 1%Z -> In (Warn RuntimeWarning) ev).

(** Step [i] of [adams_moulton_2]: row [i] is the iterate [x] the solver
    stops at on the corrector residual, started from the previous point,
    with a status [ier] from 1 to 5, and [ev] is what the solve leaves in
    the trace. *)
Definition am2_solve (f : vec -> Q -> vec) (hybr : vec -> solver) (d : nat)
  (tp : list Q) (h : Q) (i : nat) (sol : list vec) (x : vec) (ev : trace)
  : Prop :=
  exists s1 t1 t ier,
    sol !! (i - 1)%nat = Some s1 /\ tp !! (i - 1)%nat = Some t1 /\
    tp !! i = Some t /\
    answer (hybr s1) (am2_residual f h s1 t1 t) = Ok (x, ier) /\
    (1 <= ier <= 5)%Z /\ solve_events d ier ev.

(** Step [i] of [custom_dirk_method], likewise, on the outer residual. *)
Definition dirk_solve (f : vec -> Q -> vec) (hybr : vec -> solver) (d : nat)
  (tp : list Q) (h : Q) (i : nat) (sol : list vec) (x : vec) (ev : trace)
  : Prop :=
  exists s1 t1 ier,
    sol !! (i - 1)%nat = Some s1 /\ tp !! (i - 1)%nat = Some t1 /\
    answer (hybr s1) (dirk_outer_residual f hybr h s1 t1) = Ok (x, ier) /\
    (1 <= ier <= 5)%Z /\ solve_events d ier ev.

(** ** Example inputs *)

(** [f(x, t) = [1]] and [f(x, t) = -x]. *)
Definition f_const1 : vec -> Q -> vec := fun _ _ => [1].
Definition f_decay : vec -> Q -> vec := fun x _ => map Qopp x.

(** A solver that takes one secant step in every component: it evaluates
    the residual at the guess and at the guess shifted by 1. *)
Definition secant (y0 : vec) : solver :=
  Query y0 (fun r0 =>
    Query (map (Qplus 1) y0) (fun r1 =>
      Return (vsub y0 (zip_with (fun a b => a / (b - a)) r0 r1)) 1)).

(** A solver that evaluates the residual once, gives up and hands its
    guess back with a status other than 1. *)
Definition stall (y0 : vec) : solver := Query y0 (fun _ => Return y0 5).

(** Two methods on a two-point grid, states of dimension 2. *)
Definition ex_results : dict (list Q * list vec) :=
  [("Adams-Bashforth 2"%string, ([0; 1], [[1; 2]; [3; -4]]));
   ("DIRK"%string, ([0; 1], [[1; 0]; [0; 1]]))].

(** A method whose trajectory is the reference's own. *)
Definition ex_results_same : dict (list Q * list vec) :=
  [("Adams-Moulton 2"%string, ([0; 1], [[1; 0]; [0; 1]]));
   ("DIRK"%string, ([0; 1], [[1; 0]; [0; 1]]))].

(** A method on a three-point grid beside a reference on two points. *)
Definition ex_results_ragged : dict (list Q * list vec) :=
  [("Adams-Bashforth 2"%string, ([0; 1; 2], [[1]; [2]; [3]]));
   ("DIRK"%string, ([0; 1], [[1]; [2]]))].

(** A derivative of dimension 3, whatever the state is. *)
Definition f_three : vec -> Q -> vec := fun _ _ => [1; 2; 3].

(** Stand-ins for [np.sin] and [np.cos]: their values at 0. *)
Definition sin0 : Q -> Q := fun _ => 0.
Definition cos1 : Q -> Q := fun _ => 1.

(** * Properties *)

(** ** The monad *)

Lemma bind_Ok {A B} (m : M A) (k : A -> M B) tr a tr' :
  m tr = Ok (a, tr') -> bind m k tr = k a tr'.
Proof. intros H. unfold bind. now rewrite H. Qed.

Lemma lift_Ok {A} (r : result A) a tr : r = Ok a -> lift r tr = Ok (a, tr).
Proof. intros ->. reflexivity. Qed.

Lemma bind_lift_Ok {A B} (r : result A) (k : A -> M B) tr a :
  r = Ok a -> bind (lift r) k tr = k a tr.
Proof. intros ->. reflexivity. Qed.

Lemma bind_call_f {B} f x t (k : vec -> M B) tr :
  bind (call_f f x t) k tr = k (f x t) (tr ++ [Call x t]).
Proof. reflexivity. Qed.

Lemma bind_ret {A B} (a : A) (k : A -> M B) tr : bind (ret a) k tr = k a tr.
Proof. reflexivity. Qed.

(** ** Primitives *)

Lemma getitem_Ok {A} (l : list A) i x : l !! i = Some x -> getitem l i = Ok x.
Proof. intros H. unfold getitem. now rewrite H. Qed.

Lemma broadcast2_same {A B C} (op : A -> B -> C) a b :
  length a = length b -> broadcast2 op a b = Ok (zip_with op a b).
Proof.
  intros H. unfold broadcast2.
  now rewrite (proj2 (Nat.eqb_eq _ _) H).
Qed.

Lemma np_add_Ok a b : length a = length b -> np_add a b = Ok (vadd a b).
Proof. apply broadcast2_same. Qed.

Lemma np_sub_Ok a b : length a = length b -> np_sub a b = Ok (vsub a b).
Proof. apply broadcast2_same. Qed.

Lemma length_vadd a b : length a = length b -> length (vadd a b) = length a.
Proof. intros H. unfold vadd. rewrite length_zip_with. lia. Qed.

Lemma length_vsub a b : length a = length b -> length (vsub a b) = length a.
Proof. intros H. unfold vsub. rewrite length_zip_with. lia. Qed.

Lemma length_vscale c v : length (vscale c v) = length v.
Proof. apply length_map. Qed.

Lemma length_vdiv v c : length (vdiv v c) = length v.
Proof. apply length_map. Qed.

Lemma set_row_Ok (d : nat) (a : list vec) i v :
  rows_len d a -> (i < length a)%nat -> length v = d ->
  set_row a i v = Ok (<[i:=v]> a).
Proof.
  intros Ha Hi Hv. unfold set_row.
  destruct (a !! i) as [row|] eqn:Hrow;
    [|apply lookup_ge_None_1 in Hrow; lia].
  assert (length row = d) as Hr by exact (Forall_lookup_1 _ _ _ _ Ha Hrow).
  assert (length v = length row) as E by congruence.
  now rewrite (proj2 (Nat.eqb_eq _ _) E).
Qed.

Lemma rows_len_insert d (a : list vec) i v :
  rows_len d a -> length v = d -> rows_len d (<[i:=v]> a).
Proof. intros Ha Hv. now apply Forall_insert. Qed.

Lemma rows_len_zeros n d : rows_len d (np_zeros n d).
Proof.
  unfold rows_len, np_zeros. apply Forall_replicate, length_replicate.
Qed.

Lemma length_zeros n d : length (np_zeros n d) = n.
Proof. apply length_replicate. Qed.

(** Dimension bookkeeping for vector expressions. *)
Ltac vlen :=
  repeat first
    [ rewrite length_vscale | rewrite length_vdiv
    | rewrite length_vadd by vlen | rewrite length_vsub by vlen ];
  first [ assumption | congruence | lia ].

(** One statement of an integrator body whose outcome is known. *)
Ltac mstep :=
  first
    [ rewrite bind_call_f
    | rewrite bind_ret
    | erewrite bind_lift_Ok by
        first [ apply getitem_Ok; eassumption
              | apply np_add_Ok; vlen
              | apply np_sub_Ok; vlen ] ].

(** ** Loops that fill the trajectory row by row *)

Section FillLoop.

Variables (d n b : nat).
Variable body : nat -> list vec -> M (list vec).
Variable step : nat -> list vec -> vec -> Prop.

Hypothesis body_spec : forall i sol tr,
  length sol = n -> rows_len d sol -> (b <= i < n)%nat ->
  exists x tr', body i sol tr = Ok (<[i:=x]> sol, tr') /\
                length x = d /\ step i sol x.

Hypothesis step_frame : forall i sol sol' x,
  (b <= i)%nat -> (forall j, (j < i)%nat -> sol' !! j = sol !! j) ->
  step i sol x -> step i sol' x.

Lemma for_each_fill : forall k lo sol tr,
  (b <= lo)%nat -> (lo + k <= n)%nat -> length sol = n -> rows_len d sol ->
  exists sol' tr',
    for_each (seq lo k) body sol tr = Ok (sol', tr') /\
    length sol' = n /\ rows_len d sol' /\
    (forall j, (j < lo)%nat -> sol' !! j = sol !! j) /\
    (forall j, (lo + k <= j)%nat -> sol' !! j = sol !! j) /\
    (forall i, (lo <= i < lo + k)%nat ->
               exists x, sol' !! i = Some x /\ step i sol' x).
Proof.
  induction k as [|k IH]; intros lo sol tr Hb Hk Hlen Hrows.
  - exists sol, tr. cbn. repeat split; auto. intros i Hi. lia.
  - destruct (body_spec lo sol tr Hlen Hrows) as (x & tr1 & Hbody & Hx & Hstep);
      [lia|].
    destruct (IH (S lo) (<[lo:=x]> sol) tr1) as
      (sol' & tr' & Hrun & Hlen' & Hrows' & Hlow & Hhigh & Hsteps);
      [lia | lia | now rewrite length_insert | now apply rows_len_insert |].
    exists sol', tr'. cbn [seq for_each]. rewrite (bind_Ok _ _ _ _ _ Hbody).
    split; [exact Hrun|]. split; [exact Hlen'|]. split; [exact Hrows'|].
    split; [|split].
    + intros j Hj. rewrite Hlow by lia. apply list_lookup_insert_ne. lia.
    + intros j Hj. rewrite Hhigh by lia. apply list_lookup_insert_ne. lia.
    + intros i Hi. destruct (Nat.eq_dec i lo) as [->|Hne].
      * exists x. split.
        -- rewrite Hlow by lia. apply list_lookup_insert_eq. lia.
        -- apply step_frame with (sol := sol); [lia | | exact Hstep].
           intros j Hj. rewrite Hlow by lia.
           apply list_lookup_insert_ne. lia.
      * apply Hsteps. lia.
Qed.

Lemma for_range_fill lo hi sol tr :
  (b <= lo)%nat -> (hi <= n)%nat -> length sol = n -> rows_len d sol ->
  exists sol' tr',
    for_range lo hi body sol tr = Ok (sol', tr') /\
    length sol' = n /\ rows_len d sol' /\
    (forall j, (j < lo)%nat -> sol' !! j = sol !! j) /\
    (forall j, (hi <= j)%nat -> sol' !! j = sol !! j) /\
    (forall i, (lo <= i < hi)%nat ->
               exists x, sol' !! i = Some x /\ step i sol' x).
Proof.
  intros Hb Hhi Hlen Hrows. unfold for_range.
  destruct (Nat.le_gt_cases lo hi) as [Hle|Hgt].
  - destruct (for_each_fill (hi - lo) lo sol tr) as
      (sol' & tr' & Hrun & Hlen' & Hrows' & Hlow & Hhigh & Hsteps);
      [lia | lia | assumption | assumption |].
    exists sol', tr'. repeat split; auto.
    + intros j Hj. apply Hhigh. lia.
    + intros i Hi. apply Hsteps. lia.
  - replace (hi - lo)%nat with 0%nat by lia.
    exists sol, tr. cbn. repeat split; auto. intros i Hi. lia.
Qed.

End FillLoop.

(** ** The number of steps and the time grid *)

Lemma py_int_floor q : 0 <= q -> py_int q = Qfloor q.
Proof.
  destruct q as [n dn]. unfold Qle, py_int, Qfloor. cbn. intros H.
  apply Z.quot_div_nonneg; lia.
Qed.

Lemma quotient_nonneg t0 tf h : t0 <= tf -> 0 < h -> 0 <= (tf - t0) / h.
Proof.
  intros Ht Hh. apply Qle_shift_div_l; [exact Hh|]. lra.
Qed.

Lemma grid_len_pos t0 tf h : t0 <= tf -> 0 < h -> (1 <= grid_len t0 tf h)%Z.
Proof.
  intros Ht Hh. unfold grid_len.
  pose proof (Qfloor_resp_le _ _ (quotient_nonneg t0 tf h Ht Hh)) as H.
  change (Qfloor 0) with 0%Z in H. lia.
Qed.

Lemma grid_len_one t0 tf h : tf == t0 -> 0 < h -> grid_len t0 tf h = 1%Z.
Proof.
  intros Ht Hh. unfold grid_len.
  assert ((tf - t0) / h == 0) as E by (rewrite Ht; field; lra).
  rewrite E. reflexivity.
Qed.

Lemma num_steps_of_valid t0 tf h tr :
  t0 <= tf -> 0 < h -> num_steps_of t0 tf h tr = Ok (grid_len t0 tf h, tr).
Proof.
  intros Ht Hh. unfold num_steps_of, py_div.
  destruct (Qeq_bool h 0) eqn:E.
  - apply Qeq_bool_eq in E. lra.
  - cbn. unfold ret, grid_len.
    now rewrite (py_int_floor _ (quotient_nonneg t0 tf h Ht Hh)).
Qed.

Lemma linspace_one start stop :
  linspace start stop 1 = Ok [0 * (stop - start) + start].
Proof. reflexivity. Qed.

Lemma linspace_many start stop num :
  (1 < num)%Z ->
  linspace start stop num =
  Ok (<[(Z.to_nat num - 1)%nat:=stop]> (linspace_raw start stop num)).
Proof.
  intros H. unfold linspace, linspace_raw.
  destruct (num <? 0)%Z eqn:E1; [lia|].
  destruct (0 <? num - 1)%Z eqn:E2; [|lia].
  destruct (1 <? num)%Z eqn:E3; [|lia].
  reflexivity.
Qed.

Lemma length_linspace_raw start stop num :
  length (linspace_raw start stop num) = Z.to_nat num.
Proof. unfold linspace_raw. now rewrite !length_map, length_seq. Qed.

Lemma lookup_linspace_raw start stop num (i : nat) :
  (i < Z.to_nat num)%nat ->
  linspace_raw start stop num !! i =
  Some (inject_Z (Z.of_nat i) * ((stop - start) / inject_Z (num - 1)) + start).
Proof.
  intros Hi. unfold linspace_raw. rewrite !list_lookup_fmap.
  rewrite lookup_seq_lt by exact Hi. reflexivity.
Qed.

Lemma linspace_length start stop num tp :
  (1 <= num)%Z -> linspace start stop num = Ok tp -> length tp = Z.to_nat num.
Proof.
  intros Hn H. destruct (Z.eq_dec num 1%Z) as [->|Hne].
  - rewrite linspace_one in H. now inversion H.
  - rewrite linspace_many in H by lia. inversion H.
    now rewrite length_insert, length_linspace_raw.
Qed.

Lemma linspace_total start stop num :
  (1 <= num)%Z -> exists tp, linspace start stop num = Ok tp.
Proof.
  intros Hn. destruct (Z.eq_dec num 1%Z) as [->|Hne].
  - eexists. apply linspace_one.
  - eexists. apply linspace_many. lia.
Qed.

(** ** adams_bashforth_2 *)

Lemma ab2_body_spec f d n tp h :
  shape_preserving d f -> length tp = n ->
  forall i sol tr,
    length sol = n -> rows_len d sol -> (2 <= i < n)%nat ->
    exists x tr', ab2_body f tp h i sol tr = Ok (<[i:=x]> sol, tr') /\
                  length x = d /\ ab2_step f tp h i sol x.
Proof.
  intros Hf Htp i sol tr Hlen Hrows Hi.
  destruct (lookup_lt_is_Some_2 tp i) as [t Ht]; [lia|].
  destruct (lookup_lt_is_Some_2 tp (i - 1)) as [t1 Ht1]; [lia|].
  destruct (lookup_lt_is_Some_2 tp (i - 2)) as [t2 Ht2]; [lia|].
  destruct (lookup_lt_is_Some_2 sol (i - 1)) as [s1 Hs1]; [lia|].
  destruct (lookup_lt_is_Some_2 sol (i - 2)) as [s2 Hs2]; [lia|].
  pose proof (Forall_lookup_1 _ _ _ _ Hrows Hs1) as L1.
  pose proof (Forall_lookup_1 _ _ _ _ Hrows Hs2) as L2.
  cbn beta in L1, L2.
  pose proof (Hf s1 t1 L1) as F1. pose proof (Hf s2 t2 L2) as F2.
  exists (ab2_formula f h s1 t1 s2 t2). eexists.
  split; [|split].
  - unfold ab2_body. repeat mstep.
    apply lift_Ok. eapply set_row_Ok; [exact Hrows | lia |].
    unfold ab2_formula. vlen.
  - unfold ab2_formula. vlen.
  - exists s1, s2, t1, t2. auto.
Qed.

Lemma ab2_step_frame f tp h i sol sol' x :
  (2 <= i)%nat -> (forall j, (j < i)%nat -> sol' !! j = sol !! j) ->
  ab2_step f tp h i sol x -> ab2_step f tp h i sol' x.
Proof.
  intros Hi Hsame (s1 & s2 & t1 & t2 & H1 & H2 & H3 & H4 & ->).
  exists s1, s2, t1, t2. rewrite !Hsame by lia. auto.
Qed.

(** The first statements shared by the four integrators. *)
Lemma first_row n (x0 : vec) :
  (1 <= n)%nat ->
  set_row (np_zeros n (length x0)) 0 x0 = Ok (<[0%nat:=x0]> (np_zeros n (length x0))).
Proof.
  intros Hn. apply set_row_Ok with (d := length x0);
    [apply rows_len_zeros | rewrite length_zeros; lia | reflexivity].
Qed.

Lemma ab2_run f x0 t0 tf h tr :
  t0 <= tf -> 0 < h -> shape_preserving (length x0) f ->
  exists tp sol tr',
    adams_bashforth_2 f x0 t0 tf h tr = Ok (tp, sol, tr') /\
    linspace t0 tf (grid_len t0 tf h) = Ok tp /\
    length sol = Z.to_nat (grid_len t0 tf h) /\
    rows_len (length x0) sol /\
    sol !! 0%nat = Some x0 /\
    ((1 < length sol)%nat -> sol !! 1%nat = Some (euler_step f h x0 t0)) /\
    (forall i, (2 <= i < length sol)%nat ->
               exists x, sol !! i = Some x /\ ab2_step f tp h i sol x).
Proof.
  intros Ht Hh Hf.
  pose proof (grid_len_pos t0 tf h Ht Hh) as HN.
  destruct (linspace_total t0 tf _ HN) as [tp Htp].
  pose proof (linspace_length _ _ _ _ HN Htp) as Ltp.
  set (N := grid_len t0 tf h) in *. set (n := Z.to_nat N) in *.
  assert (1 <= n)%nat as Hn by lia.
  set (sol0 := <[0%nat:=x0]> (np_zeros n (length x0))).
  assert (length sol0 = n) as L0
    by (unfold sol0; now rewrite length_insert, length_zeros).
  assert (rows_len (length x0) sol0) as R0
    by (apply rows_len_insert; [apply rows_len_zeros | reflexivity]).
  assert (sol0 !! 0%nat = Some x0) as Z0
    by (apply list_lookup_insert_eq; rewrite length_zeros; lia).
  unfold adams_bashforth_2.
  rewrite (bind_Ok _ _ _ _ _ (num_steps_of_valid t0 tf h tr Ht Hh)).
  fold N. rewrite (bind_lift_Ok _ _ _ _ Htp). fold n.
  rewrite (bind_lift_Ok _ _ _ _ (first_row n x0 Hn)). fold sol0.
  destruct (1 <? N)%Z eqn:E.
  - apply Z.ltb_lt in E.
    pose proof (Hf x0 t0 eq_refl) as F0.
    set (sol1 := <[1%nat:=euler_step f h x0 t0]> sol0).
    assert (length (euler_step f h x0 t0) = length x0) as Le
      by (unfold euler_step; vlen).
    assert (length sol1 = n) as L1 by (unfold sol1; now rewrite length_insert).
    assert (rows_len (length x0) sol1) as R1
      by (now apply rows_len_insert).
    destruct (for_range_fill (length x0) n 2 (ab2_body f tp h)
                (ab2_step f tp h)
                (ab2_body_spec f (length x0) n tp h Hf Ltp)
                (ab2_step_frame f tp h) 2 n sol1 (tr ++ [Call x0 t0]))
      as (sol & tr' & Hrun & Hlen & Hrows & Hlow & _ & Hsteps);
      [lia | lia | exact L1 | exact R1 |].
    exists tp, sol, tr'. unfold bind at 1. rewrite bind_call_f.
    erewrite bind_lift_Ok by (apply np_add_Ok; vlen).
    erewrite bind_lift_Ok by
      (apply set_row_Ok with (d := length x0); [exact R0 | lia | exact Le]).
    fold (euler_step f h x0 t0). fold sol1.
    rewrite Hrun. cbn [ret].
    repeat split; auto.
    + rewrite Hlow by lia. unfold sol1.
      rewrite list_lookup_insert_ne by lia. exact Z0.
    + intros _. rewrite Hlow by lia. unfold sol1.
      apply list_lookup_insert_eq. lia.
    + intros i Hi. apply Hsteps. lia.
  - apply Z.ltb_ge in E. exists tp, sol0, tr. rewrite bind_ret.
    repeat split; auto.
    + intros H. lia.
    + intros i Hi. lia.
Qed.

(** ** adams_bashforth_4 *)

Lemma ab4_rk4_body_spec f d n tp h :
  shape_preserving d f -> length tp = n ->
  forall i sol tr,
    length sol = n -> rows_len d sol -> (1 <= i < n)%nat ->
    exists x tr', ab4_rk4_body f tp h i sol tr = Ok (<[i:=x]> sol, tr') /\
                  length x = d /\ rk4_row f tp h i sol x.
Proof.
  intros Hf Htp i sol tr Hlen Hrows Hi.
  destruct (lookup_lt_is_Some_2 tp (i - 1)) as [t Ht]; [lia|].
  destruct (lookup_lt_is_Some_2 sol (i - 1)) as [s1 Hs1]; [lia|].
  pose proof (Forall_lookup_1 _ _ _ _ Hrows Hs1) as L1. cbn beta in L1.
  set (k1 := f s1 t).
  set (a2 := vadd s1 (vscale ((1 # 2) * h) k1)).
  set (k2 := f a2 (t + (1 # 2) * h)).
  set (a3 := vadd s1 (vscale ((1 # 2) * h) k2)).
  set (k3 := f a3 (t + (1 # 2) * h)).
  set (a4 := vadd s1 (vscale h k3)).
  set (k4 := f a4 (t + h)).
  assert (length k1 = d) as F1 by (apply Hf; exact L1).
  assert (length a2 = d) as A2 by (unfold a2; vlen).
  assert (length k2 = d) as F2 by (apply Hf; exact A2).
  assert (length a3 = d) as A3 by (unfold a3; vlen).
  assert (length k3 = d) as F3 by (apply Hf; exact A3).
  assert (length a4 = d) as A4 by (unfold a4; vlen).
  assert (length k4 = d) as F4 by (apply Hf; exact A4).
  assert (length (rk4_step f h s1 t) = d) as Lx
    by (unfold rk4_step; fold k1 a2 k2 a3 k3 a4 k4; vlen).
  exists (rk4_step f h s1 t). eexists. split; [|split].
  - unfold ab4_rk4_body.
    mstep. mstep. mstep. fold k1.
    mstep. mstep. fold a2. mstep. fold k2.
    mstep. mstep. fold a3. mstep. fold k3.
    mstep. mstep. fold a4. mstep. fold k4.
    repeat mstep.
    apply lift_Ok. eapply set_row_Ok; [exact Hrows | lia | exact Lx].
  - exact Lx.
  - exists s1, t. auto.
Qed.

Lemma rk4_row_frame f tp h i sol sol' x :
  (1 <= i)%nat -> (forall j, (j < i)%nat -> sol' !! j = sol !! j) ->
  rk4_row f tp h i sol x -> rk4_row f tp h i sol' x.
Proof.
  intros Hi Hsame (s1 & t1 & H1 & H2 & ->).
  exists s1, t1. rewrite Hsame by lia. auto.
Qed.

Lemma bind_ab4_k {B} f tp i sol j s t (k : vec -> M B) tr :
  sol !! (i - j)%nat = Some s -> tp !! (i - j)%nat = Some t ->
  bind (ab4_k f tp i sol j) k tr = k (f s t) (tr ++ [Call s t]).
Proof.
  intros Hs Ht. unfold bind at 1. unfold ab4_k. now repeat mstep.
Qed.

Lemma ab4_body_spec f d n tp h :
  shape_preserving d f -> length tp = n ->
  forall i sol tr,
    length sol = n -> rows_len d sol -> (4 <= i < n)%nat ->
    exists x tr', ab4_body f tp h i sol tr = Ok (<[i:=x]> sol, tr') /\
                  length x = d /\ ab4_step f tp h i sol x.
Proof.
  intros Hf Htp i sol tr Hlen Hrows Hi.
  destruct (lookup_lt_is_Some_2 tp i) as [t Ht]; [lia|].
  destruct (lookup_lt_is_Some_2 tp (i - 1)) as [t1 Ht1]; [lia|].
  destruct (lookup_lt_is_Some_2 tp (i - 2)) as [t2 Ht2]; [lia|].
  destruct (lookup_lt_is_Some_2 tp (i - 3)) as [t3 Ht3]; [lia|].
  destruct (lookup_lt_is_Some_2 tp (i - 4)) as [t4 Ht4]; [lia|].
  destruct (lookup_lt_is_Some_2 sol (i - 1)) as [s1 Hs1]; [lia|].
  destruct (lookup_lt_is_Some_2 sol (i - 2)) as [s2 Hs2]; [lia|].
  destruct (lookup_lt_is_Some_2 sol (i - 3)) as [s3 Hs3]; [lia|].
  destruct (lookup_lt_is_Some_2 sol (i - 4)) as [s4 Hs4]; [lia|].
  pose proof (Forall_lookup_1 _ _ _ _ Hrows Hs1) as L1.
  pose proof (Forall_lookup_1 _ _ _ _ Hrows Hs2) as L2.
  pose proof (Forall_lookup_1 _ _ _ _ Hrows Hs3) as L3.
  pose proof (Forall_lookup_1 _ _ _ _ Hrows Hs4) as L4.
  cbn beta in L1, L2, L3, L4.
  pose proof (Hf s1 t1 L1) as F1. pose proof (Hf s2 t2 L2) as F2.
  pose proof (Hf s3 t3 L3) as F3. pose proof (Hf s4 t4 L4) as F4.
  assert (length (ab4_formula h s1 (f s1 t1) (f s2 t2) (f s3 t3) (f s4 t4)) = d)
    as Lx by (unfold ab4_formula; vlen).
  eexists. eexists. split; [|split].
  - unfold ab4_body. mstep.
    rewrite (bind_ab4_k f tp i sol 1 s1 t1) by assumption.
    rewrite (bind_ab4_k f tp i sol 2 s2 t2) by assumption.
    rewrite (bind_ab4_k f tp i sol 3 s3 t3) by assumption.
    rewrite (bind_ab4_k f tp i sol 4 s4 t4) by assumption.
    repeat mstep.
    apply lift_Ok. eapply set_row_Ok; [exact Hrows | lia | exact Lx].
  - exact Lx.
  - exists s1, s2, s3, s4, t1, t2, t3, t4. auto 10.
Qed.

Lemma ab4_step_frame f tp h i sol sol' x :
  (4 <= i)%nat -> (forall j, (j < i)%nat -> sol' !! j = sol !! j) ->
  ab4_step f tp h i sol x -> ab4_step f tp h i sol' x.
Proof.
  intros Hi Hsame (s1 & s2 & s3 & s4 & t1 & t2 & t3 & t4 & H).
  exists s1, s2, s3, s4, t1, t2, t3, t4. rewrite !Hsame by lia. exact H.
Qed.

Lemma ab4_run f x0 t0 tf h tr :
  t0 <= tf -> 0 < h -> shape_preserving (length x0) f ->
  exists tp sol tr',
    adams_bashforth_4 f x0 t0 tf h tr = Ok (tp, sol, tr') /\
    linspace t0 tf (grid_len t0 tf h) = Ok tp /\
    length sol = Z.to_nat (grid_len t0 tf h) /\
    rows_len (length x0) sol /\
    sol !! 0%nat = Some x0 /\
    (forall i, (1 <= i < Nat.min 4 (length sol))%nat ->
               exists x, sol !! i = Some x /\ rk4_row f tp h i sol x) /\
    (forall i, (4 <= i < length sol)%nat ->
               exists x, sol !! i = Some x /\ ab4_step f tp h i sol x).
Proof.
  intros Ht Hh Hf.
  pose proof (grid_len_pos t0 tf h Ht Hh) as HN.
  destruct (linspace_total t0 tf _ HN) as [tp Htp].
  pose proof (linspace_length _ _ _ _ HN Htp) as Ltp.
  set (N := grid_len t0 tf h) in *. set (n := Z.to_nat N) in *.
  assert (1 <= n)%nat as Hn by lia.
  set (sol0 := <[0%nat:=x0]> (np_zeros n (length x0))).
  assert (length sol0 = n) as L0
    by (unfold sol0; now rewrite length_insert, length_zeros).
  assert (rows_len (length x0) sol0) as R0
    by (apply rows_len_insert; [apply rows_len_zeros | reflexivity]).
  assert (sol0 !! 0%nat = Some x0) as Z0
    by (apply list_lookup_insert_eq; rewrite length_zeros; lia).
  unfold adams_bashforth_4.
  rewrite (bind_Ok _ _ _ _ _ (num_steps_of_valid t0 tf h tr Ht Hh)).
  fold N. rewrite (bind_lift_Ok _ _ _ _ Htp). fold n.
  rewrite (bind_lift_Ok _ _ _ _ (first_row n x0 Hn)). fold sol0.
  destruct (1 <? N)%Z eqn:E.
  - destruct (for_range_fill (length x0) n 1 (ab4_rk4_body f tp h)
                (rk4_row f tp h)
                (ab4_rk4_body_spec f (length x0) n tp h Hf Ltp)
                (rk4_row_frame f tp h) 1 (Nat.min 4 n) sol0 tr)
      as (sola & tra & Hruna & Hlena & Hrowsa & Hlowa & _ & Hstepsa);
      [lia | lia | exact L0 | exact R0 |].
    destruct (for_range_fill (length x0) n 4 (ab4_body f tp h)
                (ab4_step f tp h)
                (ab4_body_spec f (length x0) n tp h Hf Ltp)
                (ab4_step_frame f tp h) 4 n sola tra)
      as (sol & tr' & Hrun & Hlen & Hrows & Hlow & _ & Hsteps);
      [lia | lia | exact Hlena | exact Hrowsa |].
    exists tp, sol, tr'. unfold bind at 1. unfold bind at 1.
    rewrite Hruna, Hrun. cbn [ret].
    repeat split; auto.
    + rewrite Hlow, Hlowa by lia. exact Z0.
    + intros i Hi. rewrite Hlen in Hi.
      destruct (Hstepsa i Hi) as (x & Hx & Hstep).
      exists x. split; [rewrite Hlow by lia; exact Hx|].
      apply rk4_row_frame with (sol := sola); [lia | | exact Hstep].
      intros j Hj. apply Hlow. lia.
    + intros i Hi. apply Hsteps. lia.
  - apply Z.ltb_ge in E. exists tp, sol0, tr. rewrite bind_ret.
    repeat split; auto.
    + intros i Hi. lia.
    + intros i Hi. lia.
Qed.

(** ** The solver on a residual that keeps the dimension *)

Lemma run_solver_answer d s func g :
  well_shaped d s -> computes d func g ->
  (forall x, length x = d -> length (g x) = d) ->
  forall tr, exists y ier tr',
    run_solver s func tr = Ok (y, ier, tr') /\
    answer s g = Ok (y, ier) /\ length y = d /\ (1 <= ier <= 5)%Z.
Proof.
  intros Hs Hfunc Hg. induction Hs as [y ier Hy Hier | x k Hx Hk IH];
    intros tr.
  - exists y, ier, tr. auto.
  - destruct (Hfunc x tr Hx) as [tr1 H1].
    destruct (IH (g x) (Hg x Hx) tr1)
      as (y & ier & tr' & Hrun & Hans & Hy & Hier).
    exists y, ier, tr'. cbn [run_solver answer].
    rewrite (bind_Ok _ _ _ _ _ H1). auto.
Qed.

(** The warnings of one call of [fsolve] that ends with [status]. *)
Lemma fsolve_Ok hybr func y0 tr y status tr1 :
  run_solver (hybr y0) func tr = Ok (y, status, tr1) ->
  (1 <= status <= 5)%Z ->
  fsolve hybr func y0 tr
  = Ok (y, tr1 ++ (if (status =? 1)%Z then [] else [Warn RuntimeWarning])).
Proof.
  intros Hrun Hs. unfold fsolve. rewrite (bind_Ok _ _ _ _ _ Hrun).
  destruct (status =? 0)%Z eqn:E0; [lia|].
  destruct (status =? 1)%Z eqn:E1; [now rewrite app_nil_r|].
  assert ((2 <=? status)%Z && (status <=? 5)%Z = true)%bool as ->
    by (apply andb_true_iff; split; lia).
  reflexivity.
Qed.

Lemma fsolve_answer hybr d func g y0 :
  solver_shape hybr -> length y0 = d -> computes d func g ->
  (forall x, length x = d -> length (g x) = d) ->
  forall tr, exists y ier tr',
    fsolve hybr func y0 tr = Ok (y, tr') /\
    answer (hybr y0) g = Ok (y, ier) /\ length y = d.
Proof.
  intros Hh Hy0 Hfunc Hg tr.
  pose proof (Hh y0) as Hs. rewrite Hy0 in Hs.
  destruct (run_solver_answer d _ func g Hs Hfunc Hg tr)
    as (y & ier & tr' & Hrun & Hans & Hy & Hier).
  exists y, ier. eexists. rewrite (fsolve_Ok _ _ _ _ _ _ _ Hrun Hier). auto.
Qed.

Lemma iterate_of_answer hybr g y0 y ier :
  answer (hybr y0) g = Ok (y, ier) -> iterate_of hybr g y0 = y.
Proof. intros H. unfold iterate_of. now rewrite H. Qed.

(** ** adams_moulton_2 *)

Lemma length_am2_residual f d h s1 t1 t x :
  shape_preserving d f -> length s1 = d -> length x = d ->
  length (am2_residual f h s1 t1 t x) = d.
Proof.
  intros Hf L1 Lx. pose proof (Hf s1 t1 L1). pose proof (Hf x t Lx).
  unfold am2_residual. vlen.
Qed.

Lemma am2_implicit_equation_computes f d tp h i sol s1 s2 t1 t2 t :
  shape_preserving d f ->
  sol !! (i - 1)%nat = Some s1 -> sol !! (i - 2)%nat = Some s2 ->
  tp !! (i - 1)%nat = Some t1 -> tp !! (i - 2)%nat = Some t2 ->
  length s1 = d -> length s2 = d ->
  computes d (am2_implicit_equation f tp h i sol t) (am2_residual f h s1 t1 t).
Proof.
  intros Hf Hs1 Hs2 Ht1 Ht2 L1 L2 x tr Lx.
  pose proof (Hf s1 t1 L1) as F1. pose proof (Hf s2 t2 L2) as F2.
  pose proof (Hf x t Lx) as Fx.
  eexists. unfold am2_implicit_equation. repeat mstep.
  apply lift_Ok. apply np_sub_Ok. vlen.
Qed.

Lemma am2_body_spec f hybr d n tp h :
  shape_preserving d f -> solver_shape hybr -> length tp = n ->
  forall i sol tr,
    length sol = n -> rows_len d sol -> (2 <= i < n)%nat ->
    exists x tr', am2_body f hybr tp h i sol tr = Ok (<[i:=x]> sol, tr') /\
                  length x = d /\ am2_step f hybr tp h i sol x.
Proof.
  intros Hf Hh Htp i sol tr Hlen Hrows Hi.
  destruct (lookup_lt_is_Some_2 tp i) as [t Ht]; [lia|].
  destruct (lookup_lt_is_Some_2 tp (i - 1)) as [t1 Ht1]; [lia|].
  destruct (lookup_lt_is_Some_2 tp (i - 2)) as [t2 Ht2]; [lia|].
  destruct (lookup_lt_is_Some_2 sol (i - 1)) as [s1 Hs1]; [lia|].
  destruct (lookup_lt_is_Some_2 sol (i - 2)) as [s2 Hs2]; [lia|].
  pose proof (Forall_lookup_1 _ _ _ _ Hrows Hs1) as L1.
  pose proof (Forall_lookup_1 _ _ _ _ Hrows Hs2) as L2.
  cbn beta in L1, L2.
  destruct (fsolve_answer hybr d
              (am2_implicit_equation f tp h i sol t)
              (am2_residual f h s1 t1 t) s1 Hh L1
              (am2_implicit_equation_computes f d tp h i sol s1 s2 t1 t2 t
                 Hf Hs1 Hs2 Ht1 Ht2 L1 L2)
              (fun x Lx => length_am2_residual f d h s1 t1 t x Hf L1 Lx) tr)
    as (y & ier & tr' & Hrun & Hans & Ly).
  exists y, tr'. split; [|split].
  - unfold am2_body. mstep. mstep. rewrite (bind_Ok _ _ _ _ _ Hrun).
    apply lift_Ok. eapply set_row_Ok; [exact Hrows | lia | exact Ly].
  - exact Ly.
  - exists s1, t1, t, ier. auto.
Qed.

Lemma am2_step_frame f hybr tp h i sol sol' x :
  (2 <= i)%nat -> (forall j, (j < i)%nat -> sol' !! j = sol !! j) ->
  am2_step f hybr tp h i sol x -> am2_step f hybr tp h i sol' x.
Proof.
  intros Hi Hsame (s1 & t1 & t & ier & H).
  exists s1, t1, t, ier. rewrite Hsame by lia. exact H.
Qed.

Lemma am2_run f hybr x0 t0 tf h tr :
  t0 <= tf -> 0 < h -> shape_preserving (length x0) f -> solver_shape hybr ->
  exists tp sol tr',
    adams_moulton_2 f hybr x0 t0 tf h tr = Ok (tp, sol, tr') /\
    linspace t0 tf (grid_len t0 tf h) = Ok tp /\
    length sol = Z.to_nat (grid_len t0 tf h) /\
    rows_len (length x0) sol /\
    sol !! 0%nat = Some x0 /\
    ((1 < length sol)%nat -> sol !! 1%nat = Some (euler_step f h x0 t0)) /\
    (forall i, (2 <= i < length sol)%nat ->
               exists x, sol !! i = Some x /\ am2_step f hybr tp h i sol x).
Proof.
  intros Ht Hh Hf Hs.
  pose proof (grid_len_pos t0 tf h Ht Hh) as HN.
  destruct (linspace_total t0 tf _ HN) as [tp Htp].
  pose proof (linspace_length _ _ _ _ HN Htp) as Ltp.
  set (N := grid_len t0 tf h) in *. set (n := Z.to_nat N) in *.
  assert (1 <= n)%nat as Hn by lia.
  set (sol0 := <[0%nat:=x0]> (np_zeros n (length x0))).
  assert (length sol0 = n) as L0
    by (unfold sol0; now rewrite length_insert, length_zeros).
  assert (rows_len (length x0) sol0) as R0
    by (apply rows_len_insert; [apply rows_len_zeros | reflexivity]).
  assert (sol0 !! 0%nat = Some x0) as Z0
    by (apply list_lookup_insert_eq; rewrite length_zeros; lia).
  unfold adams_moulton_2.
  rewrite (bind_Ok _ _ _ _ _ (num_steps_of_valid t0 tf h tr Ht Hh)).
  fold N. rewrite (bind_lift_Ok _ _ _ _ Htp). fold n.
  rewrite (bind_lift_Ok _ _ _ _ (first_row n x0 Hn)). fold sol0.
  destruct (1 <? N)%Z eqn:E.
  - apply Z.ltb_lt in E.
    pose proof (Hf x0 t0 eq_refl) as F0.
    set (sol1 := <[1%nat:=euler_step f h x0 t0]> sol0).
    assert (length (euler_step f h x0 t0) = length x0) as Le
      by (unfold euler_step; vlen).
    assert (length sol1 = n) as L1 by (unfold sol1; now rewrite length_insert).
    assert (rows_len (length x0) sol1) as R1
      by (now apply rows_len_insert).
    destruct (for_range_fill (length x0) n 2 (am2_body f hybr tp h)
                (am2_step f hybr tp h)
                (am2_body_spec f hybr (length x0) n tp h Hf Hs Ltp)
                (am2_step_frame f hybr tp h) 2 n sol1 (tr ++ [Call x0 t0]))
      as (sol & tr' & Hrun & Hlen & Hrows & Hlow & _ & Hsteps);
      [lia | lia | exact L1 | exact R1 |].
    exists tp, sol, tr'. unfold bind at 1. rewrite bind_call_f.
    erewrite bind_lift_Ok by (apply np_add_Ok; vlen).
    erewrite bind_lift_Ok by
      (apply set_row_Ok with (d := length x0); [exact R0 | lia | exact Le]).
    fold (euler_step f h x0 t0). fold sol1.
    rewrite Hrun. cbn [ret].
    repeat split; auto.
    + rewrite Hlow by lia. unfold sol1.
      rewrite list_lookup_insert_ne by lia. exact Z0.
    + intros _. rewrite Hlow by lia. unfold sol1.
      apply list_lookup_insert_eq. lia.
    + intros i Hi. apply Hsteps. lia.
  - apply Z.ltb_ge in E. exists tp, sol0, tr. rewrite bind_ret.
    repeat split; auto.
    + intros H. lia.
    + intros i Hi. lia.
Qed.

(** ** custom_dirk_method *)

Lemma length_dirk_stage_residual f d h s1 t1 k1 :
  shape_preserving d f -> length s1 = d -> length k1 = d ->
  length (dirk_stage_residual f h s1 t1 k1) = d.
Proof.
  intros Hf L1 Lk.
  assert (length (vadd s1 (vscale (h * gamma) k1)) = d) as La by vlen.
  pose proof (Hf _ (t1 + h * gamma) La).
  unfold dirk_stage_residual. vlen.
Qed.

Lemma dirk_stage_equation_computes f d h i sol s1 t1 :
  shape_preserving d f -> sol !! (i - 1)%nat = Some s1 -> length s1 = d ->
  computes d (dirk_stage_equation f h i sol t1) (dirk_stage_residual f h s1 t1).
Proof.
  intros Hf Hs1 L1 k1 tr Lk.
  assert (length (vadd s1 (vscale (h * gamma) k1)) = d) as La by vlen.
  pose proof (Hf _ (t1 + h * gamma) La) as Fa.
  eexists. unfold dirk_stage_equation. repeat mstep.
  apply lift_Ok. apply np_sub_Ok. vlen.
Qed.

Lemma dirk_k1_answer f hybr d h s1 t1 :
  shape_preserving d f -> solver_shape hybr -> length s1 = d ->
  exists ier,
    answer (hybr (f s1 t1)) (dirk_stage_residual f h s1 t1)
    = Ok (dirk_k1 f hybr h s1 t1, ier) /\
    length (dirk_k1 f hybr h s1 t1) = d.
Proof.
  intros Hf Hh L1. pose proof (Hf s1 t1 L1) as F1.
  pose proof (Hh (f s1 t1)) as Hs. rewrite F1 in Hs.
  destruct (run_solver_answer d _ (fun x => ret (dirk_stage_residual f h s1 t1 x))
              (dirk_stage_residual f h s1 t1) Hs) with (tr := @nil event)
    as (y & ier & tr' & _ & Hans & Ly & _).
  - intros x tr _. now exists tr.
  - intros x Lx. now apply length_dirk_stage_residual.
  - exists ier. unfold dirk_k1. rewrite (iterate_of_answer _ _ _ _ _ Hans). auto.
Qed.

Lemma length_dirk_outer_residual f hybr d h s1 t1 x :
  shape_preserving d f -> solver_shape hybr -> length s1 = d ->
  length x = d -> length (dirk_outer_residual f hybr h s1 t1 x) = d.
Proof.
  intros Hf Hh L1 Lx.
  destruct (dirk_k1_answer f hybr d h s1 t1 Hf Hh L1) as (ier & _ & Lk).
  unfold dirk_outer_residual. vlen.
Qed.

Lemma dirk_implicit_equation_computes f hybr d h i sol s1 t1 :
  shape_preserving d f -> solver_shape hybr ->
  sol !! (i - 1)%nat = Some s1 -> length s1 = d ->
  computes d (dirk_implicit_equation f hybr h i sol t1)
    (dirk_outer_residual f hybr h s1 t1).
Proof.
  intros Hf Hh Hs1 L1 x tr Lx.
  pose proof (Hf s1 t1 L1) as F1.
  destruct (dirk_k1_answer f hybr d h s1 t1 Hf Hh L1) as (ier & Hk & Lk).
  destruct (fsolve_answer hybr d (dirk_stage_equation f h i sol t1)
              (dirk_stage_residual f h s1 t1) (f s1 t1) Hh F1
              (dirk_stage_equation_computes f d h i sol s1 t1 Hf Hs1 L1)
              (fun k Lk' => length_dirk_stage_residual f d h s1 t1 k Hf L1 Lk')
              (tr ++ [Call s1 t1]))
    as (y & ier' & tr' & Hrun & Hans & Ly).
  assert (y = dirk_k1 f hybr h s1 t1) as -> by congruence.
  eexists. unfold dirk_implicit_equation. mstep. mstep.
  rewrite (bind_Ok _ _ _ _ _ Hrun). repeat mstep.
  apply lift_Ok. apply np_sub_Ok. vlen.
Qed.

Lemma dirk_body_spec f hybr d n tp h :
  shape_preserving d f -> solver_shape hybr -> length tp = n ->
  forall i sol tr,
    length sol = n -> rows_len d sol -> (1 <= i < n)%nat ->
    exists x tr', dirk_body f hybr tp h i sol tr = Ok (<[i:=x]> sol, tr') /\
                  length x = d /\ dirk_step f hybr tp h i sol x.
Proof.
  intros Hf Hh Htp i sol tr Hlen Hrows Hi.
  destruct (lookup_lt_is_Some_2 tp i) as [t Ht]; [lia|].
  destruct (lookup_lt_is_Some_2 tp (i - 1)) as [t1 Ht1]; [lia|].
  destruct (lookup_lt_is_Some_2 sol (i - 1)) as [s1 Hs1]; [lia|].
  pose proof (Forall_lookup_1 _ _ _ _ Hrows Hs1) as L1. cbn beta in L1.
  destruct (fsolve_answer hybr d
              (dirk_implicit_equation f hybr h i sol t1)
              (dirk_outer_residual f hybr h s1 t1) s1 Hh L1
              (dirk_implicit_equation_computes f hybr d h i sol s1 t1
                 Hf Hh Hs1 L1)
              (fun x Lx =>
                 length_dirk_outer_residual f hybr d h s1 t1 x Hf Hh L1 Lx) tr)
    as (y & ier & tr' & Hrun & Hans & Ly).
  exists y, tr'. split; [|split].
  - unfold dirk_body. mstep. mstep. mstep. rewrite (bind_Ok _ _ _ _ _ Hrun).
    apply lift_Ok. eapply set_row_Ok; [exact Hrows | lia | exact Ly].
  - exact Ly.
  - exists s1, t1, ier. auto.
Qed.

Lemma dirk_step_frame f hybr tp h i sol sol' x :
  (1 <= i)%nat -> (forall j, (j < i)%nat -> sol' !! j = sol !! j) ->
  dirk_step f hybr tp h i sol x -> dirk_step f hybr tp h i sol' x.
Proof.
  intros Hi Hsame (s1 & t1 & ier & H).
  exists s1, t1, ier. rewrite Hsame by lia. exact H.
Qed.

Lemma dirk_run f hybr x0 t0 tf h tr :
  t0 <= tf -> 0 < h -> shape_preserving (length x0) f -> solver_shape hybr ->
  exists tp sol tr',
    custom_dirk_method f hybr x0 t0 tf h tr = Ok (tp, sol, tr') /\
    linspace t0 tf (grid_len t0 tf h) = Ok tp /\
    length sol = Z.to_nat (grid_len t0 tf h) /\
    rows_len (length x0) sol /\
    sol !! 0%nat = Some x0 /\
    (forall i, (1 <= i < length sol)%nat ->
               exists x, sol !! i = Some x /\ dirk_step f hybr tp h i sol x).
Proof.
  intros Ht Hh Hf Hs.
  pose proof (grid_len_pos t0 tf h Ht Hh) as HN.
  destruct (linspace_total t0 tf _ HN) as [tp Htp].
  pose proof (linspace_length _ _ _ _ HN Htp) as Ltp.
  set (N := grid_len t0 tf h) in *. set (n := Z.to_nat N) in *.
  assert (1 <= n)%nat as Hn by lia.
  set (sol0 := <[0%nat:=x0]> (np_zeros n (length x0))).
  assert (length sol0 = n) as L0
    by (unfold sol0; now rewrite length_insert, length_zeros).
  assert (rows_len (length x0) sol0) as R0
    by (apply rows_len_insert; [apply rows_len_zeros | reflexivity]).
  assert (sol0 !! 0%nat = Some x0) as Z0
    by (apply list_lookup_insert_eq; rewrite length_zeros; lia).
  unfold custom_dirk_method.
  rewrite (bind_Ok _ _ _ _ _ (num_steps_of_valid t0 tf h tr Ht Hh)).
  fold N. rewrite (bind_lift_Ok _ _ _ _ Htp). fold n.
  rewrite (bind_lift_Ok _ _ _ _ (first_row n x0 Hn)). fold sol0.
  destruct (for_range_fill (length x0) n 1 (dirk_body f hybr tp h)
              (dirk_step f hybr tp h)
              (dirk_body_spec f hybr (length x0) n tp h Hf Hs Ltp)
              (dirk_step_frame f hybr tp h) 1 n sol0 tr)
    as (sol & tr' & Hrun & Hlen & Hrows & Hlow & _ & Hsteps);
    [lia | lia | exact L0 | exact R0 |].
  exists tp, sol, tr'. rewrite (bind_Ok _ _ _ _ _ Hrun). cbn [ret].
  repeat split; auto.
  - rewrite Hlow by lia. exact Z0.
  - intros i Hi. apply Hsteps. lia.
Qed.

(** ** Shape of the time grid *)

Lemma inject_Z_pos z : (0 < z)%Z -> 0 < inject_Z z.
Proof. intros H. unfold Qlt, inject_Z. cbn. lia. Qed.

Lemma inject_Z_succ (i : nat) :
  inject_Z (Z.of_nat (S i)) == inject_Z (Z.of_nat i) + 1.
Proof. rewrite Nat2Z.inj_succ. unfold Z.succ. now rewrite inject_Z_plus. Qed.

Lemma linspace_first start stop num tp :
  (1 <= num)%Z -> linspace start stop num = Ok tp ->
  exists t, tp !! 0%nat = Some t /\ t == start.
Proof.
  intros Hn H. destruct (Z.eq_dec num 1%Z) as [->|Hne].
  - rewrite linspace_one in H. inversion H. eexists. split; [reflexivity|ring].
  - rewrite linspace_many in H by lia. inversion H. eexists. split.
    + rewrite list_lookup_insert_ne by lia.
      apply lookup_linspace_raw. lia.
    + cbn. ring.
Qed.




(** What the four integrators do share: the grid has
    [floor((tf - t0)/h) + 1] points and starts at [t0], the trajectory is
    as long as the grid and starts with the initial state itself. *)
Lemma grid_and_first_row f hybr x0 t0 tf h :
  t0 <= tf -> 0 < h -> shape_preserving (length x0) f -> solver_shape hybr ->
  let P (tp : list Q) (sol : list vec) :=
    length tp = Z.to_nat (grid_len t0 tf h) /\
    (exists t, tp !! 0%nat = Some t /\ t == t0) /\
    length sol = length tp /\ sol !! 0%nat = Some x0 in
  returns_with (adams_bashforth_2 f x0 t0 tf h []) P /\
  returns_with (adams_bashforth_4 f x0 t0 tf h []) P /\
  returns_with (adams_moulton_2 f hybr x0 t0 tf h []) P /\
  returns_with (custom_dirk_method f hybr x0 t0 tf h []) P.
Proof.
  intros Ht Hh Hf Hs P.
  pose proof (grid_len_pos t0 tf h Ht Hh) as HN.
  assert (forall tp sol, linspace t0 tf (grid_len t0 tf h) = Ok tp ->
            length sol = Z.to_nat (grid_len t0 tf h) ->
            sol !! 0%nat = Some x0 -> P tp sol) as HP.
  { intros tp sol Htp Hlen H0.
    pose proof (linspace_length _ _ _ _ HN Htp) as Ltp.
    unfold P. repeat split; auto; [|congruence].
    exact (linspace_first _ _ _ _ HN Htp). }
  repeat split.
  - destruct (ab2_run f x0 t0 tf h [] Ht Hh Hf)
      as (tp & sol & tr & Hrun & Htp & Hlen & _ & H0 & _).
    exists tp, sol, tr. auto.
  - destruct (ab4_run f x0 t0 tf h [] Ht Hh Hf)
      as (tp & sol & tr & Hrun & Htp & Hlen & _ & H0 & _).
    exists tp, sol, tr. auto.
  - destruct (am2_run f hybr x0 t0 tf h [] Ht Hh Hf Hs)
      as (tp & sol & tr & Hrun & Htp & Hlen & _ & H0 & _).
    exists tp, sol, tr. auto.
  - destruct (dirk_run f hybr x0 t0 tf h [] Ht Hh Hf Hs)
      as (tp & sol & tr & Hrun & Htp & Hlen & _ & H0 & _).
    exists tp, sol, tr. auto.
Qed.

(** ** compute_method_statistics *)

Lemma sequence_Ok {A B} (op : A -> B -> result Q) (g : A -> B -> Q)
  (xs : list A) (ys : list B) :
  Forall2 (fun x y => op x y = Ok (g x y)) xs ys ->
  sequence (zip_with op xs ys) = Ok (zip_with g xs ys).
Proof.
  induction 1 as [|x y xs ys Hxy _ IH]; [reflexivity|].
  cbn. rewrite Hxy, IH. reflexivity.
Qed.

Lemma broadcast2_2d_same op (g : Q -> Q -> Q) (a b : list vec) :
  Forall2 (Forall2 (fun x y => op x y = Ok (g x y))) a b ->
  broadcast2_2d op a b = Ok (zip_with (zip_with g) a b).
Proof.
  intros H. unfold broadcast2_2d.
  rewrite broadcast2_same by (eapply Forall2_length; exact H).
  cbn [rbind]. induction H as [|ra rb a b Hr _ IH]; [reflexivity|].
  cbn [zip_with sequence].
  rewrite broadcast2_same by (eapply Forall2_length; exact Hr).
  cbn [rbind]. rewrite (sequence_Ok _ _ _ _ Hr). cbn [rbind].
  rewrite IH. reflexivity.
Qed.

(** Two arrays of one shape are related elementwise by any relation
    that holds as soon as the second number satisfies [P]. *)
Lemma same_shape_Forall2 (P : Q -> Prop) (R : Q -> Q -> Prop) d
  (a b : list vec) :
  (forall x y, P y -> R x y) -> length a = length b ->
  rows_len d a -> rows_len d b -> Forall (Forall P) b ->
  Forall2 (Forall2 R) a b.
Proof.
  intros HR Hlen Ha Hb HP.
  apply Forall2_same_length_lookup_2; [exact Hlen|].
  intros i ra rb Hra Hrb.
  pose proof (Forall_lookup_1 _ _ _ _ Ha Hra) as La.
  pose proof (Forall_lookup_1 _ _ _ _ Hb Hrb) as Lb.
  pose proof (Forall_lookup_1 _ _ _ _ HP Hrb) as Pb. cbn beta in La, Lb, Pb.
  apply Forall2_same_length_lookup_2; [congruence|].
  intros j x y _ Hy. apply HR. exact (Forall_lookup_1 _ _ _ _ Pb Hy).
Qed.

Lemma np_true_divide_pos x y : 0 < y -> np_true_divide x y = Ok (x / y).
Proof.
  intros Hy. unfold np_true_divide.
  destruct (Qeq_bool y 0) eqn:E; [|reflexivity].
  apply Qeq_bool_eq in E. lra.
Qed.

(** Every divisor of the relative error is strictly positive. *)
Lemma rel_denominators_pos (ref_sol : list vec) :
  Forall (Forall (fun q => 0 < q)) (rel_denominators ref_sol).
Proof.
  unfold rel_denominators, np_abs.
  apply Forall_fmap, Forall_fmap, Forall_true. intros row. cbn.
  apply Forall_fmap, Forall_fmap, Forall_true. intros v.
  unfold compose. pose proof (Qabs_nonneg v). lra.
Qed.

Lemma rows_len_zip_with (g : Q -> Q -> Q) d (a b : list vec) :
  rows_len d a -> rows_len d b -> rows_len d (zip_with (zip_with g) a b).
Proof.
  intros Ha Hb. apply Forall_lookup_2. intros i r Hr.
  apply lookup_zip_with_Some in Hr as (ra & rb & -> & Hra & Hrb).
  pose proof (Forall_lookup_1 _ _ _ _ Ha Hra) as La.
  pose proof (Forall_lookup_1 _ _ _ _ Hb Hrb) as Lb. cbn beta in La, Lb.
  rewrite length_zip_with. lia.
Qed.

Lemma rows_len_fmap (g : Q -> Q) d (a : list vec) :
  rows_len d a -> rows_len d (map (map g) a).
Proof.
  intros Ha. apply Forall_fmap. eapply Forall_impl; [exact Ha|].
  intros r Hr. cbn. now rewrite length_map.
Qed.

Lemma concat_nonempty d (a : list vec) :
  (0 < length a)%nat -> (0 < d)%nat -> rows_len d a ->
  exists x l, concat a = x :: l.
Proof.
  intros Hn Hd Ha. destruct a as [|[|x r] a]; cbn in Hn; [lia| |].
  - inversion Ha as [|? ? H0 _]. cbn in H0. lia.
  - cbn. eauto.
Qed.

Lemma Qmax_cases x y : Qmax x y = x \/ Qmax x y = y.
Proof.
  unfold Qmax, GenericMinMax.gmax. destruct (x ?= y); auto.
Qed.

Lemma fold_left_Qmax_largest (l : list Q) (x : Q) :
  In (fold_left Qmax l x) (x :: l) /\
  forall y, In y (x :: l) -> y <= fold_left Qmax l x.
Proof.
  revert x. induction l as [|z l IH]; intros x.
  - cbn. split; [auto|]. intros y [->|[]]. apply Qle_refl.
  - cbn [fold_left]. destruct (IH (Qmax x z)) as [Hin Hle]. split.
    + destruct Hin as [E|Hin]; [|right; right; exact Hin].
      rewrite <- E. destruct (Qmax_cases x z) as [->| ->]; cbn; auto.
    + intros y [->|[->|Hy]].
      * apply Qle_trans with (Qmax y z); [apply Q.le_max_l|].
        apply Hle. now left.
      * apply Qle_trans with (Qmax x y); [apply Q.le_max_r|].
        apply Hle. now left.
      * apply Hle. now right.
Qed.

Lemma np_max_largest d (a : list vec) :
  (0 < length a)%nat -> (0 < d)%nat -> rows_len d a ->
  exists m, np_max a = Ok m /\ In m (concat a) /\
            forall y, In y (concat a) -> y <= m.
Proof.
  intros Hn Hd Ha. destruct (concat_nonempty d a Hn Hd Ha) as (x & l & E).
  unfold np_max. rewrite E. exists (fold_left Qmax l x).
  split; [reflexivity|]. apply fold_left_Qmax_largest.
Qed.

Lemma np_mean_Ok d (a : list vec) :
  (0 < length a)%nat -> (0 < d)%nat -> rows_len d a ->
  exists m, np_mean a = Ok m.
Proof.
  intros Hn Hd Ha. destruct (concat_nonempty d a Hn Hd Ha) as (x & l & E).
  unfold np_mean. rewrite E. eexists. apply np_true_divide_pos.
  apply inject_Z_pos. cbn [length]. lia.
Qed.

(** The entries of [|a - b|], flattened, are the elementwise absolute
    differences. *)
Lemma In_abs_differences (a b : list vec) (m : Q) :
  In m (concat (np_abs (zip_with (zip_with Qminus) a b))) <->
  exists i j ra rb x y,
    a !! i = Some ra /\ b !! i = Some rb /\
    ra !! j = Some x /\ rb !! j = Some y /\ m = Qabs (x - y).
Proof.
  rewrite in_concat. unfold np_abs. split.
  - intros (r & Hr & Hm).
    apply list_elem_of_In, list_elem_of_lookup in Hr as [i Hr].
    apply list_elem_of_In, list_elem_of_lookup in Hm as [j Hm].
    rewrite list_lookup_fmap in Hr.
    destruct (zip_with (zip_with Qminus) a b !! i) as [r0|] eqn:Hr0;
      [|discriminate].
    injection Hr as <-.
    apply lookup_zip_with_Some in Hr0 as (ra & rb & -> & Hra & Hrb).
    rewrite list_lookup_fmap in Hm.
    destruct (zip_with Qminus ra rb !! j) as [v|] eqn:Hv; [|discriminate].
    injection Hm as <-.
    apply lookup_zip_with_Some in Hv as (x & y & -> & Hx & Hy).
    exists i, j, ra, rb, x, y. auto.
  - intros (i & j & ra & rb & x & y & Hra & Hrb & Hx & Hy & ->).
    exists (map Qabs (zip_with Qminus ra rb)). split.
    + apply list_elem_of_In, list_elem_of_lookup. exists i.
      rewrite list_lookup_fmap.
      rewrite (proj2 (lookup_zip_with_Some (zip_with Qminus) a b i
                        (zip_with Qminus ra rb))); [reflexivity|].
      exists ra, rb. auto.
    + apply list_elem_of_In, list_elem_of_lookup. exists j.
      rewrite list_lookup_fmap.
      rewrite (proj2 (lookup_zip_with_Some Qminus ra rb j (x - y)));
        [reflexivity|].
      exists x, y. auto.
Qed.

(** The loop body on two trajectories of one shape. *)
Lemma stats_body_spec d (sol ref_sol : list vec) :
  (0 < length ref_sol)%nat -> (0 < d)%nat ->
  length sol = length ref_sol -> rows_len d sol -> rows_len d ref_sol ->
  exists st, stats_body sol ref_sol = Ok st /\
             largest_abs_difference (max_abs_error st) sol ref_sol.
Proof.
  intros Hn Hd Hlen Hsol Href.
  set (diff := zip_with (zip_with Qminus) sol ref_sol).
  set (abs_error := np_abs diff).
  set (rel_error := zip_with (zip_with Qdiv) abs_error
                      (rel_denominators ref_sol)).
  assert (rows_len d diff) as Rd by now apply rows_len_zip_with.
  assert (length diff = length ref_sol) as Ld
    by (unfold diff; rewrite length_zip_with; lia).
  assert (rows_len d abs_error) as Ra by now apply rows_len_fmap.
  assert (length abs_error = length ref_sol) as La
    by (unfold abs_error, np_abs; now rewrite length_map).
  assert (rows_len d (rel_denominators ref_sol)) as Rq
    by (unfold rel_denominators, np_abs; now repeat apply rows_len_fmap).
  assert (length (rel_denominators ref_sol) = length ref_sol) as Lq
    by (unfold rel_denominators, np_abs; now rewrite !length_map).
  assert (rows_len d rel_error) as Rr by now apply rows_len_zip_with.
  assert (length rel_error = length ref_sol) as Lr
    by (unfold rel_error; rewrite length_zip_with; lia).
  destruct (np_max_largest d abs_error) as (m & Hm & Hin & Hle);
    [lia | lia | exact Ra |].
  destruct (np_mean_Ok d abs_error) as (ma & Hma); [lia | lia | exact Ra |].
  destruct (np_max_largest d rel_error) as (mr & Hmr & _);
    [lia | lia | exact Rr |].
  destruct (np_mean_Ok d rel_error) as (mm & Hmm); [lia | lia | exact Rr |].
  eexists. split.
  - unfold stats_body.
    rewrite (broadcast2_2d_same _ Qminus sol ref_sol)
      by (apply same_shape_Forall2 with (P := fun _ => True) (d := d); auto;
          apply Forall_true; intros r; now apply Forall_true).
    cbn [rbind]. fold diff. fold abs_error.
    rewrite (broadcast2_2d_same _ Qdiv abs_error (rel_denominators ref_sol))
      by (apply same_shape_Forall2 with (P := fun q => 0 < q) (d := d);
          [ intros x y Hy; now apply np_true_divide_pos
          | congruence | exact Ra | exact Rq | apply rel_denominators_pos ]).
    cbn [rbind]. fold rel_error.
    rewrite Hm, Hma, Hmr, Hmm. cbn [rbind]. reflexivity.
  - cbn [max_abs_error]. split.
    + intros i j ra rb x y Hra Hrb Hx Hy. apply Hle.
      apply In_abs_differences. exists i, j, ra, rb, x, y. auto.
    + apply In_abs_differences. exact Hin.
Qed.

Lemma dict_get_set_eq {V} (d : dict V) k v : dict_get (dict_set d k v) k = Ok v.
Proof.
  induction d as [|[k' v'] d IH]; cbn.
  - now rewrite String.eqb_refl.
  - destruct (String.eqb k k') eqn:E; cbn; rewrite E; [reflexivity|exact IH].
Qed.

Lemma dict_get_set_ne {V} (d : dict V) k k' v :
  k <> k' -> dict_get (dict_set d k v) k' = dict_get d k'.
Proof.
  intros Hne. induction d as [|[k0 v0] d IH]; cbn.
  - now rewrite (proj2 (String.eqb_neq k' k)) by congruence.
  - destruct (String.eqb k k0) eqn:E; cbn.
    + apply String.eqb_eq in E. subst k0.
      now rewrite (proj2 (String.eqb_neq k' k)) by congruence.
    + destruct (String.eqb k' k0); [reflexivity|exact IH].
Qed.

Lemma stats_loop_spec d (ref_sol : list vec) :
  (0 < length ref_sol)%nat -> (0 < d)%nat -> rows_len d ref_sol ->
  forall (items : dict (list Q * list vec)) (stats0 : dict method_stats),
    NoDup (map fst items) ->
    (forall method t sol, In (method, (t, sol)) items ->
                          length sol = length ref_sol /\ rows_len d sol) ->
    exists stats,
      stats_loop items ref_sol stats0 = Ok stats /\
      (forall k, ~ In k (map fst items) -> dict_get stats k = dict_get stats0 k) /\
      (forall method t sol,
         In (method, (t, sol)) items -> method <> reference_method ->
         exists st, dict_get stats method = Ok st /\
                    largest_abs_difference (max_abs_error st) sol ref_sol).
Proof.
  intros Hn Hd Href items.
  induction items as [|[method [t sol]] items IH]; intros stats0 Hnd Hshape.
  - exists stats0. cbn. repeat split; auto. intros ? ? ? [].
  - cbn [map fst] in Hnd. apply NoDup_cons in Hnd as [Hfresh Hnd].
    rewrite list_elem_of_In in Hfresh.
    assert (forall m t' s', In (m, (t', s')) items ->
              length s' = length ref_sol /\ rows_len d s') as Hshape'
      by (intros m t' s' H; apply (Hshape m t' s'); now right).
    cbn [stats_loop].
    destruct (String.eqb method reference_method) eqn:E; cbn [negb].
    + apply String.eqb_eq in E.
      destruct (IH stats0 Hnd Hshape') as (stats & Hrun & Hkeep & Hall).
      exists stats. split; [exact Hrun|]. split.
      * intros k Hk. apply Hkeep. intros H. apply Hk. now right.
      * intros m t' s' [H|H] Hm; [congruence|]. now apply (Hall m t' s').
    + apply String.eqb_neq in E.
      destruct (Hshape method t sol (or_introl eq_refl)) as [Hlen Hrows].
      destruct (stats_body_spec d sol ref_sol Hn Hd Hlen Hrows Href)
        as (st & Hst & Hlargest).
      rewrite Hst. cbn [rbind].
      destruct (IH (dict_set stats0 method st) Hnd Hshape')
        as (stats & Hrun & Hkeep & Hall).
      exists stats. split; [exact Hrun|]. split.
      * intros k Hk. rewrite Hkeep by (intros H; apply Hk; now right).
        apply dict_get_set_ne. intros ->. apply Hk. now left.
      * intros m t' s' [H|H] Hm.
        -- injection H as <- <- <-. exists st.
           rewrite (Hkeep method Hfresh), dict_get_set_eq. auto.
        -- now apply (Hall m t' s').
Qed.

(** ** Constant derivatives on a grid that is spaced by [h]

    Where [tf - t0] is a multiple of [h] the grid of [np.linspace] and
    the steps of the integrators agree, and a constant derivative is
    integrated exactly. *)

Lemma veq_refl (a : vec) : veq a a.
Proof. induction a; constructor; [reflexivity | assumption]. Qed.

Lemma veq_trans (a b c : vec) : veq a b -> veq b c -> veq a c.
Proof.
  intros H. revert c. induction H as [|x y a b Hxy _ IH]; intros c Hc.
  - exact Hc.
  - inversion Hc as [|? z ? c' Hyz Hbc]; subst.
    constructor; [now rewrite Hxy | now apply IH].
Qed.

Lemma veq_sym (a b : vec) : veq a b -> veq b a.
Proof.
  induction 1 as [|x y a b Hxy _ IH]; constructor;
    [now symmetry | assumption].
Qed.

Lemma vscale_veq (a b : Q) (u v : vec) :
  a == b -> veq u v -> veq (vscale a u) (vscale b v).
Proof.
  intros Hab H. induction H as [|x y u v Hxy _ IH]; cbn; constructor.
  - now rewrite Hab, Hxy.
  - exact IH.
Qed.

(** Adding an increment [b*c] to a point [x0 + a*c] of the line. *)
Lemma vadd_line (x0 c s u : vec) (a b : Q) :
  length c = length x0 ->
  veq s (vadd x0 (vscale a c)) -> veq u (vscale b c) ->
  veq (vadd s u) (vadd x0 (vscale (a + b) c)).
Proof.
  revert c s u. induction x0 as [|p x0 IH]; intros [|q c] s u Hlen Hs Hu;
    try discriminate.
  - inversion Hs. constructor.
  - cbn in Hs, Hu.
    inversion Hs as [|sj ? s' ? Hsj Hs']; subst.
    inversion Hu as [|uj ? u' ? Huj Hu']; subst.
    cbn. constructor.
    + rewrite Hsj, Huj. ring.
    + apply IH; [now inversion Hlen | exact Hs' | exact Hu'].
Qed.

Lemma line_start (x0 c : vec) (h : Q) :
  length c = length x0 -> veq x0 (vadd x0 (vscale (0 * h) c)).
Proof.
  revert c. induction x0 as [|p x0 IH]; intros [|q c] Hlen; try discriminate.
  - constructor.
  - cbn. constructor; [ring | apply IH; now inversion Hlen].
Qed.

Lemma ab2_increment (h : Q) (c : vec) :
  veq (vscale h (vsub (vscale (3 # 2) c) (vscale (1 # 2) c))) (vscale h c).
Proof. induction c; cbn; constructor; [ring | assumption]. Qed.

Lemma rk4_increment (h : Q) (c : vec) :
  veq (vdiv (vscale h (vadd (vadd (vadd c (vscale 2 c)) (vscale 2 c)) c)) 6)
      (vscale h c).
Proof. induction c; cbn; constructor; [field | assumption]. Qed.

Lemma ab4_increment (h : Q) (c : vec) :
  veq (vscale h (vsub (vadd (vsub (vscale (55 / 24) c) (vscale (59 / 24) c))
                            (vscale (37 / 24) c))
                      (vscale (9 / 24) c)))
      (vscale h c).
Proof. induction c; cbn; constructor; [field | assumption]. Qed.

Lemma am2_increment (h : Q) (c : vec) :
  veq (vscale h (vadd (vscale (1 # 2) c) (vscale (1 # 2) c))) (vscale h c).
Proof. induction c; cbn; constructor; [ring | assumption]. Qed.

Lemma line_scalar (x0 c : vec) (a b : Q) :
  a == b -> veq (vadd x0 (vscale a c)) (vadd x0 (vscale b c)).
Proof.
  intros E. revert c. induction x0 as [|p x0 IH]; intros c.
  - constructor.
  - destruct c as [|q c]; cbn; constructor; [now rewrite E | apply IH].
Qed.

(** A trajectory whose every row adds an increment [h*c] to the row
    before lies on the line through [x0] with slope [c]. *)
Lemma rows_on_line (x0 c : vec) (h : Q) (sol : list vec) :
  length c = length x0 -> sol !! 0%nat = Some x0 ->
  (forall i, (1 <= i < length sol)%nat ->
     exists x s u, sol !! i = Some x /\ sol !! (i - 1)%nat = Some s /\
                   veq x (vadd s u) /\ veq u (vscale h c)) ->
  forall i x, sol !! i = Some x ->
    veq x (vadd x0 (vscale (inject_Z (Z.of_nat i) * h) c)).
Proof.
  intros Hc H0 Hstep. induction i as [|i IH]; intros x Hx.
  - rewrite H0 in Hx. injection Hx as <-. now apply line_start.
  - destruct (Hstep (S i)) as (x' & s & u & Hx' & Hs & Hxs & Hu).
    { apply lookup_lt_Some in Hx. lia. }
    rewrite Hx in Hx'. injection Hx' as <-.
    replace (S i - 1)%nat with i in Hs by lia.
    apply veq_trans with (vadd s u); [exact Hxs|].
    apply veq_trans
      with (vadd x0 (vscale (inject_Z (Z.of_nat i) * h + h) c)).
    + apply vadd_line; [exact Hc | now apply IH | exact Hu].
    + apply line_scalar. rewrite inject_Z_succ. ring.
Qed.

Lemma grid_point_commensurate t0 tf h tp (i : nat) t :
  t0 <= tf -> 0 < h -> commensurate t0 tf h ->
  linspace t0 tf (grid_len t0 tf h) = Ok tp -> tp !! i = Some t ->
  t - t0 == inject_Z (Z.of_nat i) * h.
Proof.
  intros Ht Hh Hcom Htp Hi. unfold commensurate in Hcom.
  pose proof (grid_len_pos t0 tf h Ht Hh) as HN.
  set (N := grid_len t0 tf h) in *.
  destruct (Z.eq_dec N 1%Z) as [E|E].
  - rewrite E, linspace_one in Htp. injection Htp as <-.
    destruct i as [|i]; [|discriminate]. injection Hi as <-.
    cbn. ring.
  - rewrite linspace_many in Htp by lia. injection Htp as <-.
    pose proof (inject_Z_pos (N - 1)) as Hpos.
    assert (i < Z.to_nat N)%nat as Hlt.
    { apply lookup_lt_Some in Hi.
      now rewrite length_insert, length_linspace_raw in Hi. }
    destruct (Nat.eq_dec i (Z.to_nat N - 1)%nat) as [Ei|Ei].
    + rewrite Ei in Hi. rewrite list_lookup_insert_eq in Hi
        by (rewrite length_linspace_raw; lia).
      injection Hi as <-. rewrite Hcom.
      replace (Z.of_nat i) with (N - 1)%Z by lia. reflexivity.
    + rewrite list_lookup_insert_ne in Hi by lia.
      rewrite lookup_linspace_raw in Hi by lia. injection Hi as <-.
      rewrite Hcom. field.
      assert (0 < inject_Z (N - 1)) by (apply Hpos; lia). lra.
Qed.

Lemma on_line_at_grid_time (x0 c : vec) t0 tf h tp (i : nat) t x :
  t0 <= tf -> 0 < h -> commensurate t0 tf h ->
  linspace t0 tf (grid_len t0 tf h) = Ok tp -> tp !! i = Some t ->
  veq x (vadd x0 (vscale (inject_Z (Z.of_nat i) * h) c)) ->
  veq x (exact_line x0 c t0 t).
Proof.
  intros Ht Hh Hcom Htp Hi Hx.
  apply veq_trans with (1 := Hx). unfold exact_line.
  apply line_scalar. symmetry.
  exact (grid_point_commensurate t0 tf h tp i t Ht Hh Hcom Htp Hi).
Qed.

(** With a constant derivative [c] every integrator advances by [h*c]
    per step, whatever the grid times are: row [i] is [x0 + (i*h)*c].
    The implicit methods need a solver that finds the roots of [c' - x]
    and of [x - c']. *)
Lemma constant_derivative_rows (c x0 : vec) hybr t0 tf h :
  t0 <= tf -> 0 < h -> length c = length x0 ->
  let f : vec -> Q -> vec := fun _ _ => c in
  let P (tp : list Q) (sol : list vec) :=
    linspace t0 tf (grid_len t0 tf h) = Ok tp /\
    length sol = Z.to_nat (grid_len t0 tf h) /\
    forall i x, sol !! i = Some x ->
                veq x (vadd x0 (vscale (inject_Z (Z.of_nat i) * h) c)) in
  returns_with (adams_bashforth_2 f x0 t0 tf h []) P /\
  returns_with (adams_bashforth_4 f x0 t0 tf h []) P /\
  (solver_shape hybr -> exact_on_shifts hybr -> exact_on_offsets hybr ->
   returns_with (adams_moulton_2 f hybr x0 t0 tf h []) P /\
   returns_with (custom_dirk_method f hybr x0 t0 tf h []) P).
Proof.
  intros Ht Hh Hc f P.
  assert (shape_preserving (length x0) f) as Hf by (intros x t _; exact Hc).
  assert (forall tp sol,
            linspace t0 tf (grid_len t0 tf h) = Ok tp ->
            length sol = Z.to_nat (grid_len t0 tf h) ->
            sol !! 0%nat = Some x0 ->
            (forall i, (1 <= i < length sol)%nat ->
               exists x s u, sol !! i = Some x /\ sol !! (i - 1)%nat = Some s /\
                             veq x (vadd s u) /\ veq u (vscale h c)) ->
            P tp sol) as HP.
  { intros tp sol Htp Hlen H0 Hstep. split; [exact Htp|]. split; [exact Hlen|].
    exact (rows_on_line x0 c h sol Hc H0 Hstep). }
  split; [|split; [|intros Hs Hshift Hoff; split]].
  - destruct (ab2_run f x0 t0 tf h [] Ht Hh Hf)
      as (tp & sol & tr & Hrun & Htp & Hlen & _ & H0 & H1 & Hsteps).
    exists tp, sol, tr. split; [exact Hrun|]. apply HP; auto.
    intros i Hi. destruct (Nat.eq_dec i 1%nat) as [->|Hne].
    + exists (euler_step f h x0 t0), x0, (vscale h c).
      repeat split; [apply H1; lia | exact H0 | apply veq_refl | apply veq_refl].
    + destruct (Hsteps i) as (x & Hx & s1 & s2 & t1 & t2 & A & _ & _ & _ & E);
        [lia|].
      exists x, s1, (vscale h (vsub (vscale (3 # 2) c) (vscale (1 # 2) c))).
      repeat split; [exact Hx | exact A | rewrite E; apply veq_refl
                    | apply ab2_increment].
  - destruct (ab4_run f x0 t0 tf h [] Ht Hh Hf)
      as (tp & sol & tr & Hrun & Htp & Hlen & _ & H0 & Hrk & Hsteps).
    exists tp, sol, tr. split; [exact Hrun|]. apply HP; auto.
    intros i Hi. destruct (Nat.lt_ge_cases i 4%nat) as [Hlt|Hge].
    + destruct (Hrk i) as (x & Hx & s1 & t1 & A & _ & E); [lia|].
      exists x, s1,
        (vdiv (vscale h (vadd (vadd (vadd c (vscale 2 c)) (vscale 2 c)) c)) 6).
      repeat split; [exact Hx | exact A | rewrite E; apply veq_refl
                    | apply rk4_increment].
    + destruct (Hsteps i)
        as (x & Hx & s1 & s2 & s3 & s4 & t1 & t2 & t3 & t4 & A & H); [lia|].
      exists x, s1,
        (vscale h (vsub (vadd (vsub (vscale (55 / 24) c) (vscale (59 / 24) c))
                              (vscale (37 / 24) c))
                        (vscale (9 / 24) c))).
      repeat split; [exact Hx | exact A | | apply ab4_increment].
      replace x with (ab4_formula h s1 c c c c) by (symmetry; apply H).
      apply veq_refl.
  - destruct (am2_run f hybr x0 t0 tf h [] Ht Hh Hf Hs)
      as (tp & sol & tr & Hrun & Htp & Hlen & Hrows & H0 & H1 & Hsteps).
    exists tp, sol, tr. split; [exact Hrun|]. apply HP; auto.
    intros i Hi. destruct (Nat.eq_dec i 1%nat) as [->|Hne].
    + exists (euler_step f h x0 t0), x0, (vscale h c).
      repeat split; [apply H1; lia | exact H0 | apply veq_refl | apply veq_refl].
    + destruct (Hsteps i) as (x & Hx & s1 & t1 & t & ier & A & _ & _ & E);
        [lia|].
      pose proof (Forall_lookup_1 _ _ _ _ Hrows A) as L1. cbn beta in L1.
      exists x, s1, (vscale h (vadd (vscale (1 # 2) c) (vscale (1 # 2) c))).
      repeat split; [exact Hx | exact A | | apply am2_increment].
      rewrite <- (iterate_of_answer _ _ _ _ _ E).
      apply Hoff; [vlen | reflexivity].
  - destruct (dirk_run f hybr x0 t0 tf h [] Ht Hh Hf Hs)
      as (tp & sol & tr & Hrun & Htp & Hlen & Hrows & H0 & Hsteps).
    exists tp, sol, tr. split; [exact Hrun|]. apply HP; auto.
    intros i Hi.
    destruct (Hsteps i) as (x & Hx & s1 & t1 & ier & A & _ & E); [lia|].
    pose proof (Forall_lookup_1 _ _ _ _ Hrows A) as L1. cbn beta in L1.
    destruct (dirk_k1_answer f hybr _ h s1 t1 Hf Hs L1) as (ier' & _ & Lk).
    exists x, s1, (vscale h (dirk_k1 f hybr h s1 t1)).
    repeat split; [exact Hx | exact A | |].
    + rewrite <- (iterate_of_answer _ _ _ _ _ E).
      apply Hshift; [vlen | reflexivity].
    + apply vscale_veq; [reflexivity|].
      unfold dirk_k1. apply Hshift; reflexivity.
Qed.

(** The exactness law on a grid that is spaced by [h]: with a constant
    derivative [c] every row of each integrator's trajectory is
    [x0 + c*(t - t0)] at its grid time [t]. *)
Lemma constant_derivative_on_commensurate_grid (c x0 : vec) hybr t0 tf h :
  t0 <= tf -> 0 < h -> length c = length x0 -> commensurate t0 tf h ->
  let f : vec -> Q -> vec := fun _ _ => c in
  let P (tp : list Q) (sol : list vec) :=
    forall i t x, tp !! i = Some t -> sol !! i = Some x ->
                  veq x (exact_line x0 c t0 t) in
  returns_with (adams_bashforth_2 f x0 t0 tf h []) P /\
  returns_with (adams_bashforth_4 f x0 t0 tf h []) P /\
  (solver_shape hybr -> exact_on_shifts hybr -> exact_on_offsets hybr ->
   returns_with (adams_moulton_2 f hybr x0 t0 tf h []) P /\
   returns_with (custom_dirk_method f hybr x0 t0 tf h []) P).
Proof.
  intros Ht Hh Hc Hcom f P.
  assert (forall {T} (r : result (list Q * list vec * T)),
            returns_with r (fun tp sol =>
              linspace t0 tf (grid_len t0 tf h) = Ok tp /\
              length sol = Z.to_nat (grid_len t0 tf h) /\
              forall i x, sol !! i = Some x ->
                veq x (vadd x0 (vscale (inject_Z (Z.of_nat i) * h) c))) ->
            returns_with r P) as HP.
  { intros T r (tp & sol & tr & Hrun & Htp & _ & Hrows).
    exists tp, sol, tr. split; [exact Hrun|]. intros i t x Hi Hx.
    apply (on_line_at_grid_time x0 c t0 tf h tp i t x Ht Hh Hcom Htp Hi).
    now apply Hrows. }
  destruct (constant_derivative_rows c x0 hybr t0 tf h Ht Hh Hc)
    as (H2 & H4 & Himp).
  split; [now apply HP|]. split; [now apply HP|].
  intros Hs Hshift Hoff. destruct (Himp Hs Hshift Hoff) as [Ham Hdirk].
  split; now apply HP.
Qed.

(** ** The example inputs are well formed *)

Lemma f_decay_shape d : shape_preserving d f_decay.
Proof. intros x t Hx. unfold f_decay. now rewrite length_map. Qed.

Lemma f_const1_shape : shape_preserving 1 f_const1.
Proof. intros x t Hx. reflexivity. Qed.

Lemma secant_shape : solver_shape secant.
Proof.
  intros y0. apply ws_query; [reflexivity|].
  intros r0 Hr0. apply ws_query; [apply length_map|].
  intros r1 Hr1. apply ws_return; [|lia].
  rewrite length_vsub; [reflexivity|]. rewrite length_zip_with. lia.
Qed.

Lemma stall_shape : solver_shape stall.
Proof.
  intros y0. apply ws_query; [reflexivity|].
  intros r Hr. apply ws_return; [reflexivity | lia].
Qed.

Lemma secant_step_on_shift (y c : vec) :
  length c = length y ->
  veq (vsub y (zip_with (fun a b => a / (b - a))
                 (vsub c y) (vsub c (map (Qplus 1) y)))) c.
Proof.
  revert c. induction y as [|a y IH]; intros [|b c] H; try discriminate.
  - constructor.
  - cbn. constructor; [field; lra | apply IH; now inversion H].
Qed.

Lemma secant_exact : exact_on_shifts secant.
Proof.
  intros y0 c g Hc Hg. unfold iterate_of, secant. cbn [answer].
  rewrite !Hg by (try apply length_map; reflexivity).
  now apply secant_step_on_shift.
Qed.

Lemma secant_step_on_offset (y c : vec) :
  length c = length y ->
  veq (vsub y (zip_with (fun a b => a / (b - a))
                 (vsub y c) (vsub (map (Qplus 1) y) c))) c.
Proof.
  revert c. induction y as [|a y IH]; intros [|b c] H; try discriminate.
  - constructor.
  - cbn. constructor; [field; lra | apply IH; now inversion H].
Qed.

Lemma secant_exact_offsets : exact_on_offsets secant.
Proof.
  intros y0 c g Hc Hg. unfold iterate_of, secant. cbn [answer].
  rewrite !Hg by (try apply length_map; reflexivity).
  now apply secant_step_on_offset.
Qed.

Lemma ex_results_keys : NoDup (map fst ex_results).
Proof.
  cbn. apply NoDup_cons_2; [|apply NoDup_singleton].
  intros H. apply list_elem_of_singleton in H. discriminate.
Qed.

Lemma ex_results_shape method t sol :
  In (method, (t, sol)) ex_results ->
  length sol = 2%nat /\ rows_len 2 sol.
Proof.
  intros [H|[H|[]]]; injection H as <- <- <-;
    (split; [reflexivity | repeat constructor]).
Qed.

(** ** The computed number of grid points *)

Lemma pow2_pos e : 0 < pow2 e.
Proof.
  unfold pow2. destruct (0 <=? e)%Z eqn:E.
  - apply Z.leb_le in E. rewrite <- (Zlt_Qlt 0). apply Z.pow_pos_nonneg; lia.
  - apply Z.leb_gt in E. apply Qlt_shift_div_l.
    + rewrite <- (Zlt_Qlt 0). apply Z.pow_pos_nonneg; lia.
    + lra.
Qed.

Lemma round_half_even_nonneg q : 0 <= q -> (0 <= round_half_even q)%Z.
Proof.
  intros Hq. pose proof (Qfloor_resp_le _ _ Hq) as H.
  change (Qfloor 0) with 0%Z in H. unfold round_half_even.
  destruct (Qcompare _ _); [destruct (Z.even _)| |]; lia.
Qed.

(** binary64 rounding keeps the sign. *)
Lemma binary64_keeps_sign : keeps_sign binary64.
Proof.
  intros q Hq. cbn [fl binary64]. unfold binary64_round.
  destruct (Qeq_bool q 0); [lra|].
  set (e := Z.max _ _). pose proof (pow2_pos e) as He.
  assert (0 <= q / pow2 e) as Hd by (apply Qle_shift_div_l; lra).
  pose proof (round_half_even_nonneg _ Hd) as Hr.
  apply Qmult_le_0_compat; [|lra].
  rewrite <- (Zle_Qle 0). exact Hr.
Qed.

Lemma exact_keeps_sign : keeps_sign exact_arithmetic.
Proof. intros q Hq. exact Hq. Qed.

Lemma num_steps_of_computed {R : Rounding} t0 tf h tr :
  ~ h == 0 -> num_steps_of t0 tf h tr = Ok (num_steps t0 tf h, tr).
Proof.
  intros Hh. unfold num_steps_of, py_div.
  destruct (Qeq_bool h 0) eqn:E; [|reflexivity].
  apply Qeq_bool_eq in E. contradiction.
Qed.

Lemma num_steps_pos {R : Rounding} t0 tf h :
  keeps_sign R -> t0 <= tf -> 0 < h -> (1 <= num_steps t0 tf h)%Z.
Proof.
  intros HR Ht Hh. unfold num_steps.
  assert (0 <= fl (tf - t0)) as Hd by (apply HR; lra).
  assert (0 <= fl (fl (tf - t0) / h)) as Hq
    by (apply HR, Qle_shift_div_l; lra).
  rewrite (py_int_floor _ Hq).
  pose proof (Qfloor_resp_le _ _ Hq) as H.
  change (Qfloor 0) with 0%Z in H. lia.
Qed.

(** Without rounding the code computes [floor((tf - t0)/h) + 1]. *)
Lemma num_steps_exact t0 tf h :
  t0 <= tf -> 0 < h ->
  num_steps (R := exact_arithmetic) t0 tf h = grid_len t0 tf h.
Proof.
  intros Ht Hh. unfold num_steps, grid_len. cbn [fl exact_arithmetic].
  now rewrite (py_int_floor _ (quotient_nonneg t0 tf h Ht Hh)).
Qed.

(** ** Loops that fill the trajectory, with what they leave in the trace *)

Section StepLoop.

Variables (d n b : nat).
Variable body : nat -> list vec -> M (list vec).
Variable step : nat -> list vec -> vec -> trace -> Prop.

Hypothesis body_step : forall i sol tr,
  length sol = n -> rows_len d sol -> (b <= i < n)%nat ->
  exists x ev, body i sol tr = Ok (<[i:=x]> sol, tr ++ ev) /\
               length x = d /\ step i sol x ev.

Hypothesis step_stable : forall i sol sol' x ev,
  (b <= i)%nat -> (forall j, (j < i)%nat -> sol' !! j = sol !! j) ->
  step i sol x ev -> step i sol' x ev.

Lemma for_each_steps : forall k lo sol tr,
  (b <= lo)%nat -> (lo + k <= n)%nat -> length sol = n -> rows_len d sol ->
  exists sol' evs,
    for_each (seq lo k) body sol tr = Ok (sol', tr ++ concat evs) /\
    length sol' = n /\ rows_len d sol' /\
    (forall j, (j < lo)%nat -> sol' !! j = sol !! j) /\
    Forall2 (fun i ev => exists x, sol' !! i = Some x /\ step i sol' x ev)
      (seq lo k) evs.
Proof.
  induction k as [|k IH]; intros lo sol tr Hb Hk Hlen Hrows.
  - exists sol, []. cbn. rewrite app_nil_r. repeat split; auto.
  - destruct (body_step lo sol tr Hlen Hrows) as (x & ev & Hbody & Hx & Hev);
      [lia|].
    destruct (IH (S lo) (<[lo:=x]> sol) (tr ++ ev)) as
      (sol' & evs & Hrun & Hlen' & Hrows' & Hlow & Hevs);
      [lia | lia | now rewrite length_insert | now apply rows_len_insert |].
    assert (forall j, (j < lo)%nat -> sol' !! j = sol !! j) as Hsame
      by (intros j Hj; rewrite Hlow by lia; apply list_lookup_insert_ne; lia).
    exists sol', (ev :: evs). cbn [seq for_each concat].
    rewrite (bind_Ok _ _ _ _ _ Hbody), app_assoc.
    split; [exact Hrun|]. split; [exact Hlen'|]. split; [exact Hrows'|].
    split; [exact Hsame|]. constructor; [|exact Hevs].
    exists x. split.
    + rewrite Hlow by lia. apply list_lookup_insert_eq. lia.
    + apply step_stable with (sol := sol); [lia | exact Hsame | exact Hev].
Qed.

Lemma for_range_steps lo hi sol tr :
  (b <= lo)%nat -> (hi <= n)%nat -> length sol = n -> rows_len d sol ->
  exists sol' evs,
    for_range lo hi body sol tr = Ok (sol', tr ++ concat evs) /\
    length sol' = n /\ rows_len d sol' /\
    (forall j, (j < lo)%nat -> sol' !! j = sol !! j) /\
    Forall2 (fun i ev => exists x, sol' !! i = Some x /\ step i sol' x ev)
      (seq lo (hi - lo)) evs.
Proof.
  intros Hb Hhi Hlen Hrows. unfold for_range.
  destruct (Nat.le_gt_cases lo hi) as [Hle|Hgt].
  - apply for_each_steps; auto. lia.
  - replace (hi - lo)%nat with 0%nat by lia.
    exists sol, []. cbn. rewrite app_nil_r. repeat split; auto.
Qed.

End StepLoop.

(** Step [i] of a loop, among the steps of the whole loop. *)
Lemma step_of_loop (Rl : nat -> trace -> Prop) k lo (evs : list trace) i :
  Forall2 Rl (seq lo k) evs -> (lo <= i < lo + k)%nat ->
  exists ev, Rl i ev /\ forall e, In e ev -> In e (concat evs).
Proof.
  revert lo evs. induction k as [|k IH]; intros lo evs H Hi; [lia|].
  cbn [seq] in H. inversion H as [|? ev ? evs' Hlo Hrest]; subst.
  destruct (Nat.eq_dec i lo) as [->|Hne].
  - exists ev. split; [exact Hlo|]. intros e He. cbn [concat].
    apply in_or_app. now left.
  - destruct (IH (S lo) evs' Hrest) as (ev' & Hev' & Hin); [lia|].
    exists ev'. split; [exact Hev'|]. intros e He. cbn [concat].
    apply in_or_app. right. now apply Hin.
Qed.

(** The events of a whole loop, from those of its steps. *)
Lemma concat_evaluations (P : event -> Prop) (c : nat)
  (Rl : nat -> trace -> Prop) (idx : list nat) (evs : list trace) :
  (forall i ev, Rl i ev -> length ev = c /\ Forall P ev) ->
  Forall2 Rl idx evs ->
  length (concat evs) = (c * length idx)%nat /\ Forall P (concat evs).
Proof.
  intros HR H. induction H as [|i ev idx evs Hi _ [IHl IHp]].
  - cbn. split; [lia | constructor].
  - destruct (HR i ev Hi) as [Hl Hp]. cbn [concat length].
    rewrite length_app, Hl, IHl. split; [lia|].
    apply Forall_app. auto.
Qed.

Lemma concat_all (P : event -> Prop)
  (Rl : nat -> trace -> Prop) (idx : list nat) (evs : list trace) :
  (forall i ev, Rl i ev -> Forall P ev) ->
  Forall2 Rl idx evs -> Forall P (concat evs).
Proof.
  intros HR H. induction H as [|i ev idx evs Hi _ IH]; [constructor|].
  cbn [concat]. apply Forall_app. split; [exact (HR i ev Hi) | exact IH].
Qed.

(** ** The explicit integrators under rounding *)

Lemma ab2_body_step f d n tp h :
  shape_preserving d f -> length tp = n ->
  forall i sol tr,
    length sol = n -> rows_len d sol -> (2 <= i < n)%nat ->
    exists x ev, ab2_body f tp h i sol tr = Ok (<[i:=x]> sol, tr ++ ev) /\
      length x = d /\
      (ab2_step f tp h i sol x /\ length ev = 2%nat /\
       Forall (fun e => at_dimension d e /\ at_grid_point_before tp sol i e)
         ev).
Proof.
  intros Hf Htp i sol tr Hlen Hrows Hi.
  destruct (lookup_lt_is_Some_2 tp i) as [t Ht]; [lia|].
  destruct (lookup_lt_is_Some_2 tp (i - 1)) as [t1 Ht1]; [lia|].
  destruct (lookup_lt_is_Some_2 tp (i - 2)) as [t2 Ht2]; [lia|].
  destruct (lookup_lt_is_Some_2 sol (i - 1)) as [s1 Hs1]; [lia|].
  destruct (lookup_lt_is_Some_2 sol (i - 2)) as [s2 Hs2]; [lia|].
  pose proof (Forall_lookup_1 _ _ _ _ Hrows Hs1) as L1.
  pose proof (Forall_lookup_1 _ _ _ _ Hrows Hs2) as L2.
  cbn beta in L1, L2.
  pose proof (Hf s1 t1 L1) as F1. pose proof (Hf s2 t2 L2) as F2.
  exists (ab2_formula f h s1 t1 s2 t2), [Call s1 t1; Call s2 t2].
  split; [|split; [|split; [|split]]].
  - unfold ab2_body. repeat mstep. rewrite <- app_assoc.
    apply lift_Ok. eapply set_row_Ok; [exact Hrows | lia |].
    unfold ab2_formula. vlen.
  - unfold ab2_formula. vlen.
  - exists s1, s2, t1, t2. auto.
  - reflexivity.
  - repeat constructor; [exact L1 | | exact L2 |].
    + exists (i - 1)%nat. repeat split; [lia | exact Hs1 | exact Ht1].
    + exists (i - 2)%nat. repeat split; [lia | exact Hs2 | exact Ht2].
Qed.

Lemma ab2_events_stable f d (tp : list Q) h (i : nat) (sol sol' : list vec)
  (x : vec) (ev : trace) :
  (2 <= i)%nat -> (forall j, (j < i)%nat -> sol' !! j = sol !! j) ->
  ab2_step f tp h i sol x /\ length ev = 2%nat /\
  Forall (fun e => at_dimension d e /\ at_grid_point_before tp sol i e) ev ->
  ab2_step f tp h i sol' x /\ length ev = 2%nat /\
  Forall (fun e => at_dimension d e /\ at_grid_point_before tp sol' i e) ev.
Proof.
  intros Hi Hsame (Hstep & Hl & Hall).
  split; [now apply ab2_step_frame with (sol := sol)|]. split; [exact Hl|].
  eapply Forall_impl; [exact Hall|].
  intros [y t|w] [He Hg]; split; try exact He; [|destruct Hg].
  destruct Hg as (j & Hj & Hs & Ht). exists j. rewrite Hsame by exact Hj. auto.
Qed.

Lemma at_grid_point_before_weaken tp sol i e :
  at_grid_point_before tp sol i e -> at_grid_point tp sol e.
Proof.
  destruct e as [y t|w]; [|exact (fun H => H)].
  intros (j & _ & Hs & Ht). exists j, t.
  split; [exact Hs|]. split; [exact Ht | reflexivity].
Qed.

(** The statements shared by the four integrators: the number of steps,
    the grid and the first row. *)
Lemma grid_and_zeros {R : Rounding} (x0 : vec) t0 tf h :
  keeps_sign R -> t0 <= tf -> 0 < h ->
  exists tp,
    linspace t0 tf (num_steps t0 tf h) = Ok tp /\
    length tp = Z.to_nat (num_steps t0 tf h) /\
    (1 <= Z.to_nat (num_steps t0 tf h))%nat /\
    (exists t, tp !! 0%nat = Some t /\ t == t0).
Proof.
  intros HR Ht Hh.
  pose proof (num_steps_pos t0 tf h HR Ht Hh) as HN.
  destruct (linspace_total t0 tf _ HN) as [tp Htp].
  exists tp. split; [exact Htp|].
  split; [exact (linspace_length _ _ _ _ HN Htp)|]. split; [lia|].
  exact (linspace_first _ _ _ _ HN Htp).
Qed.

Lemma ab2_rounded {R : Rounding} f x0 t0 tf h tr :
  keeps_sign R -> t0 <= tf -> 0 < h -> shape_preserving (length x0) f ->
  exists tp sol ev,
    adams_bashforth_2 f x0 t0 tf h tr = Ok (tp, sol, tr ++ ev) /\
    linspace t0 tf (num_steps t0 tf h) = Ok tp /\
    length tp = Z.to_nat (num_steps t0 tf h) /\
    length sol = length tp /\
    rows_len (length x0) sol /\
    sol !! 0%nat = Some x0 /\
    ((1 < length sol)%nat -> sol !! 1%nat = Some (euler_step f h x0 t0)) /\
    (forall i, (2 <= i < length sol)%nat ->
               exists x, sol !! i = Some x /\ ab2_step f tp h i sol x) /\
    length ev = (2 * length tp - 3)%nat /\
    Forall (fun e => at_dimension (length x0) e /\ at_grid_point tp sol e) ev.
Proof.
  intros HR Ht Hh Hf.
  destruct (grid_and_zeros x0 t0 tf h HR Ht Hh)
    as (tp & Htp & Ltp & Hn & t0' & Ht0' & Et0).
  set (N := num_steps t0 tf h) in *. set (n := Z.to_nat N) in *.
  set (sol0 := <[0%nat:=x0]> (np_zeros n (length x0))).
  assert (length sol0 = n) as L0
    by (unfold sol0; now rewrite length_insert, length_zeros).
  assert (rows_len (length x0) sol0) as R0
    by (apply rows_len_insert; [apply rows_len_zeros | reflexivity]).
  assert (sol0 !! 0%nat = Some x0) as Z0
    by (apply list_lookup_insert_eq; rewrite length_zeros; lia).
  assert (~ h == 0) as Hne by lra.
  unfold adams_bashforth_2.
  rewrite (bind_Ok _ _ _ _ _ (num_steps_of_computed t0 tf h tr Hne)).
  fold N. rewrite (bind_lift_Ok _ _ _ _ Htp). fold n.
  rewrite (bind_lift_Ok _ _ _ _ (first_row n x0 Hn)). fold sol0.
  destruct (1 <? N)%Z eqn:E.
  - apply Z.ltb_lt in E.
    pose proof (Hf x0 t0 eq_refl) as F0.
    set (sol1 := <[1%nat:=euler_step f h x0 t0]> sol0).
    assert (length (euler_step f h x0 t0) = length x0) as Le
      by (unfold euler_step; vlen).
    assert (length sol1 = n) as L1 by (unfold sol1; now rewrite length_insert).
    assert (rows_len (length x0) sol1) as R1
      by (now apply rows_len_insert).
    destruct (for_range_steps (length x0) n 2 (ab2_body f tp h) _
                (ab2_body_step f (length x0) n tp h Hf Ltp)
                (ab2_events_stable f (length x0) tp h)
                2 n sol1 (tr ++ [Call x0 t0]))
      as (sol & evs & Hrun & Hlen & Hrows & Hlow & Hevs);
      [lia | lia | exact L1 | exact R1 |].
    destruct (concat_evaluations
                (fun e => at_dimension (length x0) e /\ at_grid_point tp sol e)
                2 _ _ _
                (fun i ev H =>
                   match H with
                   | ex_intro _ x (conj _ (conj _ (conj Hl Hall))) =>
                       conj Hl
                         (Forall_impl _ _ _ Hall
                            (fun e He =>
                               conj (proj1 He)
                                 (at_grid_point_before_weaken tp sol i e
                                    (proj2 He))))
                   end)
                Hevs) as [Hcount Hall].
    exists tp, sol, (Call x0 t0 :: concat evs).
    unfold bind at 1. rewrite bind_call_f.
    erewrite bind_lift_Ok by (apply np_add_Ok; vlen).
    erewrite bind_lift_Ok by
      (apply set_row_Ok with (d := length x0); [exact R0 | lia | exact Le]).
    fold (euler_step f h x0 t0). fold sol1.
    rewrite Hrun. cbn [ret]. rewrite <- app_assoc. cbn [app].
    split; [reflexivity|]. split; [exact Htp|]. split; [exact Ltp|].
    split; [lia|]. split; [exact Hrows|]. split; [|split; [|split; [|split]]].
    + rewrite Hlow by lia. unfold sol1.
      rewrite list_lookup_insert_ne by lia. exact Z0.
    + intros _. rewrite Hlow by lia. unfold sol1.
      apply list_lookup_insert_eq. lia.
    + intros i Hi.
      destruct (step_of_loop _ _ _ _ i Hevs) as (ev & (x & Hx & Hs & _) & _);
        [lia|].
      exists x. auto.
    + cbn [length]. rewrite Hcount, length_seq. lia.
    + constructor; [|exact Hall]. split; [reflexivity|].
      exists 0%nat, t0'. split; [|split; [exact Ht0' | exact Et0]].
      rewrite Hlow by lia. unfold sol1.
      rewrite list_lookup_insert_ne by lia. exact Z0.
  - apply Z.ltb_ge in E. exists tp, sol0, []. rewrite bind_ret, app_nil_r.
    split; [reflexivity|]. split; [exact Htp|]. split; [exact Ltp|].
    split; [lia|]. split; [exact R0|]. split; [exact Z0|].
    split; [intros H; lia|]. split; [intros i Hi; lia|].
    split; [|constructor]. cbn [length]. lia.
Qed.

Lemma ab4_rk4_body_step f d n tp h :
  shape_preserving d f -> length tp = n ->
  forall i sol tr,
    length sol = n -> rows_len d sol -> (1 <= i < n)%nat ->
    exists x ev, ab4_rk4_body f tp h i sol tr = Ok (<[i:=x]> sol, tr ++ ev) /\
      length x = d /\
      (rk4_row f tp h i sol x /\ length ev = 4%nat /\
       Forall (at_dimension d) ev).
Proof.
  intros Hf Htp i sol tr Hlen Hrows Hi.
  destruct (lookup_lt_is_Some_2 tp (i - 1)) as [t Ht]; [lia|].
  destruct (lookup_lt_is_Some_2 sol (i - 1)) as [s1 Hs1]; [lia|].
  pose proof (Forall_lookup_1 _ _ _ _ Hrows Hs1) as L1. cbn beta in L1.
  set (k1 := f s1 t).
  set (a2 := vadd s1 (vscale ((1 # 2) * h) k1)).
  set (k2 := f a2 (t + (1 # 2) * h)).
  set (a3 := vadd s1 (vscale ((1 # 2) * h) k2)).
  set (k3 := f a3 (t + (1 # 2) * h)).
  set (a4 := vadd s1 (vscale h k3)).
  set (k4 := f a4 (t + h)).
  assert (length k1 = d) as F1 by (apply Hf; exact L1).
  assert (length a2 = d) as A2 by (unfold a2; vlen).
  assert (length k2 = d) as F2 by (apply Hf; exact A2).
  assert (length a3 = d) as A3 by (unfold a3; vlen).
  assert (length k3 = d) as F3 by (apply Hf; exact A3).
  assert (length a4 = d) as A4 by (unfold a4; vlen).
  assert (length k4 = d) as F4 by (apply Hf; exact A4).
  assert (length (rk4_step f h s1 t) = d) as Lx
    by (unfold rk4_step; fold k1 a2 k2 a3 k3 a4 k4; vlen).
  exists (rk4_step f h s1 t),
    [Call s1 t; Call a2 (t + (1 # 2) * h); Call a3 (t + (1 # 2) * h);
     Call a4 (t + h)].
  split; [|split; [|split; [|split]]].
  - unfold ab4_rk4_body.
    mstep. mstep. mstep. fold k1.
    mstep. mstep. fold a2. mstep. fold k2.
    mstep. mstep. fold a3. mstep. fold k3.
    mstep. mstep. fold a4. mstep. fold k4.
    repeat mstep. rewrite <- !app_assoc.
    apply lift_Ok. eapply set_row_Ok; [exact Hrows | lia | exact Lx].
  - exact Lx.
  - exists s1, t. auto.
  - reflexivity.
  - repeat constructor; assumption.
Qed.

Lemma ab4_body_step f d n tp h :
  shape_preserving d f -> length tp = n ->
  forall i sol tr,
    length sol = n -> rows_len d sol -> (4 <= i < n)%nat ->
    exists x ev, ab4_body f tp h i sol tr = Ok (<[i:=x]> sol, tr ++ ev) /\
      length x = d /\
      (ab4_step f tp h i sol x /\ length ev = 4%nat /\
       Forall (at_dimension d) ev).
Proof.
  intros Hf Htp i sol tr Hlen Hrows Hi.
  destruct (lookup_lt_is_Some_2 tp i) as [t Ht]; [lia|].
  destruct (lookup_lt_is_Some_2 tp (i - 1)) as [t1 Ht1]; [lia|].
  destruct (lookup_lt_is_Some_2 tp (i - 2)) as [t2 Ht2]; [lia|].
  destruct (lookup_lt_is_Some_2 tp (i - 3)) as [t3 Ht3]; [lia|].
  destruct (lookup_lt_is_Some_2 tp (i - 4)) as [t4 Ht4]; [lia|].
  destruct (lookup_lt_is_Some_2 sol (i - 1)) as [s1 Hs1]; [lia|].
  destruct (lookup_lt_is_Some_2 sol (i - 2)) as [s2 Hs2]; [lia|].
  destruct (lookup_lt_is_Some_2 sol (i - 3)) as [s3 Hs3]; [lia|].
  destruct (lookup_lt_is_Some_2 sol (i - 4)) as [s4 Hs4]; [lia|].
  pose proof (Forall_lookup_1 _ _ _ _ Hrows Hs1) as L1.
  pose proof (Forall_lookup_1 _ _ _ _ Hrows Hs2) as L2.
  pose proof (Forall_lookup_1 _ _ _ _ Hrows Hs3) as L3.
  pose proof (Forall_lookup_1 _ _ _ _ Hrows Hs4) as L4.
  cbn beta in L1, L2, L3, L4.
  pose proof (Hf s1 t1 L1) as F1. pose proof (Hf s2 t2 L2) as F2.
  pose proof (Hf s3 t3 L3) as F3. pose proof (Hf s4 t4 L4) as F4.
  assert (length (ab4_formula h s1 (f s1 t1) (f s2 t2) (f s3 t3) (f s4 t4)) = d)
    as Lx by (unfold ab4_formula; vlen).
  eexists. exists [Call s1 t1; Call s2 t2; Call s3 t3; Call s4 t4].
  split; [|split; [|split; [|split]]].
  - unfold ab4_body. mstep.
    rewrite (bind_ab4_k f tp i sol 1 s1 t1) by assumption.
    rewrite (bind_ab4_k f tp i sol 2 s2 t2) by assumption.
    rewrite (bind_ab4_k f tp i sol 3 s3 t3) by assumption.
    rewrite (bind_ab4_k f tp i sol 4 s4 t4) by assumption.
    repeat mstep. rewrite <- !app_assoc.
    apply lift_Ok. eapply set_row_Ok; [exact Hrows | lia | exact Lx].
  - exact Lx.
  - exists s1, s2, s3, s4, t1, t2, t3, t4. auto 10.
  - reflexivity.
  - repeat constructor; assumption.
Qed.

Lemma ab4_rounded {R : Rounding} f x0 t0 tf h tr :
  keeps_sign R -> t0 <= tf -> 0 < h -> shape_preserving (length x0) f ->
  exists tp sol ev,
    adams_bashforth_4 f x0 t0 tf h tr = Ok (tp, sol, tr ++ ev) /\
    linspace t0 tf (num_steps t0 tf h) = Ok tp /\
    length tp = Z.to_nat (num_steps t0 tf h) /\
    length sol = length tp /\
    rows_len (length x0) sol /\
    sol !! 0%nat = Some x0 /\
    (forall i, (1 <= i < Nat.min 4 (length sol))%nat ->
               exists x, sol !! i = Some x /\ rk4_row f tp h i sol x) /\
    (forall i, (4 <= i < length sol)%nat ->
               exists x, sol !! i = Some x /\ ab4_step f tp h i sol x) /\
    length ev = (4 * (length tp - 1))%nat /\
    Forall (at_dimension (length x0)) ev.
Proof.
  intros HR Ht Hh Hf.
  destruct (grid_and_zeros x0 t0 tf h HR Ht Hh)
    as (tp & Htp & Ltp & Hn & _).
  set (N := num_steps t0 tf h) in *. set (n := Z.to_nat N) in *.
  set (sol0 := <[0%nat:=x0]> (np_zeros n (length x0))).
  assert (length sol0 = n) as L0
    by (unfold sol0; now rewrite length_insert, length_zeros).
  assert (rows_len (length x0) sol0) as R0
    by (apply rows_len_insert; [apply rows_len_zeros | reflexivity]).
  assert (sol0 !! 0%nat = Some x0) as Z0
    by (apply list_lookup_insert_eq; rewrite length_zeros; lia).
  assert (~ h == 0) as Hne by lra.
  unfold adams_bashforth_4.
  rewrite (bind_Ok _ _ _ _ _ (num_steps_of_computed t0 tf h tr Hne)).
  fold N. rewrite (bind_lift_Ok _ _ _ _ Htp). fold n.
  rewrite (bind_lift_Ok _ _ _ _ (first_row n x0 Hn)). fold sol0.
  destruct (1 <? N)%Z eqn:E.
  - destruct (for_range_steps (length x0) n 1 (ab4_rk4_body f tp h) _
                (ab4_rk4_body_step f (length x0) n tp h Hf Ltp)
                (fun i sol sol' x ev Hi Hsame H =>
                   conj (rk4_row_frame f tp h i sol sol' x Hi Hsame (proj1 H))
                        (proj2 H))
                1 (Nat.min 4 n) sol0 tr)
      as (sola & evsa & Hruna & Hlena & Hrowsa & Hlowa & Hevsa);
      [lia | lia | exact L0 | exact R0 |].
    destruct (for_range_steps (length x0) n 4 (ab4_body f tp h) _
                (ab4_body_step f (length x0) n tp h Hf Ltp)
                (fun i sol sol' x ev Hi Hsame H =>
                   conj (ab4_step_frame f tp h i sol sol' x Hi Hsame (proj1 H))
                        (proj2 H))
                4 n sola (tr ++ concat evsa))
      as (sol & evs & Hrun & Hlen & Hrows & Hlow & Hevs);
      [lia | lia | exact Hlena | exact Hrowsa |].
    destruct (concat_evaluations (at_dimension (length x0)) 4 _ _ _
                (fun i ev H =>
                   match H with
                   | ex_intro _ x (conj _ (conj _ Hc)) => Hc
                   end) Hevsa) as [Hca Hpa].
    destruct (concat_evaluations (at_dimension (length x0)) 4 _ _ _
                (fun i ev H =>
                   match H with
                   | ex_intro _ x (conj _ (conj _ Hc)) => Hc
                   end) Hevs) as [Hc Hp].
    exists tp, sol, (concat evsa ++ concat evs).
    unfold bind at 1. unfold bind at 1.
    rewrite Hruna, Hrun. cbn [ret]. rewrite app_assoc.
    split; [reflexivity|]. split; [exact Htp|]. split; [exact Ltp|].
    split; [lia|]. split; [exact Hrows|]. split; [|split; [|split; [|split]]].
    + rewrite Hlow, Hlowa by lia. exact Z0.
    + intros i Hi. rewrite Hlen in Hi.
      destruct (step_of_loop _ _ _ _ i Hevsa)
        as (ev & (x & Hx & Hs & _) & _); [lia|].
      exists x. split; [rewrite Hlow by lia; exact Hx|].
      apply rk4_row_frame with (sol := sola); [lia | | exact Hs].
      intros j Hj. apply Hlow. lia.
    + intros i Hi.
      destruct (step_of_loop _ _ _ _ i Hevs)
        as (ev & (x & Hx & Hs & _) & _); [lia|].
      exists x. auto.
    + rewrite length_app, Hca, Hc, !length_seq. lia.
    + apply Forall_app. auto.
  - apply Z.ltb_ge in E. exists tp, sol0, []. rewrite bind_ret, app_nil_r.
    split; [reflexivity|]. split; [exact Htp|]. split; [exact Ltp|].
    split; [lia|]. split; [exact R0|]. split; [exact Z0|].
    split; [intros i Hi; lia|]. split; [intros i Hi; lia|].
    split; [|constructor]. cbn [length]. lia.
Qed.

(** ** The implicit integrators under rounding *)

Lemma run_solver_events d s func g :
  well_shaped d s -> evaluates d func g ->
  (forall x, length x = d -> length (g x) = d) ->
  forall tr, exists y ier ev,
    run_solver s func tr = Ok (y, ier, tr ++ ev) /\
    answer s g = Ok (y, ier) /\ length y = d /\ (1 <= ier <= 5)%Z /\
    Forall (at_dimension d) ev.
Proof.
  intros Hs Hfunc Hg. induction Hs as [y ier Hy Hier | x k Hx Hk IH];
    intros tr.
  - exists y, ier, []. rewrite app_nil_r. cbn. auto.
  - destruct (Hfunc x tr Hx) as (ev1 & H1 & P1).
    destruct (IH (g x) (Hg x Hx) (tr ++ ev1))
      as (y & ier & ev2 & Hrun & Hans & Hy & Hier & P2).
    exists y, ier, (ev1 ++ ev2). cbn [run_solver answer].
    rewrite (bind_Ok _ _ _ _ _ H1), app_assoc.
    split; [exact Hrun|]. split; [exact Hans|]. split; [exact Hy|].
    split; [exact Hier|]. apply Forall_app. auto.
Qed.

Lemma fsolve_events hybr d func g y0 :
  solver_shape hybr -> length y0 = d -> evaluates d func g ->
  (forall x, length x = d -> length (g x) = d) ->
  forall tr, exists y ier ev,
    fsolve hybr func y0 tr = Ok (y, tr ++ ev) /\
    answer (hybr y0) g = Ok (y, ier) /\ length y = d /\ (1 <= ier <= 5)%Z /\
    solve_events d ier ev.
Proof.
  intros Hh Hy0 Hfunc Hg tr.
  pose proof (Hh y0) as Hs. rewrite Hy0 in Hs.
  destruct (run_solver_events d _ func g Hs Hfunc Hg tr)
    as (y & ier & ev & Hrun & Hans & Hy & Hier & P).
  exists y, ier.
  exists (ev ++ (if (ier =? 1)%Z then [] else [Warn RuntimeWarning])).
  rewrite (fsolve_Ok _ _ _ _ _ _ _ Hrun Hier), app_assoc.
  split; [reflexivity|]. split; [exact Hans|]. split; [exact Hy|].
  split; [exact Hier|]. split.
  - apply Forall_app. split; [exact P|].
    destruct (ier =? 1)%Z; repeat constructor.
  - intros Hne. apply in_or_app. right.
    destruct (ier =? 1)%Z eqn:E; [lia | now left].
Qed.

Lemma am2_implicit_equation_evaluates f d tp h i sol s1 s2 t1 t2 t :
  shape_preserving d f ->
  sol !! (i - 1)%nat = Some s1 -> sol !! (i - 2)%nat = Some s2 ->
  tp !! (i - 1)%nat = Some t1 -> tp !! (i - 2)%nat = Some t2 ->
  length s1 = d -> length s2 = d ->
  evaluates d (am2_implicit_equation f tp h i sol t) (am2_residual f h s1 t1 t).
Proof.
  intros Hf Hs1 Hs2 Ht1 Ht2 L1 L2 x tr Lx.
  pose proof (Hf s1 t1 L1) as F1. pose proof (Hf s2 t2 L2) as F2.
  pose proof (Hf x t Lx) as Fx.
  exists [Call s1 t1; Call s2 t2; Call x t; Call s1 t1]. split.
  - unfold am2_implicit_equation. repeat mstep. rewrite <- !app_assoc.
    apply lift_Ok. apply np_sub_Ok. vlen.
  - repeat constructor; assumption.
Qed.

Lemma am2_body_step f hybr d n tp h :
  shape_preserving d f -> solver_shape hybr -> length tp = n ->
  forall i sol tr,
    length sol = n -> rows_len d sol -> (2 <= i < n)%nat ->
    exists x ev, am2_body f hybr tp h i sol tr = Ok (<[i:=x]> sol, tr ++ ev) /\
                 length x = d /\ am2_solve f hybr d tp h i sol x ev.
Proof.
  intros Hf Hh Htp i sol tr Hlen Hrows Hi.
  destruct (lookup_lt_is_Some_2 tp i) as [t Ht]; [lia|].
  destruct (lookup_lt_is_Some_2 tp (i - 1)) as [t1 Ht1]; [lia|].
  destruct (lookup_lt_is_Some_2 tp (i - 2)) as [t2 Ht2]; [lia|].
  destruct (lookup_lt_is_Some_2 sol (i - 1)) as [s1 Hs1]; [lia|].
  destruct (lookup_lt_is_Some_2 sol (i - 2)) as [s2 Hs2]; [lia|].
  pose proof (Forall_lookup_1 _ _ _ _ Hrows Hs1) as L1.
  pose proof (Forall_lookup_1 _ _ _ _ Hrows Hs2) as L2.
  cbn beta in L1, L2.
  destruct (fsolve_events hybr d
              (am2_implicit_equation f tp h i sol t)
              (am2_residual f h s1 t1 t) s1 Hh L1
              (am2_implicit_equation_evaluates f d tp h i sol s1 s2 t1 t2 t
                 Hf Hs1 Hs2 Ht1 Ht2 L1 L2)
              (fun x Lx => length_am2_residual f d h s1 t1 t x Hf L1 Lx) tr)
    as (y & ier & ev & Hrun & Hans & Ly & Hier & Hev).
  exists y, ev. split; [|split].
  - unfold am2_body. mstep. mstep. rewrite (bind_Ok _ _ _ _ _ Hrun).
    apply lift_Ok. eapply set_row_Ok; [exact Hrows | lia | exact Ly].
  - exact Ly.
  - exists s1, t1, t, ier. auto 10.
Qed.

Lemma am2_solve_stable f hybr d tp h i sol sol' x ev :
  (2 <= i)%nat -> (forall j, (j < i)%nat -> sol' !! j = sol !! j) ->
  am2_solve f hybr d tp h i sol x ev -> am2_solve f hybr d tp h i sol' x ev.
Proof.
  intros Hi Hsame (s1 & t1 & t & ier & H).
  exists s1, t1, t, ier. rewrite Hsame by lia. exact H.
Qed.

Lemma solve_events_dimension d ier ev :
  solve_events d ier ev -> Forall (at_dimension d) ev.
Proof. now intros [H _]. Qed.

Lemma am2_rounded {R : Rounding} f hybr x0 t0 tf h tr :
  keeps_sign R -> t0 <= tf -> 0 < h -> shape_preserving (length x0) f ->
  solver_shape hybr ->
  exists tp sol ev,
    adams_moulton_2 f hybr x0 t0 tf h tr = Ok (tp, sol, tr ++ ev) /\
    linspace t0 tf (num_steps t0 tf h) = Ok tp /\
    length tp = Z.to_nat (num_steps t0 tf h) /\
    length sol = length tp /\
    rows_len (length x0) sol /\
    sol !! 0%nat = Some x0 /\
    ((1 < length sol)%nat -> sol !! 1%nat = Some (euler_step f h x0 t0)) /\
    (forall i, (2 <= i < length sol)%nat ->
       exists x evi, sol !! i = Some x /\
         am2_solve f hybr (length x0) tp h i sol x evi /\
         forall e, In e evi -> In e ev) /\
    Forall (at_dimension (length x0)) ev.
Proof.
  intros HR Ht Hh Hf Hs.
  destruct (grid_and_zeros x0 t0 tf h HR Ht Hh)
    as (tp & Htp & Ltp & Hn & _).
  set (N := num_steps t0 tf h) in *. set (n := Z.to_nat N) in *.
  set (sol0 := <[0%nat:=x0]> (np_zeros n (length x0))).
  assert (length sol0 = n) as L0
    by (unfold sol0; now rewrite length_insert, length_zeros).
  assert (rows_len (length x0) sol0) as R0
    by (apply rows_len_insert; [apply rows_len_zeros | reflexivity]).
  assert (sol0 !! 0%nat = Some x0) as Z0
    by (apply list_lookup_insert_eq; rewrite length_zeros; lia).
  assert (~ h == 0) as Hne by lra.
  unfold adams_moulton_2.
  rewrite (bind_Ok _ _ _ _ _ (num_steps_of_computed t0 tf h tr Hne)).
  fold N. rewrite (bind_lift_Ok _ _ _ _ Htp). fold n.
  rewrite (bind_lift_Ok _ _ _ _ (first_row n x0 Hn)). fold sol0.
  destruct (1 <? N)%Z eqn:E.
  - apply Z.ltb_lt in E.
    pose proof (Hf x0 t0 eq_refl) as F0.
    set (sol1 := <[1%nat:=euler_step f h x0 t0]> sol0).
    assert (length (euler_step f h x0 t0) = length x0) as Le
      by (unfold euler_step; vlen).
    assert (length sol1 = n) as L1 by (unfold sol1; now rewrite length_insert).
    assert (rows_len (length x0) sol1) as R1
      by (now apply rows_len_insert).
    destruct (for_range_steps (length x0) n 2 (am2_body f hybr tp h) _
                (am2_body_step f hybr (length x0) n tp h Hf Hs Ltp)
                (am2_solve_stable f hybr (length x0) tp h)
                2 n sol1 (tr ++ [Call x0 t0]))
      as (sol & evs & Hrun & Hlen & Hrows & Hlow & Hevs);
      [lia | lia | exact L1 | exact R1 |].
    assert (Forall (at_dimension (length x0)) (concat evs)) as Hall.
    { apply (concat_all _ _ _ _
               (fun i ev H =>
                  match H with
                  | ex_intro _ x (conj _ (ex_intro _ s1 (ex_intro _ t1
                      (ex_intro _ t (ex_intro _ ier
                        (conj _ (conj _ (conj _ (conj _ (conj _ Hev)))))))))) =>
                      solve_events_dimension _ _ _ Hev
                  end) Hevs). }
    exists tp, sol, (Call x0 t0 :: concat evs).
    unfold bind at 1. rewrite bind_call_f.
    erewrite bind_lift_Ok by (apply np_add_Ok; vlen).
    erewrite bind_lift_Ok by
      (apply set_row_Ok with (d := length x0); [exact R0 | lia | exact Le]).
    fold (euler_step f h x0 t0). fold sol1.
    rewrite Hrun. cbn [ret]. rewrite <- app_assoc. cbn [app].
    split; [reflexivity|]. split; [exact Htp|]. split; [exact Ltp|].
    split; [lia|]. split; [exact Hrows|]. split; [|split; [|split]].
    + rewrite Hlow by lia. unfold sol1.
      rewrite list_lookup_insert_ne by lia. exact Z0.
    + intros _. rewrite Hlow by lia. unfold sol1.
      apply list_lookup_insert_eq. lia.
    + intros i Hi.
      destruct (step_of_loop _ _ _ _ i Hevs) as (ev & (x & Hx & Hsv) & Hin);
        [lia|].
      exists x, ev. split; [exact Hx|]. split; [exact Hsv|].
      intros e He. right. now apply Hin.
    + constructor; [reflexivity | exact Hall].
  - apply Z.ltb_ge in E. exists tp, sol0, []. rewrite bind_ret, app_nil_r.
    split; [reflexivity|]. split; [exact Htp|]. split; [exact Ltp|].
    split; [lia|]. split; [exact R0|]. split; [exact Z0|].
    split; [intros H; lia|]. split; [intros i Hi; lia | constructor].
Qed.

Lemma dirk_stage_equation_evaluates f d h i sol s1 t1 :
  shape_preserving d f -> sol !! (i - 1)%nat = Some s1 -> length s1 = d ->
  evaluates d (dirk_stage_equation f h i sol t1)
    (dirk_stage_residual f h s1 t1).
Proof.
  intros Hf Hs1 L1 k1 tr Lk.
  assert (length (vadd s1 (vscale (h * gamma) k1)) = d) as La by vlen.
  pose proof (Hf _ (t1 + h * gamma) La) as Fa.
  exists [Call (vadd s1 (vscale (h * gamma) k1)) (t1 + h * gamma)]. split.
  - unfold dirk_stage_equation. repeat mstep.
    apply lift_Ok. apply np_sub_Ok. vlen.
  - repeat constructor. exact La.
Qed.

Lemma dirk_implicit_equation_evaluates f hybr d h i sol s1 t1 :
  shape_preserving d f -> solver_shape hybr ->
  sol !! (i - 1)%nat = Some s1 -> length s1 = d ->
  evaluates d (dirk_implicit_equation f hybr h i sol t1)
    (dirk_outer_residual f hybr h s1 t1).
Proof.
  intros Hf Hh Hs1 L1 x tr Lx.
  pose proof (Hf s1 t1 L1) as F1.
  destruct (dirk_k1_answer f hybr d h s1 t1 Hf Hh L1) as (ier & Hk & Lk).
  destruct (fsolve_events hybr d (dirk_stage_equation f h i sol t1)
              (dirk_stage_residual f h s1 t1) (f s1 t1) Hh F1
              (dirk_stage_equation_evaluates f d h i sol s1 t1 Hf Hs1 L1)
              (fun k Lk' => length_dirk_stage_residual f d h s1 t1 k Hf L1 Lk')
              (tr ++ [Call s1 t1]))
    as (y & ier' & ev & Hrun & Hans & Ly & _ & Hev).
  assert (y = dirk_k1 f hybr h s1 t1) as -> by congruence.
  exists (Call s1 t1 :: ev). split.
  - unfold dirk_implicit_equation. mstep. mstep.
    rewrite (bind_Ok _ _ _ _ _ Hrun). repeat mstep.
    rewrite <- app_assoc. cbn [app].
    apply lift_Ok. apply np_sub_Ok. vlen.
  - constructor; [exact L1 | exact (solve_events_dimension _ _ _ Hev)].
Qed.

Lemma dirk_body_step f hybr d n tp h :
  shape_preserving d f -> solver_shape hybr -> length tp = n ->
  forall i sol tr,
    length sol = n -> rows_len d sol -> (1 <= i < n)%nat ->
    exists x ev, dirk_body f hybr tp h i sol tr = Ok (<[i:=x]> sol, tr ++ ev) /\
                 length x = d /\ dirk_solve f hybr d tp h i sol x ev.
Proof.
  intros Hf Hh Htp i sol tr Hlen Hrows Hi.
  destruct (lookup_lt_is_Some_2 tp i) as [t Ht]; [lia|].
  destruct (lookup_lt_is_Some_2 tp (i - 1)) as [t1 Ht1]; [lia|].
  destruct (lookup_lt_is_Some_2 sol (i - 1)) as [s1 Hs1]; [lia|].
  pose proof (Forall_lookup_1 _ _ _ _ Hrows Hs1) as L1. cbn beta in L1.
  destruct (fsolve_events hybr d
              (dirk_implicit_equation f hybr h i sol t1)
              (dirk_outer_residual f hybr h s1 t1) s1 Hh L1
              (dirk_implicit_equation_evaluates f hybr d h i sol s1 t1
                 Hf Hh Hs1 L1)
              (fun x Lx =>
                 length_dirk_outer_residual f hybr d h s1 t1 x Hf Hh L1 Lx) tr)
    as (y & ier & ev & Hrun & Hans & Ly & Hier & Hev).
  exists y, ev. split; [|split].
  - unfold dirk_body. mstep. mstep. mstep. rewrite (bind_Ok _ _ _ _ _ Hrun).
    apply lift_Ok. eapply set_row_Ok; [exact Hrows | lia | exact Ly].
  - exact Ly.
  - exists s1, t1, ier. auto 10.
Qed.

Lemma dirk_solve_stable f hybr d tp h i sol sol' x ev :
  (1 <= i)%nat -> (forall j, (j < i)%nat -> sol' !! j = sol !! j) ->
  dirk_solve f hybr d tp h i sol x ev -> dirk_solve f hybr d tp h i sol' x ev.
Proof.
  intros Hi Hsame (s1 & t1 & ier & H).
  exists s1, t1, ier. rewrite Hsame by lia. exact H.
Qed.

Lemma dirk_rounded {R : Rounding} f hybr x0 t0 tf h tr :
  keeps_sign R -> t0 <= tf -> 0 < h -> shape_preserving (length x0) f ->
  solver_shape hybr ->
  exists tp sol ev,
    custom_dirk_method f hybr x0 t0 tf h tr = Ok (tp, sol, tr ++ ev) /\
    linspace t0 tf (num_steps t0 tf h) = Ok tp /\
    length tp = Z.to_nat (num_steps t0 tf h) /\
    length sol = length tp /\
    rows_len (length x0) sol /\
    sol !! 0%nat = Some x0 /\
    (forall i, (1 <= i < length sol)%nat ->
       exists x evi, sol !! i = Some x /\
         dirk_solve f hybr (length x0) tp h i sol x evi /\
         forall e, In e evi -> In e ev) /\
    Forall (at_dimension (length x0)) ev.
Proof.
  intros HR Ht Hh Hf Hs.
  destruct (grid_and_zeros x0 t0 tf h HR Ht Hh)
    as (tp & Htp & Ltp & Hn & _).
  set (N := num_steps t0 tf h) in *. set (n := Z.to_nat N) in *.
  set (sol0 := <[0%nat:=x0]> (np_zeros n (length x0))).
  assert (length sol0 = n) as L0
    by (unfold sol0; now rewrite length_insert, length_zeros).
  assert (rows_len (length x0) sol0) as R0
    by (apply rows_len_insert; [apply rows_len_zeros | reflexivity]).
  assert (sol0 !! 0%nat = Some x0) as Z0
    by (apply list_lookup_insert_eq; rewrite length_zeros; lia).
  assert (~ h == 0) as Hne by lra.
  unfold custom_dirk_method.
  rewrite (bind_Ok _ _ _ _ _ (num_steps_of_computed t0 tf h tr Hne)).
  fold N. rewrite (bind_lift_Ok _ _ _ _ Htp). fold n.
  rewrite (bind_lift_Ok _ _ _ _ (first_row n x0 Hn)). fold sol0.
  destruct (for_range_steps (length x0) n 1 (dirk_body f hybr tp h) _
              (dirk_body_step f hybr (length x0) n tp h Hf Hs Ltp)
              (dirk_solve_stable f hybr (length x0) tp h)
              1 n sol0 tr)
    as (sol & evs & Hrun & Hlen & Hrows & Hlow & Hevs);
    [lia | lia | exact L0 | exact R0 |].
  assert (Forall (at_dimension (length x0)) (concat evs)) as Hall.
  { apply (concat_all _ _ _ _
             (fun i ev H =>
                match H with
                | ex_intro _ x (conj _ (ex_intro _ s1 (ex_intro _ t1
                    (ex_intro _ ier
                      (conj _ (conj _ (conj _ (conj _ Hev)))))))) =>
                    solve_events_dimension _ _ _ Hev
                end) Hevs). }
  exists tp, sol, (concat evs). rewrite (bind_Ok _ _ _ _ _ Hrun). cbn [ret].
  split; [reflexivity|]. split; [exact Htp|]. split; [exact Ltp|].
  split; [lia|]. split; [exact Hrows|]. split; [|split].
  - rewrite Hlow by lia. exact Z0.
  - intros i Hi.
    destruct (step_of_loop _ _ _ _ i Hevs) as (ev & (x & Hx & Hsv) & Hin);
      [lia|].
    exists x, ev. auto.
  - exact Hall.
Qed.


(** * The claims *)

(** C1, at the call [t0 = 0], [tf = 1], [h = 3/10] with [f = [1]] and
    [x0 = [0]]: each of the four integrators (the implicit ones with any
    solver that returns and keeps the dimension) returns a grid of four
    points whose consecutive points do not differ by [h]; it is the grid
    0, 1/3, 2/3, 1 of [np.linspace]. *)
Theorem grid_not_spaced_by_h hybr :
  solver_shape hybr ->
  let P (tp : list Q) :=
    length tp = 4%nat /\ veq tp [0; 1 # 3; 2 # 3; 1] /\
    ~ spaced_by (3 # 10) tp in
  returns_grid (adams_bashforth_2 f_const1 [0] 0 1 (3 # 10) []) P /\
  returns_grid (adams_bashforth_4 f_const1 [0] 0 1 (3 # 10) []) P /\
  returns_grid (adams_moulton_2 f_const1 hybr [0] 0 1 (3 # 10) []) P /\
  returns_grid (custom_dirk_method f_const1 hybr [0] 0 1 (3 # 10) []) P.
Proof.
  intros Hs P.
  assert (0 <= 1) as H1 by (vm_compute; discriminate).
  assert (0 < 3 # 10) as H2 by reflexivity.
  assert (forall tp, linspace 0 1 (grid_len 0 1 (3 # 10)) = Ok tp -> P tp)
    as HP.
  { intros tp Htp. vm_compute in Htp. injection Htp as <-.
    split; [reflexivity|]. split.
    - repeat (constructor; [vm_compute; reflexivity|]). constructor.
    - intros H. specialize (H 0%nat _ _ eq_refl eq_refl).
      vm_compute in H. discriminate. }
  repeat split.
  - destruct (ab2_run f_const1 [0] 0 1 (3 # 10) [] H1 H2 f_const1_shape)
      as (tp & sol & tr & Hrun & Htp & _).
    exists tp, sol, tr. auto.
  - destruct (ab4_run f_const1 [0] 0 1 (3 # 10) [] H1 H2 f_const1_shape)
      as (tp & sol & tr & Hrun & Htp & _).
    exists tp, sol, tr. auto.
  - destruct (am2_run f_const1 hybr [0] 0 1 (3 # 10) [] H1 H2
                f_const1_shape Hs)
      as (tp & sol & tr & Hrun & Htp & _).
    exists tp, sol, tr. auto.
  - destruct (dirk_run f_const1 hybr [0] 0 1 (3 # 10) [] H1 H2
                f_const1_shape Hs)
      as (tp & sol & tr & Hrun & Htp & _).
    exists tp, sol, tr. auto.
Qed.

Lemma grid_not_spaced_by_h_witness :
  solver_shape secant /\
  let P (tp : list Q) :=
    length tp = 4%nat /\ veq tp [0; 1 # 3; 2 # 3; 1] /\
    ~ spaced_by (3 # 10) tp in
  returns_grid (adams_bashforth_2 f_const1 [0] 0 1 (3 # 10) []) P /\
  returns_grid (adams_bashforth_4 f_const1 [0] 0 1 (3 # 10) []) P /\
  returns_grid (adams_moulton_2 f_const1 secant [0] 0 1 (3 # 10) []) P /\
  returns_grid (custom_dirk_method f_const1 secant [0] 0 1 (3 # 10) []) P.
Proof.
  split; [exact secant_shape|].
  exact (grid_not_spaced_by_h secant secant_shape).
Defined.

(** C2, at the call [t0 = 0], [tf = 1], [h = 1/3] with [f(x, t) = -x]
    and [x0 = [1]], for any solver that returns and keeps the dimension:
    point 2 of [adams_moulton_2] is the solver's iterate for the corrector
    equation started from point 1, [solution[i - 1] = [2/3]]; the
    Adams-Bashforth predictor of that step, [[1/2]], is a different
    vector. *)
Theorem adams_moulton_2_guess_is_previous_point hybr :
  solver_shape hybr ->
  returns_with (adams_moulton_2 f_decay hybr [1] 0 1 (1 # 3) [])
    (fun tp sol =>
       exists x0 x1 t0 t1 t2,
         sol !! 0%nat = Some x0 /\ sol !! 1%nat = Some x1 /\
         tp !! 0%nat = Some t0 /\ tp !! 1%nat = Some t1 /\
         tp !! 2%nat = Some t2 /\
         sol !! 2%nat
         = Some (iterate_of hybr (am2_residual f_decay (1 # 3) x1 t1 t2) x1) /\
         veq x1 [2 # 3] /\
         veq (ab2_formula f_decay (1 # 3) x1 t1 x0 t0) [1 # 2] /\
         ~ veq x1 (ab2_formula f_decay (1 # 3) x1 t1 x0 t0)).
Proof.
  intros Hs.
  assert (0 <= 1) as H1 by (vm_compute; discriminate).
  assert (0 < 1 # 3) as H2 by reflexivity.
  destruct (am2_run f_decay hybr [1] 0 1 (1 # 3) [] H1 H2 (f_decay_shape 1) Hs)
    as (tp & sol & tr & Hrun & Htp & Hlen & _ & Hx0 & Hx1 & Hsteps).
  vm_compute in Htp. injection Htp as <-.
  change (Z.to_nat (grid_len 0 1 (1 # 3))) with 4%nat in Hlen.
  specialize (Hx1 ltac:(lia)).
  destruct (Hsteps 2%nat ltac:(lia))
    as (x & Hx & s1 & t1 & t & ier & A & B & C & E).
  cbn [Nat.sub] in A, B. rewrite Hx1 in A. injection A as <-.
  vm_compute in B, C. injection B as <-. injection C as <-.
  eexists _, sol, tr. split; [exact Hrun|].
  eexists _, _, _, _, _.
  split; [exact Hx0|]. split; [exact Hx1|].
  split; [reflexivity|]. split; [reflexivity|]. split; [reflexivity|].
  split; [rewrite Hx; f_equal; symmetry; exact (iterate_of_answer _ _ _ _ _ E)|].
  split; [constructor; [vm_compute; reflexivity|constructor]|].
  split; [constructor; [vm_compute; reflexivity|constructor]|].
  intros H; inversion H as [|? ? ? ? Eq]; vm_compute in Eq; discriminate.
Qed.

Lemma adams_moulton_2_guess_is_previous_point_witness :
  solver_shape stall /\
  returns_with (adams_moulton_2 f_decay stall [1] 0 1 (1 # 3) [])
    (fun tp sol =>
       exists x0 x1 t0 t1 t2,
         sol !! 0%nat = Some x0 /\ sol !! 1%nat = Some x1 /\
         tp !! 0%nat = Some t0 /\ tp !! 1%nat = Some t1 /\
         tp !! 2%nat = Some t2 /\
         sol !! 2%nat
         = Some (iterate_of stall (am2_residual f_decay (1 # 3) x1 t1 t2) x1) /\
         veq x1 [2 # 3] /\
         veq (ab2_formula f_decay (1 # 3) x1 t1 x0 t0) [1 # 2] /\
         ~ veq x1 (ab2_formula f_decay (1 # 3) x1 t1 x0 t0)).
Proof.
  split; [exact stall_shape|].
  exact (adams_moulton_2_guess_is_previous_point stall stall_shape).
Defined.




(** C4. [adams_bashforth_4] on a valid call, under any rounding of the
    quotient that keeps the sign: the grid has the computed number of
    points, the trajectory is as long as the grid and starts with [x0];
    points 1 to 3 (fewer on a shorter grid) each come from the previous
    point by one classical RK4 step of size [h], with stage weights
    (1,2,2,1)/6 and stage times [t], [t + h/2], [t + h/2], [t + h]; every
    point [i >= 4] is
    [x_{i-1} + h*(55/24*f(x_{i-1}, t_{i-1}) - 59/24*f(x_{i-2}, t_{i-2})
                  + 37/24*f(x_{i-3}, t_{i-3}) - 9/24*f(x_{i-4}, t_{i-4}))]. *)
Theorem adams_bashforth_4_recurrence (R : Rounding) f x0 t0 tf h :
  keeps_sign R -> t0 <= tf -> 0 < h -> shape_preserving (length x0) f ->
  exists tp sol tr,
    adams_bashforth_4 f x0 t0 tf h [] = Ok (tp, sol, tr) /\
    length tp = Z.to_nat (num_steps t0 tf h) /\
    length sol = length tp /\ sol !! 0%nat = Some x0 /\
    (forall i, (1 <= i < Nat.min 4 (length tp))%nat ->
       exists xi x1 t1,
         sol !! i = Some xi /\
         sol !! (i - 1)%nat = Some x1 /\ tp !! (i - 1)%nat = Some t1 /\
         let k1 := f x1 t1 in
         let k2 := f (vadd x1 (vscale ((1 # 2) * h) k1)) (t1 + (1 # 2) * h) in
         let k3 := f (vadd x1 (vscale ((1 # 2) * h) k2)) (t1 + (1 # 2) * h) in
         let k4 := f (vadd x1 (vscale h k3)) (t1 + h) in
         xi = vadd x1 (vdiv (vscale h (vadd (vadd (vadd k1 (vscale 2 k2))
                                                  (vscale 2 k3)) k4)) 6)) /\
    (forall i, (4 <= i < length tp)%nat ->
       exists xi x1 x2 x3 x4 t1 t2 t3 t4,
         sol !! i = Some xi /\
         sol !! (i - 1)%nat = Some x1 /\ sol !! (i - 2)%nat = Some x2 /\
         sol !! (i - 3)%nat = Some x3 /\ sol !! (i - 4)%nat = Some x4 /\
         tp !! (i - 1)%nat = Some t1 /\ tp !! (i - 2)%nat = Some t2 /\
         tp !! (i - 3)%nat = Some t3 /\ tp !! (i - 4)%nat = Some t4 /\
         xi = vadd x1 (vscale h
                (vsub (vadd (vsub (vscale (55 / 24) (f x1 t1))
                                  (vscale (59 / 24) (f x2 t2)))
                            (vscale (37 / 24) (f x3 t3)))
                      (vscale (9 / 24) (f x4 t4))))).
Proof.
  intros HR Ht Hh Hf.
  destruct (ab4_rounded f x0 t0 tf h [] HR Ht Hh Hf)
    as (tp & sol & tr & Hrun & _ & Ltp & Lsol & _ & Hx0 & Hrk & Hsteps & _).
  exists tp, sol, tr. split; [exact Hrun|]. split; [exact Ltp|].
  split; [exact Lsol|]. split; [exact Hx0|]. split.
  - intros i Hi.
    destruct (Hrk i) as (x & Hx & s1 & t1 & A & B & C); [lia|].
    exists x, s1, t1. auto.
  - intros i Hi.
    destruct (Hsteps i) as (x & Hx & s1 & s2 & s3 & s4 & t1 & t2 & t3 & t4 & H);
      [lia|].
    exists x, s1, s2, s3, s4, t1, t2, t3, t4. tauto.
Qed.

Lemma adams_bashforth_4_recurrence_witness :
  (keeps_sign binary64 /\ 0 <= 1 /\ 0 < 1 # 8 /\
   shape_preserving 2 f_decay) /\
  exists tp sol tr,
    adams_bashforth_4 (R := binary64) f_decay [1; 2] 0 1 (1 # 8) []
    = Ok (tp, sol, tr) /\
    length tp = Z.to_nat (num_steps (R := binary64) 0 1 (1 # 8)) /\
    length sol = length tp /\ sol !! 0%nat = Some [1; 2] /\
    (forall i, (1 <= i < Nat.min 4 (length tp))%nat ->
       exists xi x1 t1,
         sol !! i = Some xi /\
         sol !! (i - 1)%nat = Some x1 /\ tp !! (i - 1)%nat = Some t1 /\
         let h := 1 # 8 in
         let k1 := f_decay x1 t1 in
         let k2 := f_decay (vadd x1 (vscale ((1 # 2) * h) k1))
                     (t1 + (1 # 2) * h) in
         let k3 := f_decay (vadd x1 (vscale ((1 # 2) * h) k2))
                     (t1 + (1 # 2) * h) in
         let k4 := f_decay (vadd x1 (vscale h k3)) (t1 + h) in
         xi = vadd x1 (vdiv (vscale h (vadd (vadd (vadd k1 (vscale 2 k2))
                                                  (vscale 2 k3)) k4)) 6)) /\
    (forall i, (4 <= i < length tp)%nat ->
       exists xi x1 x2 x3 x4 t1 t2 t3 t4,
         sol !! i = Some xi /\
         sol !! (i - 1)%nat = Some x1 /\ sol !! (i - 2)%nat = Some x2 /\
         sol !! (i - 3)%nat = Some x3 /\ sol !! (i - 4)%nat = Some x4 /\
         tp !! (i - 1)%nat = Some t1 /\ tp !! (i - 2)%nat = Some t2 /\
         tp !! (i - 3)%nat = Some t3 /\ tp !! (i - 4)%nat = Some t4 /\
         xi = vadd x1 (vscale (1 # 8)
                (vsub (vadd (vsub (vscale (55 / 24) (f_decay x1 t1))
                                  (vscale (59 / 24) (f_decay x2 t2)))
                            (vscale (37 / 24) (f_decay x3 t3)))
                      (vscale (9 / 24) (f_decay x4 t4))))).
Proof.
  assert (0 <= 1) as H1 by (vm_compute; discriminate).
  assert (0 < 1 # 8) as H2 by reflexivity.
  split; [exact (conj binary64_keeps_sign
                   (conj H1 (conj H2 (f_decay_shape 2))))|].
  exact (adams_bashforth_4_recurrence binary64 f_decay [1; 2] 0 1 (1 # 8)
           binary64_keeps_sign H1 H2 (f_decay_shape 2)).
Defined.

(** C5. [adams_bashforth_2] on a valid call, under any rounding of the
    quotient that keeps the sign: the grid has the computed number of
    points, the trajectory is as long as the grid and starts with [x0];
    when the grid has more than one point, point 1 is the explicit Euler
    step [x0 + h*f(x0, t0)], and every point [i >= 2] is
    [x_{i-1} + h*(1.5*f(x_{i-1}, t_{i-1}) - 0.5*f(x_{i-2}, t_{i-2}))]
    with [t_j] the grid times. *)
Theorem adams_bashforth_2_recurrence (R : Rounding) f x0 t0 tf h :
  keeps_sign R -> t0 <= tf -> 0 < h -> shape_preserving (length x0) f ->
  exists tp sol tr,
    adams_bashforth_2 f x0 t0 tf h [] = Ok (tp, sol, tr) /\
    length tp = Z.to_nat (num_steps t0 tf h) /\
    length sol = length tp /\ sol !! 0%nat = Some x0 /\
    ((1 < length tp)%nat ->
     sol !! 1%nat = Some (vadd x0 (vscale h (f x0 t0)))) /\
    forall i, (2 <= i < length tp)%nat ->
      exists xi x1 x2 t1 t2,
        sol !! i = Some xi /\
        sol !! (i - 1)%nat = Some x1 /\ sol !! (i - 2)%nat = Some x2 /\
        tp !! (i - 1)%nat = Some t1 /\ tp !! (i - 2)%nat = Some t2 /\
        xi = vadd x1 (vscale h (vsub (vscale (3 # 2) (f x1 t1))
                                     (vscale (1 # 2) (f x2 t2)))).
Proof.
  intros HR Ht Hh Hf.
  destruct (ab2_rounded f x0 t0 tf h [] HR Ht Hh Hf)
    as (tp & sol & tr & Hrun & _ & Ltp & Lsol & _ & Hx0 & He & Hsteps & _).
  exists tp, sol, tr. split; [exact Hrun|]. split; [exact Ltp|].
  split; [exact Lsol|]. split; [exact Hx0|]. split.
  - intros H1. apply He. lia.
  - intros i Hi.
    destruct (Hsteps i) as (x & Hx & s1 & s2 & t1 & t2 & A & B & C & D & E);
      [lia|].
    exists x, s1, s2, t1, t2. auto 10.
Qed.

Lemma adams_bashforth_2_recurrence_witness :
  (keeps_sign binary64 /\ 0 <= 1 /\ 0 < 1 # 4 /\
   shape_preserving 2 f_decay) /\
  exists tp sol tr,
    adams_bashforth_2 (R := binary64) f_decay [1; 2] 0 1 (1 # 4) []
    = Ok (tp, sol, tr) /\
    length tp = Z.to_nat (num_steps (R := binary64) 0 1 (1 # 4)) /\
    length sol = length tp /\ sol !! 0%nat = Some [1; 2] /\
    ((1 < length tp)%nat ->
     sol !! 1%nat
     = Some (vadd [1; 2] (vscale (1 # 4) (f_decay [1; 2] 0)))) /\
    forall i, (2 <= i < length tp)%nat ->
      exists xi x1 x2 t1 t2,
        sol !! i = Some xi /\
        sol !! (i - 1)%nat = Some x1 /\ sol !! (i - 2)%nat = Some x2 /\
        tp !! (i - 1)%nat = Some t1 /\ tp !! (i - 2)%nat = Some t2 /\
        xi = vadd x1 (vscale (1 # 4)
               (vsub (vscale (3 # 2) (f_decay x1 t1))
                     (vscale (1 # 2) (f_decay x2 t2)))).
Proof.
  assert (0 <= 1) as H1 by (vm_compute; discriminate).
  assert (0 < 1 # 4) as H2 by reflexivity.
  split; [exact (conj binary64_keeps_sign
                   (conj H1 (conj H2 (f_decay_shape 2))))|].
  exact (adams_bashforth_2_recurrence binary64 f_decay [1; 2] 0 1 (1 # 4)
           binary64_keeps_sign H1 H2 (f_decay_shape 2)).
Defined.

(** C6, at the call [t0 = 0], [tf = 1], [h = 3/10] with the constant
    derivative [c = [1]] and [x0 = [0]]: each of the four integrators (the
    implicit ones with any solver that finds the roots of [c' - x] and of
    [x - c']) returns 9/10 at the last grid point [t = 1], where the exact
    line [x0 + c*(t - t0)] is 1. *)
Theorem constant_derivative_line_missed hybr :
  solver_shape hybr -> exact_on_shifts hybr -> exact_on_offsets hybr ->
  let P (tp : list Q) (sol : list vec) :=
    exists t x, last tp = Some t /\ last sol = Some x /\
                t == 1 /\ veq x [9 # 10] /\ ~ veq x (exact_line [0] [1] 0 t) in
  returns_with (adams_bashforth_2 f_const1 [0] 0 1 (3 # 10) []) P /\
  returns_with (adams_bashforth_4 f_const1 [0] 0 1 (3 # 10) []) P /\
  returns_with (adams_moulton_2 f_const1 hybr [0] 0 1 (3 # 10) []) P /\
  returns_with (custom_dirk_method f_const1 hybr [0] 0 1 (3 # 10) []) P.
Proof.
  intros Hs Hshift Hoff P.
  assert (0 <= 1) as H1 by (vm_compute; discriminate).
  assert (0 < 3 # 10) as H2 by reflexivity.
  assert (forall {T} (r : result (list Q * list vec * T)),
            returns_with r (fun tp sol =>
              linspace 0 1 (grid_len 0 1 (3 # 10)) = Ok tp /\
              length sol = Z.to_nat (grid_len 0 1 (3 # 10)) /\
              forall i x, sol !! i = Some x ->
                veq x (vadd [0] (vscale (inject_Z (Z.of_nat i) * (3 # 10)) [1]))) ->
            returns_with r P) as HP.
  { intros T r (tp & sol & tr & Hrun & Htp & Hlen & Hrows).
    exists tp, sol, tr. split; [exact Hrun|].
    vm_compute in Htp. injection Htp as <-.
    change (Z.to_nat (grid_len 0 1 (3 # 10))) with 4%nat in Hlen.
    destruct (lookup_lt_is_Some_2 sol 3) as [x Hx]; [lia|].
    assert (veq x [9 # 10]) as Hval.
    { apply veq_trans with (1 := Hrows 3%nat x Hx).
      constructor; [vm_compute; reflexivity | constructor]. }
    exists 1, x. split; [reflexivity|]. split.
    - rewrite last_lookup, Hlen. exact Hx.
    - split; [reflexivity|]. split; [exact Hval|]. intros Hline.
      pose proof (veq_trans _ _ _ (veq_sym _ _ Hval) Hline) as H.
      inversion H as [|? ? ? ? E]. vm_compute in E. discriminate. }
  destruct (constant_derivative_rows [1] [0] hybr 0 1 (3 # 10) H1 H2 eq_refl)
    as (A2 & A4 & Himp).
  destruct (Himp Hs Hshift Hoff) as [Am Ad].
  split; [exact (HP _ _ A2)|]. split; [exact (HP _ _ A4)|].
  split; [exact (HP _ _ Am) | exact (HP _ _ Ad)].
Qed.

Lemma constant_derivative_line_missed_witness :
  (solver_shape secant /\ exact_on_shifts secant /\ exact_on_offsets secant) /\
  let P (tp : list Q) (sol : list vec) :=
    exists t x, last tp = Some t /\ last sol = Some x /\
                t == 1 /\ veq x [9 # 10] /\ ~ veq x (exact_line [0] [1] 0 t) in
  returns_with (adams_bashforth_2 f_const1 [0] 0 1 (3 # 10) []) P /\
  returns_with (adams_bashforth_4 f_const1 [0] 0 1 (3 # 10) []) P /\
  returns_with (adams_moulton_2 f_const1 secant [0] 0 1 (3 # 10) []) P /\
  returns_with (custom_dirk_method f_const1 secant [0] 0 1 (3 # 10) []) P.
Proof.
  split; [exact (conj secant_shape (conj secant_exact secant_exact_offsets))|].
  exact (constant_derivative_line_missed secant secant_shape secant_exact
           secant_exact_offsets).
Defined.

(** C7. On a one-point grid ([tf == t0]) each of the four integrators
    returns the single-point trajectory holding exactly the initial state,
    and the trace of evaluations of [f] is left as it was: [f] is never
    invoked. *)
Theorem one_point_grid_no_evaluation f hybr x0 t0 tf h tr :
  tf == t0 -> 0 < h ->
  exists t, t == t0 /\
    adams_bashforth_2 f x0 t0 tf h tr = Ok ([t], [x0], tr) /\
    adams_bashforth_4 f x0 t0 tf h tr = Ok ([t], [x0], tr) /\
    adams_moulton_2 f hybr x0 t0 tf h tr = Ok ([t], [x0], tr) /\
    custom_dirk_method f hybr x0 t0 tf h tr = Ok ([t], [x0], tr).
Proof.
  intros Ht Hh.
  assert (t0 <= tf) as Hle by (rewrite Ht; apply Qle_refl).
  pose proof (num_steps_of_valid t0 tf h tr Hle Hh) as Hn.
  rewrite (grid_len_one t0 tf h Ht Hh) in Hn.
  exists (0 * (tf - t0) + t0). split; [ring|].
  assert (1 <= 1)%nat as H1 by lia.
  pose proof (first_row 1 x0 H1) as Hrow.
  repeat split.
  - unfold adams_bashforth_2. rewrite (bind_Ok _ _ _ _ _ Hn).
    rewrite (bind_lift_Ok _ _ _ _ (linspace_one t0 tf)).
    change (Z.to_nat 1) with 1%nat. rewrite (bind_lift_Ok _ _ _ _ Hrow).
    reflexivity.
  - unfold adams_bashforth_4. rewrite (bind_Ok _ _ _ _ _ Hn).
    rewrite (bind_lift_Ok _ _ _ _ (linspace_one t0 tf)).
    change (Z.to_nat 1) with 1%nat. rewrite (bind_lift_Ok _ _ _ _ Hrow).
    reflexivity.
  - unfold adams_moulton_2. rewrite (bind_Ok _ _ _ _ _ Hn).
    rewrite (bind_lift_Ok _ _ _ _ (linspace_one t0 tf)).
    change (Z.to_nat 1) with 1%nat. rewrite (bind_lift_Ok _ _ _ _ Hrow).
    reflexivity.
  - unfold custom_dirk_method. rewrite (bind_Ok _ _ _ _ _ Hn).
    rewrite (bind_lift_Ok _ _ _ _ (linspace_one t0 tf)).
    change (Z.to_nat 1) with 1%nat. rewrite (bind_lift_Ok _ _ _ _ Hrow).
    reflexivity.
Qed.

Lemma one_point_grid_no_evaluation_witness :
  (2 == 2 /\ 0 < 1 # 10) /\
  exists t, t == 2 /\
    adams_bashforth_2 f_decay [1; 2] 2 2 (1 # 10) [] = Ok ([t], [[1; 2]], []) /\
    adams_bashforth_4 f_decay [1; 2] 2 2 (1 # 10) [] = Ok ([t], [[1; 2]], []) /\
    adams_moulton_2 f_decay stall [1; 2] 2 2 (1 # 10) []
    = Ok ([t], [[1; 2]], []) /\
    custom_dirk_method f_decay stall [1; 2] 2 2 (1 # 10) []
    = Ok ([t], [[1; 2]], []).
Proof.
  assert (2 == 2) as H1 by reflexivity.
  assert (0 < 1 # 10) as H2 by reflexivity.
  split; [exact (conj H1 H2)|].
  exact (one_point_grid_no_evaluation f_decay stall [1; 2] 2 2 (1 # 10) []
           H1 H2).
Defined.




(** C9. [compute_method_statistics] on trajectories that all have the
    shape of the reference trajectory: for every method other than the
    reference the reported [max_abs_error] is the largest elementwise
    absolute difference between that method's trajectory and the
    reference; every divisor of the relative error, an absolute reference
    value plus 1e-10, is strictly positive, and the call returns without
    any division by zero. *)
Theorem max_abs_error_is_largest (results : dict (list Q * list vec))
  (ref_time : list Q) (ref_sol : list vec) (d : nat) :
  dict_get results reference_method = Ok (ref_time, ref_sol) ->
  NoDup (map fst results) ->
  (0 < length ref_sol)%nat -> (0 < d)%nat -> rows_len d ref_sol ->
  (forall method t sol, In (method, (t, sol)) results ->
                        length sol = length ref_sol /\ rows_len d sol) ->
  Forall (Forall (fun q => 0 < q)) (rel_denominators ref_sol) /\
  exists stats,
    compute_method_statistics results = Ok stats /\
    forall method t sol,
      In (method, (t, sol)) results -> method <> reference_method ->
      exists st, dict_get stats method = Ok st /\
                 largest_abs_difference (max_abs_error st) sol ref_sol.
Proof.
  intros Href Hnd Hn Hd Hrows Hshape.
  split; [apply rel_denominators_pos|].
  destruct (stats_loop_spec d ref_sol Hn Hd Hrows results [] Hnd Hshape)
    as (stats & Hrun & _ & Hall).
  exists stats. split; [|exact Hall].
  unfold compute_method_statistics. rewrite Href. exact Hrun.
Qed.

Lemma max_abs_error_is_largest_witness :
  (dict_get ex_results reference_method = Ok ([0; 1], [[1; 0]; [0; 1]]) /\
   NoDup (map fst ex_results) /\ (0 < 2)%nat /\ rows_len 2 [[1; 0]; [0; 1]]) /\
  Forall (Forall (fun q => 0 < q)) (rel_denominators [[1; 0]; [0; 1]]) /\
  exists stats,
    compute_method_statistics ex_results = Ok stats /\
    forall method t sol,
      In (method, (t, sol)) ex_results -> method <> reference_method ->
      exists st, dict_get stats method = Ok st /\
                 largest_abs_difference (max_abs_error st) sol
                   [[1; 0]; [0; 1]].
Proof.
  assert (dict_get ex_results reference_method = Ok ([0; 1], [[1; 0]; [0; 1]]))
    as H1 by reflexivity.
  assert (0 < 2)%nat as H2 by lia.
  assert (rows_len 2 [[1; 0]; [0; 1]]) as H3 by (repeat constructor).
  split; [exact (conj H1 (conj ex_results_keys (conj H2 H3)))|].
  exact (max_abs_error_is_largest ex_results [0; 1] [[1; 0]; [0; 1]] 2
           H1 ex_results_keys H2 H2 H3 ex_results_shape).
Defined.





(** * Further properties of the code *)

(** ** Calls outside the valid range (MultiStep.py) *)

Lemma num_steps_of_zero_step t0 tf h tr :
  h == 0 -> num_steps_of t0 tf h tr = Raise ZeroDivisionError.
Proof.
  intros Hh. unfold num_steps_of, py_div.
  now rewrite (proj2 (Qeq_bool_iff h 0) Hh).
Qed.

(** X1. A step size of zero makes each of the four integrators raise
    [ZeroDivisionError], whatever the other arguments are. *)
Theorem zero_step_raises f hybr x0 t0 tf h tr :
  h == 0 ->
  adams_bashforth_2 f x0 t0 tf h tr = Raise ZeroDivisionError /\
  adams_bashforth_4 f x0 t0 tf h tr = Raise ZeroDivisionError /\
  adams_moulton_2 f hybr x0 t0 tf h tr = Raise ZeroDivisionError /\
  custom_dirk_method f hybr x0 t0 tf h tr = Raise ZeroDivisionError.
Proof.
  intros Hh. pose proof (num_steps_of_zero_step t0 tf h tr Hh) as E.
  unfold adams_bashforth_2, adams_bashforth_4, adams_moulton_2,
    custom_dirk_method, bind.
  now rewrite E.
Qed.

Lemma zero_step_raises_witness :
  0 == 0 /\
  adams_bashforth_2 f_decay [1; 2] 0 1 0 [] = Raise ZeroDivisionError /\
  adams_bashforth_4 f_decay [1; 2] 0 1 0 [] = Raise ZeroDivisionError /\
  adams_moulton_2 f_decay stall [1; 2] 0 1 0 [] = Raise ZeroDivisionError /\
  custom_dirk_method f_decay stall [1; 2] 0 1 0 [] = Raise ZeroDivisionError.
Proof.
  assert (0 == 0) as H by reflexivity.
  split; [exact H|].
  exact (zero_step_raises f_decay stall [1; 2] 0 1 0 [] H).
Defined.

Lemma py_int_ceiling q : q <= 0 -> py_int q = Qceiling q.
Proof.
  destruct q as [n d]. unfold Qle, py_int, Qceiling, Qfloor. cbn. intros H.
  rewrite <- (Z.opp_involutive n) at 1.
  rewrite Z.quot_opp_l by lia. f_equal.
  apply Z.quot_div_nonneg; lia.
Qed.

Lemma inject_Z_lt (a b : Z) : inject_Z a < inject_Z b -> (a < b)%Z.
Proof. intros H. now rewrite Zlt_Qlt. Qed.



Lemma py_int_below q : q <= -2 -> (py_int q <= -2)%Z.
Proof.
  intros Hhi. rewrite py_int_ceiling by lra.
  pose proof (Qceiling_lt q) as H2.
  assert (inject_Z (Qceiling q - 1) < inject_Z (-2)) as B
    by (change (inject_Z (-2)) with (-2); lra).
  apply inject_Z_lt in B. lia.
Qed.

Lemma num_steps_of_nonzero t0 tf h tr :
  ~ h == 0 -> num_steps_of t0 tf h tr = Ok ((py_int ((tf - t0) / h) + 1)%Z, tr).
Proof.
  intros Hh. unfold num_steps_of, py_div.
  destruct (Qeq_bool h 0) eqn:E; [|reflexivity].
  apply Qeq_bool_eq in E. contradiction.
Qed.

Lemma linspace_negative start stop num :
  (num < 0)%Z -> linspace start stop num = Raise ValueError.
Proof.
  intros H. unfold linspace. now rewrite (proj2 (Z.ltb_lt _ _) H).
Qed.

(** X2. An end time at least two steps before the start time makes each
    of the four integrators raise [ValueError]: the number of samples
    handed to [np.linspace] is negative. *)
Theorem reversed_interval_raises_ValueError f hybr x0 t0 tf h tr :
  0 < h -> tf - t0 <= - (2 * h) ->
  adams_bashforth_2 f x0 t0 tf h tr = Raise ValueError /\
  adams_bashforth_4 f x0 t0 tf h tr = Raise ValueError /\
  adams_moulton_2 f hybr x0 t0 tf h tr = Raise ValueError /\
  custom_dirk_method f hybr x0 t0 tf h tr = Raise ValueError.
Proof.
  intros Hh Ht.
  assert ((tf - t0) / h <= -2) as Hq
    by (apply Qle_shift_div_r; [exact Hh | lra]).
  pose proof (py_int_below _ Hq) as Hn.
  assert (~ h == 0) as Hne by lra.
  pose proof (num_steps_of_nonzero t0 tf h tr Hne) as E.
  assert (linspace t0 tf (py_int ((tf - t0) / h) + 1) = Raise ValueError) as L
    by (apply linspace_negative; lia).
  unfold adams_bashforth_2, adams_bashforth_4, adams_moulton_2,
    custom_dirk_method.
  rewrite !(bind_Ok _ _ _ _ _ E). unfold bind, lift. now rewrite L.
Qed.

Lemma reversed_interval_raises_ValueError_witness :
  (0 < 1 # 4 /\ 0 - 1 <= - (2 * (1 # 4))) /\
  adams_bashforth_2 f_decay [1; 2] 1 0 (1 # 4) [] = Raise ValueError /\
  adams_bashforth_4 f_decay [1; 2] 1 0 (1 # 4) [] = Raise ValueError /\
  adams_moulton_2 f_decay stall [1; 2] 1 0 (1 # 4) [] = Raise ValueError /\
  custom_dirk_method f_decay stall [1; 2] 1 0 (1 # 4) [] = Raise ValueError.
Proof.
  assert (0 < 1 # 4) as H1 by reflexivity.
  assert (0 - 1 <= - (2 * (1 # 4))) as H2 by (vm_compute; discriminate).
  split; [exact (conj H1 H2)|].
  exact (reversed_interval_raises_ValueError f_decay stall [1; 2] 1 0 (1 # 4) []
           H1 H2).
Defined.





Lemma grid_len_two t0 tf h : 0 < h -> h <= tf - t0 -> (2 <= grid_len t0 tf h)%Z.
Proof.
  intros Hh Ht. unfold grid_len.
  assert (1 <= (tf - t0) / h) as Hq
    by (apply Qle_shift_div_l; [exact Hh | lra]).
  pose proof (Qfloor_resp_le _ _ Hq) as H.
  change (Qfloor 1) with 1%Z in H. lia.
Qed.

Lemma np_add_mismatch (a b : vec) :
  length a <> length b -> length b <> 1%nat ->
  np_add a b = Raise ValueError \/
  (length a = 1%nat /\ exists v, np_add a b = Ok v /\ length v = length b).
Proof.
  intros Hab Hb. unfold np_add, broadcast2.
  rewrite (proj2 (Nat.eqb_neq _ _) Hab).
  destruct a as [|x [|x' a]].
  - left. destruct b as [|y [|y' b]]; cbn in *; congruence.
  - right. split; [reflexivity|]. eexists. split; [reflexivity|].
    apply length_map.
  - left. destruct b as [|y [|y' b]]; cbn in *; congruence.
Qed.

Lemma set_row_mismatch d (a : list vec) i (v : vec) :
  rows_len d a -> (i < length a)%nat -> length v <> d -> length v <> 1%nat ->
  set_row a i v = Raise ValueError.
Proof.
  intros Ha Hi Hv Hv1. unfold set_row.
  destruct (a !! i) as [row|] eqn:Hrow;
    [|apply lookup_ge_None_1 in Hrow; lia].
  pose proof (Forall_lookup_1 _ _ _ _ Ha Hrow) as Hr. cbn beta in Hr.
  assert (length v <> length row) as E by congruence.
  rewrite (proj2 (Nat.eqb_neq _ _) E).
  destruct v as [|x [|x' v]]; cbn in *; congruence.
Qed.

(** X5. On a grid of at least two points, a derivative whose value at the
    initial state has neither the dimension of the state nor dimension 1
    makes [adams_bashforth_2] and [adams_moulton_2] raise [ValueError] at
    the bootstrap step. *)
Theorem wrong_dimension_raises f hybr x0 t0 tf h tr :
  0 < h -> h <= tf - t0 ->
  length (f x0 t0) <> length x0 -> length (f x0 t0) <> 1%nat ->
  adams_bashforth_2 f x0 t0 tf h tr = Raise ValueError /\
  adams_moulton_2 f hybr x0 t0 tf h tr = Raise ValueError.
Proof.
  intros Hh Ht Hd H1.
  assert (t0 <= tf) as Hle by lra.
  pose proof (grid_len_two t0 tf h Hh Ht) as HN.
  assert (1 <= grid_len t0 tf h)%Z as HN1 by lia.
  destruct (linspace_total t0 tf _ HN1) as [tp Htp].
  set (N := grid_len t0 tf h) in *. set (n := Z.to_nat N) in *.
  assert (1 <= n)%nat as Hn by lia.
  set (sol0 := <[0%nat:=x0]> (np_zeros n (length x0))).
  assert (length sol0 = n) as L0
    by (unfold sol0; now rewrite length_insert, length_zeros).
  assert (rows_len (length x0) sol0) as R0
    by (apply rows_len_insert; [apply rows_len_zeros | reflexivity]).
  assert (forall (K : list vec -> M (list vec)),
            bind (bind (call_f f x0 t0) (fun k1 =>
                    bind (lift (np_add x0 (vscale h k1))) (fun x1 =>
                    bind (lift (set_row sol0 1 x1)) K)))
                 (fun solution => ret (tp, solution)) tr
            = Raise ValueError) as Hboot.
  { intros K. unfold bind at 1. rewrite bind_call_f.
    destruct (np_add_mismatch x0 (vscale h (f x0 t0))) as [E|(Lx & v & E & Lv)].
    - rewrite length_vscale. congruence.
    - now rewrite length_vscale.
    - unfold bind, lift. now rewrite E.
    - rewrite (bind_lift_Ok _ _ _ _ E).
      rewrite length_vscale in Lv.
      assert (set_row sol0 1 v = Raise ValueError) as S
        by (apply set_row_mismatch with (d := length x0);
            [exact R0 | lia | congruence | congruence]).
      unfold bind, lift. now rewrite S. }
  assert ((1 <? N)%Z = true) as E1 by (apply Z.ltb_lt; lia).
  split.
  - unfold adams_bashforth_2.
    rewrite (bind_Ok _ _ _ _ _ (num_steps_of_valid t0 tf h tr Hle Hh)).
    fold N. rewrite (bind_lift_Ok _ _ _ _ Htp). fold n.
    rewrite (bind_lift_Ok _ _ _ _ (first_row n x0 Hn)). fold sol0.
    rewrite E1. apply Hboot.
  - unfold adams_moulton_2.
    rewrite (bind_Ok _ _ _ _ _ (num_steps_of_valid t0 tf h tr Hle Hh)).
    fold N. rewrite (bind_lift_Ok _ _ _ _ Htp). fold n.
    rewrite (bind_lift_Ok _ _ _ _ (first_row n x0 Hn)). fold sol0.
    rewrite E1. apply Hboot.
Qed.

Lemma wrong_dimension_raises_witness :
  (0 < 1 # 4 /\ 1 # 4 <= 1 - 0 /\
   length (f_three [1; 2] 0) <> length [1; 2] /\
   length (f_three [1; 2] 0) <> 1%nat) /\
  adams_bashforth_2 f_three [1; 2] 0 1 (1 # 4) [] = Raise ValueError /\
  adams_moulton_2 f_three stall [1; 2] 0 1 (1 # 4) [] = Raise ValueError.
Proof.
  assert (0 < 1 # 4) as H1 by reflexivity.
  assert (1 # 4 <= 1 - 0) as H2 by (vm_compute; discriminate).
  assert (length (f_three [1; 2] 0) <> length [1; 2]) as H3
    by (cbn; lia).
  assert (length (f_three [1; 2] 0) <> 1%nat) as H4 by (cbn; lia).
  split; [exact (conj H1 (conj H2 (conj H3 H4)))|].
  exact (wrong_dimension_raises f_three stall [1; 2] 0 1 (1 # 4) []
           H1 H2 H3 H4).
Defined.

(** ** More on compute_method_statistics (model.py) *)

Lemma dict_get_missing {V} (d : dict V) k :
  ~ In k (map fst d) -> dict_get d k = Raise KeyError.
Proof.
  induction d as [|[k' v] d IH]; cbn; intros H; [reflexivity|].
  destruct (String.eqb k k') eqn:E.
  - apply String.eqb_eq in E. subst. tauto.
  - apply IH. tauto.
Qed.

(** X6. Without an entry for the reference method ["DIRK"],
    [compute_method_statistics] raises [KeyError], whatever else the
    dictionary holds. *)
Theorem missing_reference_raises (results : dict (list Q * list vec)) :
  ~ In reference_method (map fst results) ->
  compute_method_statistics results = Raise KeyError.
Proof.
  intros H. unfold compute_method_statistics.
  now rewrite (dict_get_missing results reference_method H).
Qed.

Lemma missing_reference_raises_witness :
  ~ In reference_method (map fst [("Adams-Bashforth 2"%string, ([0], [[1]]))]) /\
  compute_method_statistics [("Adams-Bashforth 2"%string, ([0], [[1]]))]
  = Raise KeyError.
Proof.
  assert (~ In reference_method
            (map fst [("Adams-Bashforth 2"%string, ([0], [[1]]))])) as H
    by (cbn; intros [E|[]]; discriminate).
  split; [exact H|].
  exact (missing_reference_raises _ H).
Defined.

(** *** The four statistics written out *)

Lemma stats_body_fields d (sol ref_sol : list vec) :
  (0 < length ref_sol)%nat -> (0 < d)%nat ->
  length sol = length ref_sol -> rows_len d sol -> rows_len d ref_sol ->
  let abs_error := np_abs (zip_with (zip_with Qminus) sol ref_sol) in
  let rel_error :=
    zip_with (zip_with Qdiv) abs_error (rel_denominators ref_sol) in
  exists x la y lr,
    concat abs_error = x :: la /\ concat rel_error = y :: lr /\
    stats_body sol ref_sol
    = Ok {| max_abs_error := fold_left Qmax la x;
            mean_abs_error :=
              fold_left Qplus (x :: la) 0
              / inject_Z (Z.of_nat (length (x :: la)));
            max_rel_error := fold_left Qmax lr y;
            mean_rel_error :=
              fold_left Qplus (y :: lr) 0
              / inject_Z (Z.of_nat (length (y :: lr))) |}.
Proof.
  intros Hn Hd Hlen Hsol Href abs_error rel_error.
  set (diff := zip_with (zip_with Qminus) sol ref_sol) in *.
  assert (rows_len d diff) as Rd by now apply rows_len_zip_with.
  assert (length diff = length ref_sol) as Ld
    by (unfold diff; rewrite length_zip_with; lia).
  assert (rows_len d abs_error) as Ra by now apply rows_len_fmap.
  assert (length abs_error = length ref_sol) as La
    by (unfold abs_error, np_abs; now rewrite length_map).
  assert (rows_len d (rel_denominators ref_sol)) as Rq
    by (unfold rel_denominators, np_abs; now repeat apply rows_len_fmap).
  assert (length (rel_denominators ref_sol) = length ref_sol) as Lq
    by (unfold rel_denominators, np_abs; now rewrite !length_map).
  assert (rows_len d rel_error) as Rr by now apply rows_len_zip_with.
  assert (length rel_error = length ref_sol) as Lr
    by (unfold rel_error; rewrite length_zip_with; lia).
  destruct (concat_nonempty d abs_error) as (x & la & Ea);
    [lia | exact Hd | exact Ra |].
  destruct (concat_nonempty d rel_error) as (y & lr & Er);
    [lia | exact Hd | exact Rr |].
  exists x, la, y, lr. split; [exact Ea|]. split; [exact Er|].
  unfold stats_body.
  rewrite (broadcast2_2d_same _ Qminus sol ref_sol)
    by (apply same_shape_Forall2 with (P := fun _ => True) (d := d); auto;
        apply Forall_true; intros r; now apply Forall_true).
  cbn [rbind]. fold diff. fold abs_error.
  rewrite (broadcast2_2d_same _ Qdiv abs_error (rel_denominators ref_sol))
    by (apply same_shape_Forall2 with (P := fun q => 0 < q) (d := d);
        [ intros a b Hb; now apply np_true_divide_pos
        | congruence | exact Ra | exact Rq | apply rel_denominators_pos ]).
  cbn [rbind]. fold rel_error.
  unfold np_max, np_mean. rewrite Ea, Er. cbn [rbind].
  rewrite !np_true_divide_pos
    by (apply inject_Z_pos; cbn [length]; lia).
  reflexivity.
Qed.

(** Sums and maxima of a list of numbers between 0 and [m]. *)
Lemma fold_left_Qplus_bounds (m : Q) (l : list Q) (a : Q) :
  (forall x, In x l -> 0 <= x /\ x <= m) ->
  a <= fold_left Qplus l a /\
  fold_left Qplus l a <= a + inject_Z (Z.of_nat (length l)) * m.
Proof.
  revert a. induction l as [|x l IH]; intros a H.
  - cbn [fold_left length]. change (inject_Z (Z.of_nat 0)) with 0.
    split; lra.
  - cbn [fold_left length].
    destruct (H x (or_introl eq_refl)) as [H0 Hm].
    destruct (IH (a + x) (fun y Hy => H y (or_intror Hy))) as [A B].
    rewrite inject_Z_succ. split; [lra|].
    eapply Qle_trans; [exact B|]. lra.
Qed.

Lemma mean_between (x : Q) (l : list Q) :
  (forall y, In y (x :: l) -> 0 <= y) ->
  let mean := fold_left Qplus (x :: l) 0
              / inject_Z (Z.of_nat (length (x :: l))) in
  0 <= mean /\ mean <= fold_left Qmax l x.
Proof.
  intros Hpos mean.
  destruct (fold_left_Qmax_largest l x) as [_ Hle].
  destruct (fold_left_Qplus_bounds (fold_left Qmax l x) (x :: l) 0) as [A B].
  { intros y Hy. split; [now apply Hpos | now apply Hle]. }
  assert (0 < inject_Z (Z.of_nat (length (x :: l)))) as Hn
    by (apply inject_Z_pos; cbn [length]; lia).
  unfold mean. split.
  - apply Qle_shift_div_l; [exact Hn | lra].
  - apply Qle_shift_div_r; [exact Hn | lra].
Qed.

Lemma In_np_abs_nonneg (a : list vec) (x : Q) :
  In x (concat (np_abs a)) -> 0 <= x.
Proof.
  rewrite in_concat. unfold np_abs. intros (r & Hr & Hx).
  apply in_map_iff in Hr as (r0 & <- & _).
  apply in_map_iff in Hx as (x0 & <- & _). apply Qabs_nonneg.
Qed.

Lemma In_rel_denominators (ref_sol : list vec) (q : Q) :
  In q (concat (rel_denominators ref_sol)) -> 1 # 10000000000 <= q.
Proof.
  rewrite in_concat. unfold rel_denominators, np_abs.
  intros (r & Hr & Hx).
  apply in_map_iff in Hr as (r0 & <- & Hr0).
  apply in_map_iff in Hr0 as (r1 & <- & _).
  apply in_map_iff in Hx as (x0 & <- & Hx0).
  apply in_map_iff in Hx0 as (x1 & <- & _).
  pose proof (Qabs_nonneg x1). lra.
Qed.

(** An entry of [a / b] is the quotient of two entries at one place. *)
Lemma In_quotients (a b : list vec) (q : Q) :
  In q (concat (zip_with (zip_with Qdiv) a b)) ->
  exists x y, In x (concat a) /\ In y (concat b) /\ q = x / y.
Proof.
  rewrite in_concat. intros (r & Hr & Hq).
  apply list_elem_of_In, list_elem_of_lookup in Hr as [i Hr].
  apply list_elem_of_In, list_elem_of_lookup in Hq as [j Hq].
  apply lookup_zip_with_Some in Hr as (ra & rb & -> & Hra & Hrb).
  apply lookup_zip_with_Some in Hq as (x & y & -> & Hx & Hy).
  exists x, y. split; [|split; [|reflexivity]].
  - apply in_concat. exists ra. split; apply list_elem_of_In;
      apply list_elem_of_lookup; eauto.
  - apply in_concat. exists rb. split; apply list_elem_of_In;
      apply list_elem_of_lookup; eauto.
Qed.

Lemma quotient_bounds (x y : Q) :
  0 <= x -> 1 # 10000000000 <= y ->
  0 <= x / y /\ x / y <= 10000000000 * x.
Proof.
  intros Hx Hy. assert (0 < y) as Hpos by lra. split.
  - apply Qle_shift_div_l; [exact Hpos | lra].
  - apply Qle_shift_div_r; [exact Hpos|]. nra.
Qed.

Lemma Qabs_self_difference (x : Q) : Qabs (x - x) == 0.
Proof.
  assert (x - x == 0) as E by ring. rewrite E. reflexivity.
Qed.

(** The loop body on two trajectories of one shape: the statistics it
    returns are ordered, the relative error is bounded through the
    absolute one, and a trajectory equal to the reference has error 0. *)
Lemma stats_body_sound d (sol ref_sol : list vec) :
  (0 < length ref_sol)%nat -> (0 < d)%nat ->
  length sol = length ref_sol -> rows_len d sol -> rows_len d ref_sol ->
  exists st, stats_body sol ref_sol = Ok st /\
    (0 <= mean_abs_error st /\ mean_abs_error st <= max_abs_error st) /\
    (0 <= mean_rel_error st /\ mean_rel_error st <= max_rel_error st) /\
    max_rel_error st <= 10000000000 * max_abs_error st /\
    (sol = ref_sol ->
     max_abs_error st == 0 /\ mean_abs_error st == 0 /\
     max_rel_error st == 0 /\ mean_rel_error st == 0).
Proof.
  intros Hn Hd Hlen Hsol Href.
  destruct (stats_body_fields d sol ref_sol Hn Hd Hlen Hsol Href)
    as (x & la & y & lr & Ea & Er & Hst).
  set (abs_error := np_abs (zip_with (zip_with Qminus) sol ref_sol)) in *.
  set (rel_error :=
         zip_with (zip_with Qdiv) abs_error (rel_denominators ref_sol)) in *.
  assert (forall a, In a (x :: la) -> 0 <= a) as Habs
    by (intros a Ha; rewrite <- Ea in Ha; now apply In_np_abs_nonneg in Ha).
  assert (forall q, In q (y :: lr) ->
            exists a, In a (x :: la) /\ 0 <= q /\ q <= 10000000000 * a)
    as Hrel.
  { intros q Hq. rewrite <- Er in Hq.
    apply In_quotients in Hq as (a & b & Ha & Hb & ->).
    apply In_rel_denominators in Hb. rewrite Ea in Ha.
    exists a. split; [exact Ha|]. apply quotient_bounds; auto. }
  destruct (fold_left_Qmax_largest la x) as [Hina Hlea].
  destruct (fold_left_Qmax_largest lr y) as [Hinr Hler].
  destruct (mean_between x la Habs) as [A1 A2].
  destruct (mean_between y lr) as [R1 R2].
  { intros q Hq. destruct (Hrel q Hq) as (a & _ & H0 & _). exact H0. }
  destruct (Hrel _ Hinr) as (a & Ha & Hr0 & Hra).
  assert (fold_left Qmax lr y <= 10000000000 * fold_left Qmax la x) as Hbound.
  { pose proof (Hlea a Ha). lra. }
  eexists. split; [exact Hst|]. cbn [max_abs_error mean_abs_error
                                     max_rel_error mean_rel_error].
  split; [exact (conj A1 A2)|]. split; [exact (conj R1 R2)|].
  split; [exact Hbound|].
  intros ->.
  assert (fold_left Qmax la x == 0) as Z.
  { rewrite <- Ea in Hina. apply In_abs_differences in Hina
      as (i & j & ra & rb & u & v & Hra' & Hrb' & Hu & Hv & E).
    rewrite E. rewrite Hra' in Hrb'. injection Hrb' as <-.
    rewrite Hu in Hv. injection Hv as <-. apply Qabs_self_difference. }
  split; [exact Z|]. split; [lra|]. split; lra.
Qed.

(** The loop over the dictionary: every method other than the reference
    gets the statistics of the loop body, in the order of the
    dictionary, and the reference gets none. *)
Lemma stats_loop_each (Phi : list vec -> method_stats -> Prop)
  (ref_sol : list vec) (good : list vec -> Prop) :
  (forall sol, good sol ->
     exists st, stats_body sol ref_sol = Ok st /\ Phi sol st) ->
  forall (items : dict (list Q * list vec)) (stats0 : dict method_stats),
    NoDup (map fst items) ->
    (forall k, In k (map fst items) -> ~ In k (map fst stats0)) ->
    (forall method t sol, In (method, (t, sol)) items -> good sol) ->
    exists stats,
      stats_loop items ref_sol stats0 = Ok stats /\
      map fst stats
      = map fst stats0
        ++ List.filter (fun k => negb (String.eqb k reference_method))
             (map fst items) /\
      (forall k, ~ In k (map fst items) -> dict_get stats k = dict_get stats0 k) /\
      (forall method t sol,
         In (method, (t, sol)) items -> method <> reference_method ->
         exists st, dict_get stats method = Ok st /\ Phi sol st).
Proof.
  intros Hbody items.
  induction items as [|[method [t sol]] items IH];
    intros stats0 Hnd Hfresh Hgood.
  - exists stats0. cbn. rewrite app_nil_r. repeat split; auto.
    intros ? ? ? [].
  - cbn [map fst] in Hnd. apply NoDup_cons in Hnd as [Hnew Hnd].
    rewrite list_elem_of_In in Hnew.
    assert (forall m t' s', In (m, (t', s')) items -> good s') as Hgood'
      by (intros m t' s' H; apply (Hgood m t' s'); now right).
    cbn [stats_loop map fst List.filter].
    destruct (String.eqb method reference_method) eqn:E; cbn [negb].
    + apply String.eqb_eq in E.
      destruct (IH stats0 Hnd) as (stats & Hrun & Hkeys & Hkeep & Hall);
        [intros k Hk; apply Hfresh; now right | exact Hgood' |].
      exists stats. split; [exact Hrun|]. split; [exact Hkeys|]. split.
      * intros k Hk. apply Hkeep. intros H. apply Hk. now right.
      * intros m t' s' [H|H] Hm; [congruence|]. now apply (Hall m t' s').
    + apply String.eqb_neq in E.
      destruct (Hbody sol (Hgood method t sol (or_introl eq_refl)))
        as (st & Hst & Hphi).
      rewrite Hst. cbn [rbind].
      assert (~ In method (map fst stats0)) as Hm0
        by (apply Hfresh; now left).
      assert (map fst (dict_set stats0 method st) = map fst stats0 ++ [method])
        as Hset.
      { clear -Hm0. induction stats0 as [|[k v] stats0 IHs]; [reflexivity|].
        cbn in *. destruct (String.eqb method k) eqn:Ek.
        - apply String.eqb_eq in Ek. subst. tauto.
        - cbn. f_equal. apply IHs. tauto. }
      destruct (IH (dict_set stats0 method st) Hnd)
        as (stats & Hrun & Hkeys & Hkeep & Hall).
      { intros k Hk. rewrite Hset, in_app_iff. intros [H|[<-|[]]].
        - apply (Hfresh k); [now right | exact H].
        - contradiction. }
      { exact Hgood'. }
      exists stats. split; [exact Hrun|]. split; [|split].
      * rewrite Hkeys, Hset, <- app_assoc. reflexivity.
      * intros k Hk. rewrite Hkeep by (intros H; apply Hk; now right).
        apply dict_get_set_ne. intros ->. apply Hk. now left.
      * intros m t' s' [H|H] Hm.
        -- injection H as <- <- <-. exists st.
           rewrite (Hkeep method Hnew), dict_get_set_eq. auto.
        -- now apply (Hall m t' s').
Qed.

Lemma compute_method_statistics_each
  (Phi : list vec -> method_stats -> Prop)
  (results : dict (list Q * list vec)) (ref_time : list Q)
  (ref_sol : list vec) (good : list vec -> Prop) :
  (forall sol, good sol ->
     exists st, stats_body sol ref_sol = Ok st /\ Phi sol st) ->
  dict_get results reference_method = Ok (ref_time, ref_sol) ->
  NoDup (map fst results) ->
  (forall method t sol, In (method, (t, sol)) results -> good sol) ->
  exists stats,
    compute_method_statistics results = Ok stats /\
    map fst stats
    = List.filter (fun k => negb (String.eqb k reference_method))
        (map fst results) /\
    (forall method t sol,
       In (method, (t, sol)) results -> method <> reference_method ->
       exists st, dict_get stats method = Ok st /\ Phi sol st).
Proof.
  intros Hbody Href Hnd Hgood.
  destruct (stats_loop_each Phi ref_sol good Hbody results [] Hnd)
    as (stats & Hrun & Hkeys & _ & Hall); [auto | exact Hgood |].
  exists stats. split; [|split; [exact Hkeys | exact Hall]].
  unfold compute_method_statistics. rewrite Href. exact Hrun.
Qed.

Ltac stats_witness_hyps :=
  assert (dict_get ex_results reference_method = Ok ([0; 1], [[1; 0]; [0; 1]]))
    as H1 by reflexivity;
  assert (0 < 2)%nat as H2 by lia;
  assert (rows_len 2 [[1; 0]; [0; 1]]) as H3 by (repeat constructor).

(** X7. On a results dictionary whose trajectories all have the
    (non-empty) shape of the reference, the four statistics of every
    method are non-negative. *)
Theorem statistics_nonnegative (results : dict (list Q * list vec))
  (ref_time : list Q) (ref_sol : list vec) (d : nat) :
  dict_get results reference_method = Ok (ref_time, ref_sol) ->
  NoDup (map fst results) ->
  (0 < length ref_sol)%nat -> (0 < d)%nat -> rows_len d ref_sol ->
  (forall method t sol, In (method, (t, sol)) results ->
                        length sol = length ref_sol /\ rows_len d sol) ->
  exists stats,
    compute_method_statistics results = Ok stats /\
    forall method t sol,
      In (method, (t, sol)) results -> method <> reference_method ->
      exists st, dict_get stats method = Ok st /\
        0 <= max_abs_error st /\ 0 <= mean_abs_error st /\
        0 <= max_rel_error st /\ 0 <= mean_rel_error st.
Proof.
  intros Href Hnd Hn Hd Hrows Hshape.
  destruct (compute_method_statistics_each
              (fun _ st =>
                 0 <= max_abs_error st /\ 0 <= mean_abs_error st /\
                 0 <= max_rel_error st /\ 0 <= mean_rel_error st)
              results ref_time ref_sol
              (fun sol => length sol = length ref_sol /\ rows_len d sol))
    as (stats & Hrun & _ & Hall); [| exact Href | exact Hnd | exact Hshape |].
  - intros sol [Hlen Hsol].
    destruct (stats_body_sound d sol ref_sol Hn Hd Hlen Hsol Hrows)
      as (st & Hst & [A1 A2] & [R1 R2] & _).
    exists st. split; [exact Hst|]. repeat split; lra.
  - exists stats. auto.
Qed.

Lemma statistics_nonnegative_witness :
  (dict_get ex_results reference_method = Ok ([0; 1], [[1; 0]; [0; 1]]) /\
   NoDup (map fst ex_results) /\ (0 < 2)%nat /\ rows_len 2 [[1; 0]; [0; 1]]) /\
  exists stats,
    compute_method_statistics ex_results = Ok stats /\
    forall method t sol,
      In (method, (t, sol)) ex_results -> method <> reference_method ->
      exists st, dict_get stats method = Ok st /\
        0 <= max_abs_error st /\ 0 <= mean_abs_error st /\
        0 <= max_rel_error st /\ 0 <= mean_rel_error st.
Proof.
  stats_witness_hyps.
  split; [exact (conj H1 (conj ex_results_keys (conj H2 H3)))|].
  exact (statistics_nonnegative ex_results [0; 1] [[1; 0]; [0; 1]] 2
           H1 ex_results_keys H2 H2 H3 ex_results_shape).
Defined.

(** X8. On a results dictionary whose trajectories all have the
    (non-empty) shape of the reference, the divisor [|ref| + 1e-10] keeps
    the relative error finite: the maximum relative error of a method is
    at most [1e10] times its maximum absolute error. *)
Theorem relative_error_bounded_by_absolute
  (results : dict (list Q * list vec))
  (ref_time : list Q) (ref_sol : list vec) (d : nat) :
  dict_get results reference_method = Ok (ref_time, ref_sol) ->
  NoDup (map fst results) ->
  (0 < length ref_sol)%nat -> (0 < d)%nat -> rows_len d ref_sol ->
  (forall method t sol, In (method, (t, sol)) results ->
                        length sol = length ref_sol /\ rows_len d sol) ->
  exists stats,
    compute_method_statistics results = Ok stats /\
    forall method t sol,
      In (method, (t, sol)) results -> method <> reference_method ->
      exists st, dict_get stats method = Ok st /\
        max_rel_error st <= 10000000000 * max_abs_error st.
Proof.
  intros Href Hnd Hn Hd Hrows Hshape.
  destruct (compute_method_statistics_each
              (fun _ st => max_rel_error st <= 10000000000 * max_abs_error st)
              results ref_time ref_sol
              (fun sol => length sol = length ref_sol /\ rows_len d sol))
    as (stats & Hrun & _ & Hall); [| exact Href | exact Hnd | exact Hshape |].
  - intros sol [Hlen Hsol].
    destruct (stats_body_sound d sol ref_sol Hn Hd Hlen Hsol Hrows)
      as (st & Hst & _ & _ & B & _).
    exists st. auto.
  - exists stats. auto.
Qed.

Lemma relative_error_bounded_by_absolute_witness :
  (dict_get ex_results reference_method = Ok ([0; 1], [[1; 0]; [0; 1]]) /\
   NoDup (map fst ex_results) /\ (0 < 2)%nat /\ rows_len 2 [[1; 0]; [0; 1]]) /\
  exists stats,
    compute_method_statistics ex_results = Ok stats /\
    forall method t sol,
      In (method, (t, sol)) ex_results -> method <> reference_method ->
      exists st, dict_get stats method = Ok st /\
        max_rel_error st <= 10000000000 * max_abs_error st.
Proof.
  stats_witness_hyps.
  split; [exact (conj H1 (conj ex_results_keys (conj H2 H3)))|].
  exact (relative_error_bounded_by_absolute ex_results [0; 1]
           [[1; 0]; [0; 1]] 2 H1 ex_results_keys H2 H2 H3 ex_results_shape).
Defined.

Lemma ex_results_same_keys : NoDup (map fst ex_results_same).
Proof.
  cbn. apply NoDup_cons_2; [|apply NoDup_singleton].
  intros H. apply list_elem_of_singleton in H. discriminate.
Qed.

Lemma ex_results_same_shape method t sol :
  In (method, (t, sol)) ex_results_same ->
  length sol = 2%nat /\ rows_len 2 sol.
Proof.
  intros [H|[H|[]]]; injection H as <- <- <-;
    (split; [reflexivity | repeat constructor]).
Qed.

(** X9. On a results dictionary whose trajectories all have the
    (non-empty) shape of the reference, a method whose trajectory is the
    reference's own gets four statistics equal to 0. *)
Theorem identical_trajectory_zero_error
  (results : dict (list Q * list vec))
  (ref_time : list Q) (ref_sol : list vec) (d : nat) :
  dict_get results reference_method = Ok (ref_time, ref_sol) ->
  NoDup (map fst results) ->
  (0 < length ref_sol)%nat -> (0 < d)%nat -> rows_len d ref_sol ->
  (forall method t sol, In (method, (t, sol)) results ->
                        length sol = length ref_sol /\ rows_len d sol) ->
  exists stats,
    compute_method_statistics results = Ok stats /\
    forall method t,
      In (method, (t, ref_sol)) results -> method <> reference_method ->
      exists st, dict_get stats method = Ok st /\
        max_abs_error st == 0 /\ mean_abs_error st == 0 /\
        max_rel_error st == 0 /\ mean_rel_error st == 0.
Proof.
  intros Href Hnd Hn Hd Hrows Hshape.
  destruct (compute_method_statistics_each
              (fun sol st =>
                 sol = ref_sol ->
                 max_abs_error st == 0 /\ mean_abs_error st == 0 /\
                 max_rel_error st == 0 /\ mean_rel_error st == 0)
              results ref_time ref_sol
              (fun sol => length sol = length ref_sol /\ rows_len d sol))
    as (stats & Hrun & _ & Hall); [| exact Href | exact Hnd | exact Hshape |].
  - intros sol [Hlen Hsol].
    destruct (stats_body_sound d sol ref_sol Hn Hd Hlen Hsol Hrows)
      as (st & Hst & _ & _ & _ & Z).
    exists st. auto.
  - exists stats. split; [exact Hrun|]. intros method t Hin Hm.
    destruct (Hall method t ref_sol Hin Hm) as (st & Hst & Z).
    exists st. auto.
Qed.

Lemma identical_trajectory_zero_error_witness :
  (dict_get ex_results_same reference_method
   = Ok ([0; 1], [[1; 0]; [0; 1]]) /\
   NoDup (map fst ex_results_same) /\ (0 < 2)%nat /\
   rows_len 2 [[1; 0]; [0; 1]] /\
   In ("Adams-Moulton 2"%string, ([0; 1], [[1; 0]; [0; 1]])) ex_results_same) /\
  exists stats,
    compute_method_statistics ex_results_same = Ok stats /\
    forall method t,
      In (method, (t, [[1; 0]; [0; 1]])) ex_results_same ->
      method <> reference_method ->
      exists st, dict_get stats method = Ok st /\
        max_abs_error st == 0 /\ mean_abs_error st == 0 /\
        max_rel_error st == 0 /\ mean_rel_error st == 0.
Proof.
  assert (dict_get ex_results_same reference_method
          = Ok ([0; 1], [[1; 0]; [0; 1]])) as H1 by reflexivity.
  assert (0 < 2)%nat as H2 by lia.
  assert (rows_len 2 [[1; 0]; [0; 1]]) as H3 by (repeat constructor).
  assert (In ("Adams-Moulton 2"%string, ([0; 1], [[1; 0]; [0; 1]]))
            ex_results_same) as H4 by (left; reflexivity).
  split; [exact (conj H1 (conj ex_results_same_keys (conj H2 (conj H3 H4))))|].
  exact (identical_trajectory_zero_error ex_results_same [0; 1]
           [[1; 0]; [0; 1]] 2 H1 ex_results_same_keys H2 H2 H3
           ex_results_same_shape).
Defined.

(** X10. On a results dictionary whose trajectories all have the
    (non-empty) shape of the reference, the returned dictionary has one
    entry for every method other than the reference, in the order of the
    results dictionary, and none for the reference. *)
Theorem statistics_keys (results : dict (list Q * list vec))
  (ref_time : list Q) (ref_sol : list vec) (d : nat) :
  dict_get results reference_method = Ok (ref_time, ref_sol) ->
  NoDup (map fst results) ->
  (0 < length ref_sol)%nat -> (0 < d)%nat -> rows_len d ref_sol ->
  (forall method t sol, In (method, (t, sol)) results ->
                        length sol = length ref_sol /\ rows_len d sol) ->
  exists stats,
    compute_method_statistics results = Ok stats /\
    map fst stats
    = List.filter (fun k => negb (String.eqb k reference_method))
        (map fst results) /\
    dict_get stats reference_method = Raise KeyError.
Proof.
  intros Href Hnd Hn Hd Hrows Hshape.
  destruct (compute_method_statistics_each
              (fun _ _ => True)
              results ref_time ref_sol
              (fun sol => length sol = length ref_sol /\ rows_len d sol))
    as (stats & Hrun & Hkeys & _); [| exact Href | exact Hnd | exact Hshape |].
  - intros sol [Hlen Hsol].
    destruct (stats_body_sound d sol ref_sol Hn Hd Hlen Hsol Hrows)
      as (st & Hst & _).
    exists st. auto.
  - exists stats. split; [exact Hrun|]. split; [exact Hkeys|].
    apply dict_get_missing. rewrite Hkeys, filter_In.
    intros [_ H]. now rewrite String.eqb_refl in H.
Qed.

Lemma statistics_keys_witness :
  (dict_get ex_results reference_method = Ok ([0; 1], [[1; 0]; [0; 1]]) /\
   NoDup (map fst ex_results) /\ (0 < 2)%nat /\ rows_len 2 [[1; 0]; [0; 1]]) /\
  exists stats,
    compute_method_statistics ex_results = Ok stats /\
    map fst stats
    = List.filter (fun k => negb (String.eqb k reference_method))
        (map fst ex_results) /\
    dict_get stats reference_method = Raise KeyError.
Proof.
  stats_witness_hyps.
  split; [exact (conj H1 (conj ex_results_keys (conj H2 H3)))|].
  exact (statistics_keys ex_results [0; 1] [[1; 0]; [0; 1]] 2
           H1 ex_results_keys H2 H2 H3 ex_results_shape).
Defined.

Lemma sequence_Raise {A} (l : list (result A)) e :
  sequence l = Raise e -> In (Raise e) l.
Proof.
  induction l as [|[a|e'] l IH]; cbn; [discriminate | |].
  - destruct (sequence l); cbn; [discriminate|].
    intros H. right. apply IH. exact H.
  - intros H. left. congruence.
Qed.

Lemma broadcast2_Raise {A B C} (op : A -> B -> C) a b e :
  broadcast2 op a b = Raise e -> e = ValueError.
Proof.
  unfold broadcast2. destruct (length a =? length b)%nat; [discriminate|].
  destruct a as [|x [|x' a]], b as [|y [|y' b]]; congruence.
Qed.

Lemma broadcast2_In {A B C} (op : A -> B -> C) a b l c :
  broadcast2 op a b = Ok l -> In c l ->
  exists x y, In x a /\ In y b /\ c = op x y.
Proof.
  unfold broadcast2. intros H Hc.
  assert (In c (zip_with op a b) -> exists x y, In x a /\ In y b /\ c = op x y)
    as Hzip.
  { intros Hz. apply list_elem_of_In, list_elem_of_lookup in Hz as [i Hi].
    apply lookup_zip_with_Some in Hi as (x & y & -> & Hx & Hy).
    exists x, y. repeat split; apply list_elem_of_In;
      eapply list_elem_of_lookup_2; eassumption. }
  assert (forall x, In c (map (op x) b) ->
                    exists y, In y b /\ c = op x y) as Hleft.
  { intros x Hm. apply in_map_iff in Hm as (y & <- & Hy). eauto. }
  assert (forall y, In c (map (fun x => op x y) a) ->
                    exists x, In x a /\ c = op x y) as Hright.
  { intros y Hm. apply in_map_iff in Hm as (x & <- & Hx). eauto. }
  destruct (length a =? length b)%nat.
  - injection H as <-. auto.
  - destruct a as [|x [|x' a]], b as [|y [|y' b]]; try discriminate;
      injection H as <-.
    + destruct Hc.
    + destruct Hc.
    + destruct (Hleft x Hc) as (y0 & Hy0 & ->).
      exists x, y0. repeat split; [now left | exact Hy0].
    + destruct (Hleft x Hc) as (y0 & Hy0 & ->).
      exists x, y0. repeat split; [now left | exact Hy0].
    + destruct (Hright y Hc) as (x0 & Hx0 & ->).
      exists x0, y. repeat split; [exact Hx0 | now left].
Qed.

(** A two-dimensional elementwise operation raises the broadcasting
    error, or what the operation raises at one of its operands. *)
Lemma broadcast2_2d_Raise op (a b : list vec) e :
  broadcast2_2d op a b = Raise e ->
  e = ValueError \/ exists x y, In y (concat b) /\ op x y = Raise e.
Proof.
  unfold broadcast2_2d.
  destruct (broadcast2 _ a b) as [rows|e'] eqn:E; cbn [rbind].
  - intros H. apply sequence_Raise in H.
    destruct (broadcast2_In _ _ _ _ _ E H) as (ra & rb & _ & Hrb & Hrow).
    symmetry in Hrow.
    destruct (broadcast2 op ra rb) as [row|e''] eqn:E'; cbn [rbind] in Hrow.
    + destruct (sequence row) as [r|e''] eqn:Es; cbn [rbind] in Hrow;
        [discriminate|].
      injection Hrow as ->. apply sequence_Raise in Es.
      destruct (broadcast2_In _ _ _ _ _ E' Es) as (x & y & _ & Hy & Hxy).
      right. exists x, y. split; [|now symmetry].
      apply in_concat. eauto.
    + injection Hrow as ->. left. exact (broadcast2_Raise _ _ _ _ E').
  - intros H. injection H as <-. left. exact (broadcast2_Raise _ _ _ _ E).
Qed.

Lemma np_mean_Raise (a : list vec) x l e :
  concat a = x :: l -> np_mean a <> Raise e.
Proof.
  intros E. unfold np_mean. rewrite E, np_true_divide_pos; [discriminate|].
  cbn [length]. rewrite <- (Zlt_Qlt 0). lia.
Qed.

(** The loop body raises nothing but the broadcasting error: the divisors
    are positive, and the mean is taken of an array whose maximum
    exists. *)
Lemma stats_body_Raise (sol ref_sol : list vec) e :
  stats_body sol ref_sol = Raise e -> e = ValueError.
Proof.
  unfold stats_body.
  destruct (broadcast2_2d _ sol ref_sol) as [diff|e1] eqn:E1; cbn [rbind].
  2:{ intros H. injection H as <-.
      apply broadcast2_2d_Raise in E1 as [->|(x & y & _ & H)];
        [reflexivity | discriminate]. }
  destruct (broadcast2_2d np_true_divide _ _) as [rel|e2] eqn:E2; cbn [rbind].
  2:{ intros H. injection H as <-.
      apply broadcast2_2d_Raise in E2 as [->|(x & y & Hy & H)];
        [reflexivity|].
      apply In_rel_denominators in Hy.
      rewrite np_true_divide_pos in H by lra. discriminate. }
  unfold np_max at 1.
  destruct (concat (np_abs diff)) as [|x la] eqn:Ea; cbn [rbind];
    [congruence|].
  destruct (np_mean (np_abs diff)) as [ma|e3] eqn:E3; cbn [rbind].
  2:{ now apply np_mean_Raise with (x := x) (l := la) in E3. }
  unfold np_max at 1.
  destruct (concat rel) as [|y lr] eqn:Er; cbn [rbind]; [congruence|].
  destruct (np_mean rel) as [mr|e4] eqn:E4; cbn [rbind]; [discriminate|].
  now apply np_mean_Raise with (x := y) (l := lr) in E4.
Qed.

Lemma stats_body_mismatch (sol ref_sol : list vec) :
  length sol <> length ref_sol -> length sol <> 1%nat ->
  length ref_sol <> 1%nat ->
  stats_body sol ref_sol = Raise ValueError.
Proof.
  intros H H1 H2. unfold stats_body, broadcast2_2d, broadcast2.
  apply Nat.eqb_neq in H. rewrite H.
  destruct sol as [|ra [|ra' sol]], ref_sol as [|rb [|rb' ref_sol]];
    cbn in *; congruence.
Qed.

Lemma stats_loop_mismatch (ref_sol : list vec) method t sol :
  method <> reference_method ->
  stats_body sol ref_sol = Raise ValueError ->
  forall (items : dict (list Q * list vec)) stats0,
    In (method, (t, sol)) items ->
    stats_loop items ref_sol stats0 = Raise ValueError.
Proof.
  intros Hm Hbad items.
  induction items as [|[m [t' s']] items IH]; intros stats0 Hin; [destruct Hin|].
  cbn [stats_loop].
  destruct Hin as [E|Hin].
  - injection E as -> -> ->. apply String.eqb_neq in Hm. rewrite Hm.
    cbn [negb]. rewrite Hbad. reflexivity.
  - destruct (negb (String.eqb m reference_method)); [|now apply IH].
    destruct (stats_body s' ref_sol) as [st|e] eqn:E; cbn [rbind].
    + now apply IH.
    + now rewrite (stats_body_Raise _ _ _ E).
Qed.

(** X11. A method whose trajectory has another number of rows than the
    reference's, neither having exactly one row, makes the whole call
    raise the broadcasting error: no statistics are returned for any
    method. *)
Theorem mismatched_trajectory_raises (results : dict (list Q * list vec))
  (ref_time : list Q) (ref_sol : list vec) method t sol :
  dict_get results reference_method = Ok (ref_time, ref_sol) ->
  In (method, (t, sol)) results -> method <> reference_method ->
  length sol <> length ref_sol -> length sol <> 1%nat ->
  length ref_sol <> 1%nat ->
  compute_method_statistics results = Raise ValueError.
Proof.
  intros Href Hin Hm Hlen H1 H2.
  unfold compute_method_statistics. rewrite Href. cbn [rbind].
  apply (stats_loop_mismatch ref_sol method t sol Hm); [|exact Hin].
  now apply stats_body_mismatch.
Qed.

Lemma mismatched_trajectory_raises_witness :
  (dict_get ex_results_ragged reference_method = Ok ([0; 1], [[1]; [2]]) /\
   In ("Adams-Bashforth 2"%string, ([0; 1; 2], [[1]; [2]; [3]]))
     ex_results_ragged /\
   "Adams-Bashforth 2"%string <> reference_method) /\
  compute_method_statistics ex_results_ragged = Raise ValueError.
Proof.
  assert (dict_get ex_results_ragged reference_method = Ok ([0; 1], [[1]; [2]]))
    as H1 by reflexivity.
  assert (In ("Adams-Bashforth 2"%string, ([0; 1; 2], [[1]; [2]; [3]]))
            ex_results_ragged) as H2 by (left; reflexivity).
  assert ("Adams-Bashforth 2"%string <> reference_method) as H3
    by discriminate.
  split; [exact (conj H1 (conj H2 H3))|].
  apply (mismatched_trajectory_raises ex_results_ragged [0; 1] [[1]; [2]]
           "Adams-Bashforth 2" [0; 1; 2] [[1]; [2]; [3]] H1 H2 H3);
    cbn; lia.
Defined.

Lemma stats_loop_ignores_time (g : string -> list Q -> list Q)
  (items : dict (list Q * list vec)) (ref_sol : list vec)
  (stats0 : dict method_stats) :
  stats_loop (map (fun entry => (entry.1, (g entry.1 entry.2.1, entry.2.2)))
                items) ref_sol stats0
  = stats_loop items ref_sol stats0.
Proof.
  revert stats0. induction items as [|[method [t sol]] items IH];
    intros stats0; [reflexivity|].
  cbn [map stats_loop fst snd].
  destruct (negb (String.eqb method reference_method)); [|apply IH].
  destruct (stats_body sol ref_sol) as [st|e]; cbn [rbind]; [apply IH|].
  reflexivity.
Qed.

Lemma dict_get_retimed (g : string -> list Q -> list Q)
  (items : dict (list Q * list vec)) k :
  dict_get (map (fun entry => (entry.1, (g entry.1 entry.2.1, entry.2.2)))
              items) k
  = rbind (dict_get items k) (fun r => Ok (g k r.1, r.2)).
Proof.
  induction items as [|[method [t sol]] items IH]; [reflexivity|].
  cbn [map dict_get fst snd].
  destruct (String.eqb k method) eqn:E; [|exact IH].
  apply String.eqb_eq in E. subst. reflexivity.
Qed.

(** X12. [compute_method_statistics] compares the trajectories row by
    row and never reads the time grids: replacing the grids of a results
    dictionary by any others leaves its outcome, statistics or exception,
    unchanged. *)
Theorem statistics_ignore_time_grids (g : string -> list Q -> list Q)
  (results : dict (list Q * list vec)) :
  compute_method_statistics
    (map (fun entry => (entry.1, (g entry.1 entry.2.1, entry.2.2))) results)
  = compute_method_statistics results.
Proof.
  unfold compute_method_statistics. rewrite dict_get_retimed.
  destruct (dict_get results reference_method) as [[ref_time ref_sol]|e];
    cbn [rbind fst snd]; [|reflexivity].
  apply stats_loop_ignores_time.
Qed.

(** ** The evaluations of the derivative (MultiStep.py) *)

Lemma ab2_trace f x0 t0 tf h tr :
  t0 <= tf -> 0 < h -> shape_preserving (length x0) f ->
  exists tp sol ev,
    adams_bashforth_2 f x0 t0 tf h tr = Ok (tp, sol, tr ++ ev) /\
    length ev = (2 * Z.to_nat (grid_len t0 tf h) - 3)%nat /\
    Forall (fun e => at_dimension (length x0) e /\ at_grid_point tp sol e) ev.
Proof.
  intros Ht Hh Hf.
  destruct (ab2_rounded f x0 t0 tf h tr exact_keeps_sign Ht Hh Hf)
    as (tp & sol & ev & Hrun & _ & Ltp & _ & _ & _ & _ & _ & Hc & Hall).
  rewrite (num_steps_exact _ _ _ Ht Hh) in Ltp.
  exists tp, sol, ev. rewrite <- Ltp. auto.
Qed.

Lemma ab4_trace f x0 t0 tf h tr :
  t0 <= tf -> 0 < h -> shape_preserving (length x0) f ->
  exists tp sol ev,
    adams_bashforth_4 f x0 t0 tf h tr = Ok (tp, sol, tr ++ ev) /\
    length ev = (4 * (Z.to_nat (grid_len t0 tf h) - 1))%nat /\
    Forall (at_dimension (length x0)) ev.
Proof.
  intros Ht Hh Hf.
  destruct (ab4_rounded f x0 t0 tf h tr exact_keeps_sign Ht Hh Hf)
    as (tp & sol & ev & Hrun & _ & Ltp & _ & _ & _ & _ & _ & Hc & Hall).
  rewrite (num_steps_exact _ _ _ Ht Hh) in Ltp.
  exists tp, sol, ev. rewrite <- Ltp. auto.
Qed.

Lemma am2_trace f hybr x0 t0 tf h tr :
  t0 <= tf -> 0 < h -> shape_preserving (length x0) f -> solver_shape hybr ->
  exists tp sol ev,
    adams_moulton_2 f hybr x0 t0 tf h tr = Ok (tp, sol, tr ++ ev) /\
    Forall (at_dimension (length x0)) ev.
Proof.
  intros Ht Hh Hf Hs.
  destruct (am2_rounded f hybr x0 t0 tf h tr exact_keeps_sign Ht Hh Hf Hs)
    as (tp & sol & ev & Hrun & _ & _ & _ & _ & _ & _ & _ & Hall).
  exists tp, sol, ev. auto.
Qed.

Lemma dirk_trace f hybr x0 t0 tf h tr :
  t0 <= tf -> 0 < h -> shape_preserving (length x0) f -> solver_shape hybr ->
  exists tp sol ev,
    custom_dirk_method f hybr x0 t0 tf h tr = Ok (tp, sol, tr ++ ev) /\
    Forall (at_dimension (length x0)) ev.
Proof.
  intros Ht Hh Hf Hs.
  destruct (dirk_rounded f hybr x0 t0 tf h tr exact_keeps_sign Ht Hh Hf Hs)
    as (tp & sol & ev & Hrun & _ & _ & _ & _ & _ & _ & Hall).
  exists tp, sol, ev. auto.
Qed.

(** X13. On a valid call with a derivative that keeps the state's
    dimension (and, for the implicit integrators, a solver that returns
    and keeps the dimension) each of the four integrators returns, keeps
    the evaluations traced before the call, and evaluates [f] at states of
    the dimension of [x0] only. *)
Theorem derivative_evaluated_at_state_dimension f hybr x0 t0 tf h tr :
  t0 <= tf -> 0 < h -> shape_preserving (length x0) f -> solver_shape hybr ->
  let P (r : result (list Q * list vec * trace)) :=
    exists tp sol ev,
      r = Ok (tp, sol, tr ++ ev) /\ Forall (at_dimension (length x0)) ev in
  P (adams_bashforth_2 f x0 t0 tf h tr) /\
  P (adams_bashforth_4 f x0 t0 tf h tr) /\
  P (adams_moulton_2 f hybr x0 t0 tf h tr) /\
  P (custom_dirk_method f hybr x0 t0 tf h tr).
Proof.
  intros Ht Hh Hf Hs P. unfold P. repeat split.
  - destruct (ab2_trace f x0 t0 tf h tr Ht Hh Hf) as (tp & sol & ev & H & _ & A).
    exists tp, sol, ev. split; [exact H|].
    eapply Forall_impl; [exact A|]. now intros e [He _].
  - destruct (ab4_trace f x0 t0 tf h tr Ht Hh Hf) as (tp & sol & ev & H & _ & A).
    exists tp, sol, ev. auto.
  - exact (am2_trace f hybr x0 t0 tf h tr Ht Hh Hf Hs).
  - exact (dirk_trace f hybr x0 t0 tf h tr Ht Hh Hf Hs).
Qed.

Lemma derivative_evaluated_at_state_dimension_witness :
  (0 <= 1 /\ 0 < 3 # 10 /\ shape_preserving 1 f_const1 /\
   solver_shape secant) /\
  let P (r : result (list Q * list vec * trace)) :=
    exists tp sol ev,
      r = Ok (tp, sol, [] ++ ev) /\ Forall (at_dimension 1) ev in
  P (adams_bashforth_2 f_const1 [0] 0 1 (3 # 10) []) /\
  P (adams_bashforth_4 f_const1 [0] 0 1 (3 # 10) []) /\
  P (adams_moulton_2 f_const1 secant [0] 0 1 (3 # 10) []) /\
  P (custom_dirk_method f_const1 secant [0] 0 1 (3 # 10) []).
Proof.
  assert (0 <= 1) as H1 by (vm_compute; discriminate).
  assert (0 < 3 # 10) as H2 by reflexivity.
  split; [exact (conj H1 (conj H2 (conj f_const1_shape secant_shape)))|].
  exact (derivative_evaluated_at_state_dimension f_const1 secant [0] 0 1
           (3 # 10) [] H1 H2 f_const1_shape secant_shape).
Defined.

(** X14. On a valid call, under any rounding of the quotient that keeps
    the sign, whose returned grid has [n >= 2] points,
    [adams_bashforth_2] evaluates [f] exactly [2n - 3] times: once for the
    Euler step and twice in each later step, which evaluates the
    derivative at both previous points anew.  Every evaluation is at a
    point of the returned trajectory and its grid time. *)
Theorem adams_bashforth_2_evaluation_count (R : Rounding) f x0 t0 tf h tr :
  keeps_sign R -> t0 <= tf -> 0 < h -> shape_preserving (length x0) f ->
  exists tp sol ev,
    adams_bashforth_2 f x0 t0 tf h tr = Ok (tp, sol, tr ++ ev) /\
    length tp = Z.to_nat (num_steps t0 tf h) /\
    ((2 <= length tp)%nat -> length ev = (2 * length tp - 3)%nat) /\
    Forall (at_grid_point tp sol) ev.
Proof.
  intros HR Ht Hh Hf.
  destruct (ab2_rounded f x0 t0 tf h tr HR Ht Hh Hf)
    as (tp & sol & ev & H & _ & Ltp & _ & _ & _ & _ & _ & C & A).
  exists tp, sol, ev. split; [exact H|]. split; [exact Ltp|].
  split; [intros _; exact C|].
  eapply Forall_impl; [exact A|]. now intros e [_ He].
Qed.

Lemma adams_bashforth_2_evaluation_count_witness :
  (keeps_sign binary64 /\ 0 <= 1 /\ 0 < 1 # 4 /\
   shape_preserving 1 f_const1) /\
  exists tp sol ev,
    adams_bashforth_2 (R := binary64) f_const1 [0] 0 1 (1 # 4) []
    = Ok (tp, sol, [] ++ ev) /\
    length tp = Z.to_nat (num_steps (R := binary64) 0 1 (1 # 4)) /\
    ((2 <= length tp)%nat -> length ev = (2 * length tp - 3)%nat) /\
    Forall (at_grid_point tp sol) ev.
Proof.
  assert (0 <= 1) as H1 by (vm_compute; discriminate).
  assert (0 < 1 # 4) as H2 by reflexivity.
  split; [exact (conj binary64_keeps_sign
                   (conj H1 (conj H2 f_const1_shape)))|].
  exact (adams_bashforth_2_evaluation_count binary64 f_const1 [0] 0 1
           (1 # 4) [] binary64_keeps_sign H1 H2 f_const1_shape).
Defined.

(** X15. On a valid call, under any rounding of the quotient that keeps
    the sign, whose returned grid has [n] points, [adams_bashforth_4]
    evaluates [f] exactly [4(n - 1)] times: four stages in each
    Runge-Kutta step, and four derivatives at the previous points in each
    step of the main loop, none of them kept from one step to the next. *)
Theorem adams_bashforth_4_evaluation_count (R : Rounding) f x0 t0 tf h tr :
  keeps_sign R -> t0 <= tf -> 0 < h -> shape_preserving (length x0) f ->
  exists tp sol ev,
    adams_bashforth_4 f x0 t0 tf h tr = Ok (tp, sol, tr ++ ev) /\
    length tp = Z.to_nat (num_steps t0 tf h) /\
    length ev = (4 * (length tp - 1))%nat.
Proof.
  intros HR Ht Hh Hf.
  destruct (ab4_rounded f x0 t0 tf h tr HR Ht Hh Hf)
    as (tp & sol & ev & H & _ & Ltp & _ & _ & _ & _ & _ & C & _).
  exists tp, sol, ev. auto.
Qed.

Lemma adams_bashforth_4_evaluation_count_witness :
  (keeps_sign binary64 /\ 0 <= 1 /\ 0 < 1 # 8 /\
   shape_preserving 2 f_decay) /\
  exists tp sol ev,
    adams_bashforth_4 (R := binary64) f_decay [1; 2] 0 1 (1 # 8) []
    = Ok (tp, sol, [] ++ ev) /\
    length tp = Z.to_nat (num_steps (R := binary64) 0 1 (1 # 8)) /\
    length ev = (4 * (length tp - 1))%nat.
Proof.
  assert (0 <= 1) as H1 by (vm_compute; discriminate).
  assert (0 < 1 # 8) as H2 by reflexivity.
  split; [exact (conj binary64_keeps_sign
                   (conj H1 (conj H2 (f_decay_shape 2))))|].
  exact (adams_bashforth_4_evaluation_count binary64 f_decay [1; 2] 0 1
           (1 # 8) [] binary64_keeps_sign H1 H2 (f_decay_shape 2)).
Defined.

(** ** The energy system (model.py) *)

Lemma py_div_Ok a b : ~ b == 0 -> py_div a b = Ok (a / b).
Proof.
  intros Hb. unfold py_div. destruct (Qeq_bool b 0) eqn:E; [|reflexivity].
  apply Qeq_bool_eq in E. contradiction.
Qed.

Lemma Qlt_bool_iff a b : Qlt_bool a b = true <-> a < b.
Proof.
  unfold Qlt_bool. rewrite negb_true_iff. split.
  - intros H. apply Qnot_le_lt. intros Hle.
    apply Qle_bool_iff in Hle. congruence.
  - intros H. destruct (Qle_bool b a) eqn:E; [|reflexivity].
    apply Qle_bool_iff in E. lra.
Qed.

(** A state that does not have four components cannot be unpacked. *)
Lemma system_dynamics_unpack np_sin np_cos self X t env :
  length X <> 4%nat ->
  system_dynamics np_sin np_cos self X t env = Raise ValueError.
Proof.
  intros H. destruct X as [|a [|b [|c [|g [|e X]]]]]; cbn in *;
    try reflexivity. lia.
Qed.

Lemma system_dynamics_returns np_sin np_cos self X t env :
  ~ max_solar_capacity self == 0 -> ~ max_wind_capacity self == 0 ->
  length X = 4%nat ->
  exists v, system_dynamics np_sin np_cos self X t env = Ok v /\
            length v = 4%nat.
Proof.
  intros Hs Hw H.
  destruct X as [|a [|b [|c [|g [|e X]]]]]; try discriminate.
  unfold system_dynamics.
  rewrite (py_div_Ok _ _ Hs), (py_div_Ok _ _ Hw). cbn [rbind].
  eexists. split; reflexivity.
Qed.

Lemma system_wrapper_shape np_sin np_cos self :
  ~ max_solar_capacity self == 0 -> ~ max_wind_capacity self == 0 ->
  shape_preserving 4 (system_wrapper np_sin np_cos self).
Proof.
  intros Hs Hw x t Hx. unfold system_wrapper.
  destruct (system_dynamics_returns np_sin np_cos self x t env_conditions
              Hs Hw Hx) as (v & -> & Hv).
  exact Hv.
Qed.

Lemma init_params_capacities :
  ~ max_solar_capacity init_params == 0 /\
  ~ max_wind_capacity init_params == 0.
Proof. split; intros H; discriminate H. Qed.

(** X16. With non-zero capacities and a non-negative grid connection
    limit, [system_dynamics] returns on every state of four components,
    whatever the time and the environmental conditions are; the rate of
    the grid draw lies between 0 and the connection limit, and the rate of
    the stored energy is 0 as soon as the battery is at its capacity or
    above. *)
Theorem system_dynamics_rates np_sin np_cos self
  (solar_gen wind_gen battery_stored grid_draw t : Q) (env : dict Q) :
  ~ max_solar_capacity self == 0 -> ~ max_wind_capacity self == 0 ->
  0 <= grid_connection_limit self ->
  exists d_solar d_wind d_battery d_grid,
    system_dynamics np_sin np_cos self
      [solar_gen; wind_gen; battery_stored; grid_draw] t env
    = Ok [d_solar; d_wind; d_battery; d_grid] /\
    (0 <= d_grid /\ d_grid <= grid_connection_limit self) /\
    (battery_capacity self <= battery_stored -> d_battery == 0).
Proof.
  intros Hs Hw Hl. unfold system_dynamics.
  rewrite (py_div_Ok _ _ Hs), (py_div_Ok _ _ Hw). cbn [rbind].
  do 4 eexists. split; [reflexivity|]. split; [split|].
  - apply Q.min_glb; [apply Q.le_max_r | exact Hl].
  - apply Q.le_min_r.
  - intros Hfull.
    destruct (Qlt_bool battery_stored (battery_capacity self)) eqn:E.
    + apply Qlt_bool_iff in E. lra.
    + ring.
Qed.

Lemma system_dynamics_rates_witness :
  (~ max_solar_capacity init_params == 0 /\
   ~ max_wind_capacity init_params == 0 /\
   0 <= grid_connection_limit init_params) /\
  exists d_solar d_wind d_battery d_grid,
    system_dynamics sin0 cos1 init_params [10; 10; 300; 0] 0 env_conditions
    = Ok [d_solar; d_wind; d_battery; d_grid] /\
    (0 <= d_grid /\ d_grid <= grid_connection_limit init_params) /\
    (battery_capacity init_params <= 300 -> d_battery == 0).
Proof.
  assert (0 <= grid_connection_limit init_params) as H
    by (vm_compute; discriminate).
  split; [exact (conj (proj1 init_params_capacities)
                   (conj (proj2 init_params_capacities) H))|].
  exact (system_dynamics_rates sin0 cos1 init_params 10 10 300 0 0
           env_conditions (proj1 init_params_capacities)
           (proj2 init_params_capacities) H).
Defined.

Lemma dict_get_default_missing {V} (d : dict V) k (default : V) :
  ~ In k (map fst d) -> dict_get_default d k default = default.
Proof.
  induction d as [|[k' v] d IH]; cbn; intros H; [reflexivity|].
  destruct (String.eqb k k') eqn:E.
  - apply String.eqb_eq in E. subst. tauto.
  - apply IH. tauto.
Qed.

(** X17. Environmental conditions that name neither the temperature nor
    the wind speed are read as 20 and 5: [system_dynamics] then returns
    what it returns under the conditions of the simulation. *)
Theorem missing_conditions_default np_sin np_cos self X t (env : dict Q) :
  ~ In "temperature"%string (map fst env) ->
  ~ In "wind_speed"%string (map fst env) ->
  system_dynamics np_sin np_cos self X t env
  = system_dynamics np_sin np_cos self X t env_conditions.
Proof.
  intros Ht Hw. unfold system_dynamics.
  rewrite (dict_get_default_missing env _ 20 Ht),
    (dict_get_default_missing env _ 5 Hw).
  reflexivity.
Qed.

Lemma missing_conditions_default_witness :
  (~ In "temperature"%string (map fst [("humidity"%string, 3)]) /\
   ~ In "wind_speed"%string (map fst [("humidity"%string, 3)])) /\
  system_dynamics sin0 cos1 init_params [10; 10; 50; 0] 0
    [("humidity"%string, 3)]
  = system_dynamics sin0 cos1 init_params [10; 10; 50; 0] 0 env_conditions.
Proof.
  assert (~ In "temperature"%string (map fst [("humidity"%string, 3)])) as H1
    by (cbn; intros [E|[]]; discriminate).
  assert (~ In "wind_speed"%string (map fst [("humidity"%string, 3)])) as H2
    by (cbn; intros [E|[]]; discriminate).
  split; [exact (conj H1 H2)|].
  exact (missing_conditions_default sin0 cos1 init_params [10; 10; 50; 0] 0
           [("humidity"%string, 3)] H1 H2).
Defined.

(** The four integrators in a row, on the wrapped derivative. *)
Lemma simulate_run np_sin np_cos hybr self T dt :
  ~ max_solar_capacity self == 0 -> ~ max_wind_capacity self == 0 ->
  0 <= T -> 0 < dt -> solver_shape hybr ->
  exists tp s2 s4 sm sd ev,
    simulate_with_multiple_methods np_sin np_cos hybr self T dt []
    = Ok ([("Adams-Bashforth 2"%string, (tp, s2));
           ("Adams-Bashforth 4"%string, (tp, s4));
           ("Adams-Moulton 2"%string, (tp, sm));
           ("DIRK"%string, (tp, sd))], ev) /\
    linspace 0 T (grid_len 0 T dt) = Ok tp /\
    Forall (fun sol => length sol = Z.to_nat (grid_len 0 T dt) /\
                       rows_len 4 sol /\ sol !! 0%nat = Some [10; 10; 50; 0])
      [s2; s4; sm; sd] /\
    Forall (at_dimension 4) ev.
Proof.
  intros Hcs Hcw HT Hdt Hs.
  pose proof (system_wrapper_shape np_sin np_cos self Hcs Hcw) as Hf.
  set (f := system_wrapper np_sin np_cos self) in *.
  set (X0 := [10; 10; 50; 0]).
  change (shape_preserving (length X0) f) in Hf.
  pose proof (ab2_run f X0 0 T dt [] HT Hdt Hf) as R2.
  pose proof (ab2_trace f X0 0 T dt [] HT Hdt Hf) as T2.
  destruct R2 as (tp & s2 & tr2 & Hr2 & Hgrid & Hl2 & Hw2 & Hf2 & _).
  destruct T2 as (tp' & s2' & ev2 & Ht2 & _ & He2).
  rewrite Hr2 in Ht2. injection Ht2 as <- <- ->.
  destruct (ab4_run f X0 0 T dt ([] ++ ev2) HT Hdt Hf)
    as (tp4 & s4 & tr4 & Hr4 & Hgrid4 & Hl4 & Hw4 & Hf4 & _).
  destruct (ab4_trace f X0 0 T dt ([] ++ ev2) HT Hdt Hf)
    as (tp' & s4' & ev4 & Ht4 & _ & He4).
  rewrite Hr4 in Ht4. injection Ht4 as <- <- ->.
  destruct (am2_run f hybr X0 0 T dt (([] ++ ev2) ++ ev4) HT Hdt Hf Hs)
    as (tpm & sm & trm & Hrm & Hgridm & Hlm & Hwm & Hfm & _).
  destruct (am2_trace f hybr X0 0 T dt (([] ++ ev2) ++ ev4) HT Hdt Hf Hs)
    as (tp' & sm' & evm & Htm & Hem).
  rewrite Hrm in Htm. injection Htm as <- <- ->.
  destruct (dirk_run f hybr X0 0 T dt ((([] ++ ev2) ++ ev4) ++ evm)
              HT Hdt Hf Hs)
    as (tpd & sd & trd & Hrd & Hgridd & Hld & Hwd & Hfd & _).
  destruct (dirk_trace f hybr X0 0 T dt ((([] ++ ev2) ++ ev4) ++ evm)
              HT Hdt Hf Hs)
    as (tp' & sd' & evd & Htd & Hed).
  rewrite Hrd in Htd. injection Htd as <- <- ->.
  assert (tp4 = tp) as -> by congruence.
  assert (tpm = tp) as -> by congruence.
  assert (tpd = tp) as -> by congruence.
  exists tp, s2, s4, sm, sd, (((([] ++ ev2) ++ ev4) ++ evm) ++ evd).
  split; [|split; [exact Hgrid|split]].
  - unfold simulate_with_multiple_methods. fold f. fold X0.
    rewrite (bind_Ok _ _ _ _ _ Hr2), (bind_Ok _ _ _ _ _ Hr4),
      (bind_Ok _ _ _ _ _ Hrm), (bind_Ok _ _ _ _ _ Hrd).
    reflexivity.
  - repeat constructor; assumption.
  - repeat (apply Forall_app; split); try assumption; [constructor|].
    eapply Forall_impl; [exact He2|]. now intros e [He _].
Qed.

(** The four integrators in a row under rounding. *)
Lemma simulate_rounded {R : Rounding} np_sin np_cos hybr self T dt :
  keeps_sign R ->
  ~ max_solar_capacity self == 0 -> ~ max_wind_capacity self == 0 ->
  0 <= T -> 0 < dt -> solver_shape hybr ->
  exists tp s2 s4 sm sd ev,
    simulate_with_multiple_methods np_sin np_cos hybr self T dt []
    = Ok ([("Adams-Bashforth 2"%string, (tp, s2));
           ("Adams-Bashforth 4"%string, (tp, s4));
           ("Adams-Moulton 2"%string, (tp, sm));
           ("DIRK"%string, (tp, sd))], ev) /\
    length tp = Z.to_nat (num_steps 0 T dt) /\
    Forall (fun sol => length sol = length tp /\
                       rows_len 4 sol /\ sol !! 0%nat = Some [10; 10; 50; 0])
      [s2; s4; sm; sd] /\
    Forall (at_dimension 4) ev.
Proof.
  intros HR Hcs Hcw HT Hdt Hs.
  pose proof (system_wrapper_shape np_sin np_cos self Hcs Hcw) as Hf.
  set (f := system_wrapper np_sin np_cos self) in *.
  set (X0 := [10; 10; 50; 0]).
  change (shape_preserving (length X0) f) in Hf.
  destruct (ab2_rounded f X0 0 T dt [] HR HT Hdt Hf)
    as (tp & s2 & ev2 & Hr2 & Hgrid & Ltp & Hl2 & Hw2 & Hf2 & _ & _ & _ & He2).
  destruct (ab4_rounded f X0 0 T dt ([] ++ ev2) HR HT Hdt Hf)
    as (tp4 & s4 & ev4 & Hr4 & Hgrid4 & _ & Hl4 & Hw4 & Hf4 & _ & _ & _ & He4).
  destruct (am2_rounded f hybr X0 0 T dt (([] ++ ev2) ++ ev4) HR HT Hdt Hf Hs)
    as (tpm & sm & evm & Hrm & Hgridm & _ & Hlm & Hwm & Hfm & _ & _ & Hem).
  destruct (dirk_rounded f hybr X0 0 T dt ((([] ++ ev2) ++ ev4) ++ evm)
              HR HT Hdt Hf Hs)
    as (tpd & sd & evd & Hrd & Hgridd & _ & Hld & Hwd & Hfd & _ & Hed).
  assert (tp4 = tp) as -> by congruence.
  assert (tpm = tp) as -> by congruence.
  assert (tpd = tp) as -> by congruence.
  exists tp, s2, s4, sm, sd, (((([] ++ ev2) ++ ev4) ++ evm) ++ evd).
  split; [|split; [exact Ltp|split]].
  - unfold simulate_with_multiple_methods. fold f. fold X0.
    rewrite (bind_Ok _ _ _ _ _ Hr2), (bind_Ok _ _ _ _ _ Hr4),
      (bind_Ok _ _ _ _ _ Hrm), (bind_Ok _ _ _ _ _ Hrd).
    reflexivity.
  - repeat constructor; assumption.
  - repeat (apply Forall_app; split); try assumption; [constructor|].
    eapply Forall_impl; [exact He2|]. now intros e [He _].
Qed.

(** X18. With non-zero capacities, [0 <= T], [0 < dt], a solver that
    returns and keeps the dimension and any rounding of the quotient that
    keeps the sign, [simulate_with_multiple_methods] returns a dictionary
    with the four methods in the order Adams-Bashforth 2,
    Adams-Bashforth 4, Adams-Moulton 2, DIRK; all four share one time
    grid, which has the computed number of points, and each trajectory
    has one row of four components per grid point, the first being
    [[10, 10, 50, 0]].  Every evaluation of [system_dynamics] made on the
    way returned normally. *)
Theorem simulation_returns_four_trajectories (R : Rounding)
  np_sin np_cos hybr self T dt :
  keeps_sign R ->
  ~ max_solar_capacity self == 0 -> ~ max_wind_capacity self == 0 ->
  0 <= T -> 0 < dt -> solver_shape hybr ->
  exists results ev tp,
    simulate_with_multiple_methods np_sin np_cos hybr self T dt []
    = Ok (results, ev) /\
    map fst results
    = ["Adams-Bashforth 2"; "Adams-Bashforth 4"; "Adams-Moulton 2";
       "DIRK"]%string /\
    length tp = Z.to_nat (num_steps 0 T dt) /\
    (forall method t sol, In (method, (t, sol)) results ->
       t = tp /\ length sol = length tp /\ rows_len 4 sol /\
       sol !! 0%nat = Some [10; 10; 50; 0]) /\
    Forall (returns_at (fun x t =>
              system_dynamics np_sin np_cos self x t env_conditions)) ev.
Proof.
  intros HR Hcs Hcw HT Hdt Hs.
  destruct (simulate_rounded np_sin np_cos hybr self T dt HR Hcs Hcw HT Hdt Hs)
    as (tp & s2 & s4 & sm & sd & ev & Hrun & Ltp & Hall & Hev).
  eexists. exists ev, tp. split; [exact Hrun|]. split; [reflexivity|].
  split; [exact Ltp|]. split.
  - rewrite List.Forall_forall in Hall.
    intros method t sol Hin.
    assert (t = tp /\ In sol [s2; s4; sm; sd]) as [-> Hsol]
      by (destruct Hin as [H|[H|[H|[H|[]]]]]; injection H as <- <- <-;
          cbn; tauto).
    destruct (Hall sol Hsol) as (Hl & Hr & Hf). auto.
  - eapply Forall_impl; [exact Hev|]. intros [x t|w] He; [|exact I].
    destruct (system_dynamics_returns np_sin np_cos self x t
                env_conditions Hcs Hcw He) as (v & Hv & _).
    now exists v.
Qed.

Lemma simulation_returns_four_trajectories_witness :
  (keeps_sign binary64 /\
   ~ max_solar_capacity init_params == 0 /\
   ~ max_wind_capacity init_params == 0 /\
   0 <= 1 /\ 0 < 1 # 2 /\ solver_shape secant) /\
  exists results ev tp,
    simulate_with_multiple_methods (R := binary64) sin0 cos1 secant
      init_params 1 (1 # 2) []
    = Ok (results, ev) /\
    map fst results
    = ["Adams-Bashforth 2"; "Adams-Bashforth 4"; "Adams-Moulton 2";
       "DIRK"]%string /\
    length tp = Z.to_nat (num_steps (R := binary64) 0 1 (1 # 2)) /\
    (forall method t sol, In (method, (t, sol)) results ->
       t = tp /\ length sol = length tp /\ rows_len 4 sol /\
       sol !! 0%nat = Some [10; 10; 50; 0]) /\
    Forall (returns_at (fun x t =>
              system_dynamics sin0 cos1 init_params x t env_conditions)) ev.
Proof.
  assert (0 <= 1) as H1 by (vm_compute; discriminate).
  assert (0 < 1 # 2) as H2 by reflexivity.
  split; [exact (conj binary64_keeps_sign
                   (conj (proj1 init_params_capacities)
                      (conj (proj2 init_params_capacities)
                         (conj H1 (conj H2 secant_shape)))))|].
  exact (simulation_returns_four_trajectories binary64 sin0 cos1 secant
           init_params 1 (1 # 2) binary64_keeps_sign
           (proj1 init_params_capacities) (proj2 init_params_capacities)
           H1 H2 secant_shape).
Defined.

(** X19. With non-zero capacities, [0 <= T], [0 < dt] and a solver that
    returns and keeps the dimension, [compute_method_statistics] accepts
    what [simulate_with_multiple_methods] returns: the four trajectories
    have one shape, so that no operation fails to broadcast and no divisor
    is 0, and the statistics hold one entry for each of Adams-Bashforth 2,
    Adams-Bashforth 4 and Adams-Moulton 2, in that order, each with its
    mean errors between 0 and its maximum errors. *)
Theorem statistics_of_simulation np_sin np_cos hybr self T dt :
  ~ max_solar_capacity self == 0 -> ~ max_wind_capacity self == 0 ->
  0 <= T -> 0 < dt -> solver_shape hybr ->
  exists results ev stats,
    simulate_with_multiple_methods np_sin np_cos hybr self T dt []
    = Ok (results, ev) /\
    compute_method_statistics results = Ok stats /\
    map fst stats
    = ["Adams-Bashforth 2"; "Adams-Bashforth 4"; "Adams-Moulton 2"]%string /\
    Forall (fun entry =>
              (0 <= mean_abs_error entry.2 /\
               mean_abs_error entry.2 <= max_abs_error entry.2) /\
              (0 <= mean_rel_error entry.2 /\
               mean_rel_error entry.2 <= max_rel_error entry.2)) stats.
Proof.
  intros Hcs Hcw HT Hdt Hs.
  destruct (simulate_run np_sin np_cos hybr self T dt Hcs Hcw HT Hdt Hs)
    as (tp & s2 & s4 & sm & sd & ev & Hrun & Hgrid & Hall & Hev).
  pose proof (grid_len_pos 0 T dt HT Hdt) as HN.
  set (n := Z.to_nat (grid_len 0 T dt)) in *.
  rewrite List.Forall_forall in Hall.
  destruct (Hall sd) as (Ld & Rd & _); [cbn; tauto|].
  set (results := [("Adams-Bashforth 2"%string, (tp, s2));
                   ("Adams-Bashforth 4"%string, (tp, s4));
                   ("Adams-Moulton 2"%string, (tp, sm));
                   ("DIRK"%string, (tp, sd))]) in *.
  assert (forall sol, length sol = length sd /\ rows_len 4 sol ->
            exists st, stats_body sol sd = Ok st /\
              (0 <= mean_abs_error st /\
               mean_abs_error st <= max_abs_error st) /\
              (0 <= mean_rel_error st /\
               mean_rel_error st <= max_rel_error st)) as Hbody.
  { intros sol [Hl Hr].
    destruct (stats_body_sound 4 sol sd) as (st & Hst & A & R & _);
      [lia | lia | exact Hl | exact Hr | exact Rd |].
    exists st. auto. }
  destruct (Hall s2) as (L2 & R2 & _); [cbn; tauto|].
  destruct (Hall s4) as (L4 & R4 & _); [cbn; tauto|].
  destruct (Hall sm) as (Lm & Rm & _); [cbn; tauto|].
  destruct (Hbody s2) as (st2 & E2 & P2); [split; [lia | exact R2]|].
  destruct (Hbody s4) as (st4 & E4 & P4); [split; [lia | exact R4]|].
  destruct (Hbody sm) as (stm & Em & Pm); [split; [lia | exact Rm]|].
  exists results, ev. eexists. split; [exact Hrun|]. split; [|split].
  - unfold compute_method_statistics, results.
    cbn [dict_get String.eqb Ascii.eqb Bool.eqb reference_method rbind
         stats_loop negb].
    rewrite E2. cbn [rbind]. rewrite E4. cbn [rbind]. rewrite Em.
    cbn [rbind]. reflexivity.
  - reflexivity.
  - cbn. repeat constructor; cbn; tauto.
Qed.

Lemma statistics_of_simulation_witness :
  (~ max_solar_capacity init_params == 0 /\
   ~ max_wind_capacity init_params == 0 /\
   0 <= 1 /\ 0 < 1 # 2 /\ solver_shape secant) /\
  exists results ev stats,
    simulate_with_multiple_methods sin0 cos1 secant init_params 1 (1 # 2) []
    = Ok (results, ev) /\
    compute_method_statistics results = Ok stats /\
    map fst stats
    = ["Adams-Bashforth 2"; "Adams-Bashforth 4"; "Adams-Moulton 2"]%string /\
    Forall (fun entry =>
              (0 <= mean_abs_error entry.2 /\
               mean_abs_error entry.2 <= max_abs_error entry.2) /\
              (0 <= mean_rel_error entry.2 /\
               mean_rel_error entry.2 <= max_rel_error entry.2)) stats.
Proof.
  assert (0 <= 1) as H1 by (vm_compute; discriminate).
  assert (0 < 1 # 2) as H2 by reflexivity.
  split; [exact (conj (proj1 init_params_capacities)
                   (conj (proj2 init_params_capacities)
                      (conj H1 (conj H2 secant_shape))))|].
  exact (statistics_of_simulation sin0 cos1 secant init_params
           1 (1 # 2) (proj1 init_params_capacities)
           (proj2 init_params_capacities) H1 H2 secant_shape).
Defined.
